(** * Promise pipelining in go-capnproto2: the Fulfiller and the embargo client

    A shallow embedding of [internal/fulfiller/fulfiller.go].  Go objects that
    are shared through pointers ([*Fulfiller], [*embargoClient]) live in a
    store and are named by their index in it; every method is a function in a
    small state-and-failure monad over that store.  Goroutines (the flush
    worker of an embargo client and the goroutines that settle a dispatched
    call) are program counters in the store, advanced one critical section at
    a time by [step]. *)

From stdpp Require Import base option list gmap strings.

(** ** Values of package capnp *)

(** [capnp.CapabilityID] is a [uint32]; the code only compares it and uses it
    as an index. *)
Abbreviation CapabilityID := N (only parsing).

Abbreviation MsgId := nat (only parsing).
Abbreviation FulfillerId := nat (only parsing).
Abbreviation EmbargoId := nat (only parsing).

(** Non-nil values of Go's [error].  The two package-level errors of
    fulfiller.go, capnp's [ErrNullClient], and any other error value. *)
Inductive error :=
| errCallQueueFull
| errQueueCallCancel
| ErrNullClient
| ErrOther (code : nat).

(** Non-nil values of [capnp.Client]: a client outside this package, or a
    pointer to an [embargoClient]. *)
Inductive Client :=
| extClient (n : nat)
| embargoRef (id : EmbargoId).

(** What fulfiller.go uses from package capnp and does not define itself. *)
Class Capnp := {
  Struct : Type;
  Ptr : Type;
  Interface : Type;
  PipelineOp : Type;
  Call : Type;
  Struct_ToPtr : Struct -> Ptr;
  (** [s.Segment().Message()] *)
  Struct_Message : Struct -> MsgId;
  (** [capnp.TransformPtr(p, transform)]: the pointer, or the error *)
  TransformPtr : Ptr -> list PipelineOp -> error + Ptr;
  Ptr_Interface : Ptr -> Interface;
  Interface_IsValid : Interface -> bool;
  Interface_Capability : Interface -> CapabilityID;
  (** [call.Copy(nil)]: the copy, or the error *)
  Call_Copy : Call -> error + Call;
}.

(** The order in which [for k, v := range m] visits a Go map is not
    specified: any enumeration of its entries. *)
Class GoMapRange := {
  range_order : ∀ {V}, gmap CapabilityID V -> list (CapabilityID * V);
  range_order_perm : ∀ V (m : gmap CapabilityID V),
    range_order m ≡ₚ map_to_list m;
}.

(** callQueueSize is the maximum number of pending calls. *)
Definition callQueueSize : nat := 64.

Section Model.
Context `{Capnp} `{GoMapRange}.

(** Values of [capnp.Answer] that this package sees: capnp's immediate and
    error answers, a [*Fulfiller], and the answers handed back by calls into
    other objects, which stay symbolic. *)
Inductive Answer :=
| ImmediateAnswer (s : Struct)
| ErrorAnswer (e : error)
| FulfillerAnswer (f : FulfillerId)
| CallAnswer (c : Client) (cl : Call)
| PipelineAnswer (a : Answer) (transform : list PipelineOp) (cl : Call).

(** ecall is an queued embargoed call. *)
Record ecall := Ecall { e_call : option Call; e_f : option FulfillerId }.

(** pcall is a queued pipeline call. *)
Record pcall := Pcall { pc_transform : list PipelineOp; pc_ecall : ecall }.

Definition zero_ecall : ecall := Ecall None None.
Definition zero_pcall : pcall := Pcall [] zero_ecall.

(** A [chan struct{}]: only its identity and whether it has been closed
    matter here. *)
Record Chan := MkChan { ch_id : nat; ch_closed : bool }.

(** [f_queue] and [f_cap] are the elements and the capacity of the slice
    [queue]; [f_once] says whether [once] has fired. *)
Record Fulfiller := MkFulfiller {
  f_once : bool;
  f_resolved : option Chan;
  f_answer : option Answer;
  f_queue : list pcall;
  f_cap : nat;
}.

Definition zero_Fulfiller : Fulfiller := MkFulfiller false None None [] 0.

(** *** ecallList *)

Abbreviation ecallList := (list ecall).

Definition ecallList_Len (el : ecallList) : nat := length el.

(** [None] is Go's index-out-of-range panic. *)
Definition ecallList_At (el : ecallList) (i : nat) : option ecall := el !! i.

Definition ecallList_Set (el : ecallList) (i : nat) (x : option ecall)
  : option ecallList :=
  if decide (i < length el) then
    match x with
    | None => Some (<[i := zero_ecall]> el)
    | Some c => Some (<[i := c]> el)
    end
  else None.

(** *** queue.Queue *)

(** Modelled from the spec: package internal/queue is not under src/.  The
    spec describes the queue of an embargo client as a bounded FIFO queue:
    calls are appended at the tail, a push on a full queue fails, the flush
    task takes the head.  fulfiller.go initialises it with a backing
    [ecallList] of [callQueueSize] slots and the number of slots already
    filled, and implements Len/At/Set for it, so it is modelled as the
    circular buffer over that interface. *)
Record Queue := MkQueue {
  q_q : ecallList;
  q_start : nat;
  q_n : nat;
  q_cap : nat;
}.

Definition zero_Queue : Queue := MkQueue [] 0 0 0.

Definition Queue_Init (r : ecallList) (n : nat) : Queue :=
  MkQueue r 0 n (ecallList_Len r).

Definition Queue_Len (q : Queue) : nat := q_n q.

(** [Some (q', ok)]: the queue afterwards and Push's result; [None]: panic. *)
Definition Queue_Push (q : Queue) (x : option ecall) : option (Queue * bool) :=
  if decide (q_cap q ≤ q_n q) then Some (q, false)
  else
    let i := (q_start q + q_n q) mod q_cap q in
    match ecallList_Set (q_q q) i x with
    | None => None
    | Some r => Some (MkQueue r (q_start q) (S (q_n q)) (q_cap q), true)
    end.

Definition Queue_Peek (q : Queue) : option ecall :=
  if decide (q_n q = 0) then None else ecallList_At (q_q q) (q_start q).

Definition Queue_Pop (q : Queue) : option (Queue * ecall) :=
  match Queue_Peek q with
  | None => None
  | Some x =>
    match ecallList_Set (q_q q) (q_start q) None with
    | None => None
    | Some r =>
      Some (MkQueue r ((q_start q + 1) mod q_cap q) (q_n q - 1) (q_cap q), x)
    end
  end.

(** The calls a queue holds, head first. *)
Definition Queue_contents (q : Queue) : list ecall :=
  (λ i, default zero_ecall (q_q q !! ((q_start q + i) mod q_cap q)))
    <$> seq 0 (q_n q).

(** *** embargoClient and its goroutines *)

(** embargoClient is a client that flushes a queue of calls. *)
Record embargoClient := MkEmbargo { ec_client : Client; ec_q : Queue }.

(** Where the goroutine running [flushQueue] stands.  It holds [ec.mu] only
    inside [peek] and [pop]; the call into the wrapped client is made
    without it. *)
Inductive flushPC :=
| FlushStart
| FlushTest (c : ecall)
| FlushPop
| FlushDone.

(** What this package asks of objects it does not implement. *)
Inductive Event :=
| EvCall (via : EmbargoId) (c : Client) (cl : Call)
| EvClose (via : EmbargoId) (c : Client)
| EvPipelineCall (a : Answer) (transform : list PipelineOp) (cl : Call)
| EvPipelineClose (a : Answer) (transform : list PipelineOp).

(** ** The store *)

Record World := MkWorld {
  fulfillers : list Fulfiller;
  embargoes : list (embargoClient * flushPC);
  (** goroutines started by flushQueue, waiting on [ans.Struct()] *)
  settlers : list (option FulfillerId * Answer);
  (** [Message.CapTable] of every message *)
  captables : gmap MsgId (list Client);
  chan_next : nat;
  events : list Event;
}.

Definition empty_World : World := MkWorld [] [] [] ∅ 0 [].

Definition set_fulfillers (g : list Fulfiller -> list Fulfiller) (w : World) :=
  MkWorld (g (fulfillers w)) (embargoes w) (settlers w) (captables w)
          (chan_next w) (events w).
Definition set_embargoes
    (g : list (embargoClient * flushPC) -> list (embargoClient * flushPC))
    (w : World) :=
  MkWorld (fulfillers w) (g (embargoes w)) (settlers w) (captables w)
          (chan_next w) (events w).
Definition set_settlers
    (g : list (option FulfillerId * Answer) ->
         list (option FulfillerId * Answer)) (w : World) :=
  MkWorld (fulfillers w) (embargoes w) (g (settlers w)) (captables w)
          (chan_next w) (events w).
Definition set_captables
    (g : gmap MsgId (list Client) -> gmap MsgId (list Client)) (w : World) :=
  MkWorld (fulfillers w) (embargoes w) (settlers w) (g (captables w))
          (chan_next w) (events w).
Definition set_chan_next (n : nat) (w : World) :=
  MkWorld (fulfillers w) (embargoes w) (settlers w) (captables w) n (events w).
Definition emit (e : Event) (w : World) :=
  MkWorld (fulfillers w) (embargoes w) (settlers w) (captables w)
          (chan_next w) (events w ++ [e]).

(** ** The monad *)

Inductive Failure :=
| Panic (msg : string)
| OutOfFuel
| Blocked.

Inductive Result (A : Type) :=
| Ok (a : A) (w : World)
| Fail (why : Failure) (w : World).
Arguments Ok {A} a w.
Arguments Fail {A} why w.

Definition M (A : Type) : Type := World -> Result A.

Definition ret {A} (a : A) : M A := λ w, Ok a w.

Definition bind {A B} (m : M A) (k : A -> M B) : M B :=
  λ w, match m w with
       | Ok a w' => k a w'
       | Fail why w' => Fail why w'
       end.

Definition fail {A} (why : Failure) : M A := λ w, Fail why w.
Definition panic {A} (msg : string) : M A := fail (Panic msg).
Definition modify (g : World -> World) : M unit := λ w, Ok tt (g w).
Definition gets {A} (g : World -> A) : M A := λ w, Ok (g w) w.

Notation "'let*' x ':=' m 'in' k" := (bind m (λ x, k))
  (at level 10, x pattern, m at level 100, k at level 200).
Notation "m '>>' k" := (bind m (λ _, k))
  (at level 100, k at level 200, right associativity).

(** [for _, x := range l { body x }] *)
Fixpoint for_each {A} (l : list A) (body : A -> M unit) : M unit :=
  match l with
  | [] => ret tt
  | x :: l' => body x >> for_each l' body
  end.

Definition nil_deref : string :=
  "invalid memory address or nil pointer dereference"%string.
Definition index_out_of_range : string := "index out of range"%string.

(** ** Fulfiller *)

Definition load (f : FulfillerId) : M Fulfiller :=
  λ w, match fulfillers w !! f with
       | Some st => Ok st w
       | None => Fail (Panic nil_deref) w
       end.

Definition store (f : FulfillerId) (st : Fulfiller) : M unit :=
  modify (set_fulfillers (λ h, <[f := st]> h)).

(** [new(Fulfiller)] *)
Definition new_Fulfiller : M FulfillerId :=
  λ w, Ok (length (fulfillers w))
          (set_fulfillers (λ h, h ++ [zero_Fulfiller]) w).

(** A method called through a [*Fulfiller] that may be nil. *)
Definition deref (fp : option FulfillerId) : M FulfillerId :=
  match fp with
  | None => panic nil_deref
  | Some f => load f >> ret f
  end.

(** init initializes the Fulfiller.  It is idempotent. *)
Definition Fulfiller_init (f : FulfillerId) : M unit :=
  let* st := load f in
  if f_once st then ret tt
  else
    let* c := gets chan_next in
    modify (set_chan_next (S c)) >>
    store f (MkFulfiller true (Some (MkChan c false)) (f_answer st)
                         [] callQueueSize).

(** [close(f.resolved)] *)
Definition close_resolved (f : FulfillerId) : M unit :=
  let* st := load f in
  match f_resolved st with
  | None => panic "close of nil channel"%string
  | Some ch =>
    if ch_closed ch then panic "close of closed channel"%string
    else store f (MkFulfiller (f_once st) (Some (MkChan (ch_id ch) true))
                              (f_answer st) (f_queue st) (f_cap st))
  end.

Definition set_answer (f : FulfillerId) (a : Answer) : M unit :=
  let* st := load f in
  store f (MkFulfiller (f_once st) (f_resolved st) (Some a)
                       (f_queue st) (f_cap st)).

(** [f.queue[i] = x] *)
Definition set_queue_at (f : FulfillerId) (i : nat) (x : pcall) : M unit :=
  let* st := load f in
  if decide (i < length (f_queue st)) then
    store f (MkFulfiller (f_once st) (f_resolved st) (f_answer st)
                         (<[i := x]> (f_queue st)) (f_cap st))
  else panic index_out_of_range.

(** [f.queue[i]] *)
Definition queue_at (f : FulfillerId) (i : nat) : M pcall :=
  let* st := load f in
  match f_queue st !! i with
  | Some pc => ret pc
  | None => panic index_out_of_range
  end.

(** Reject sets the fulfiller's answer to err.  If there are queued
    pipeline calls, they will all return errors.  Reject will panic if
    the error is nil or the fulfiller has already been resolved.

    The recursion follows the pointers in the queue; [fuel] bounds its
    depth. *)
Fixpoint Reject_fuel (fuel : nat) (fp : option FulfillerId)
    (err : option error) : M unit :=
  match err with
  | None => panic "Fulfiller.Reject called with nil"%string
  | Some e =>
    match fuel with
    | O => fail OutOfFuel
    | S fuel' =>
      let* f := deref fp in
      Fulfiller_init f >>
      let* st := load f in
      match f_answer st with
      | Some _ => panic "Fulfiller.Reject called more than once"%string
      | None =>
        set_answer f (ErrorAnswer e) >>
        for_each (seq 0 (length (f_queue st)))
          (λ i, let* pc := queue_at f i in
                Reject_fuel fuel' (e_f (pc_ecall pc)) err >>
                set_queue_at f i zero_pcall) >>
        close_resolved f
      end
    end
  end.

(** No chain of queued Fulfillers is longer than the store. *)
Definition Fulfiller_Reject (fp : option FulfillerId) (err : option error)
  : M unit :=
  λ w, Reject_fuel (S (length (fulfillers w))) fp err w.

(** emptyQueue splits the queue by which capability it targets and
    drops any invalid calls.  Once this function returns, f.queue will
    be nil. *)
Definition emptyQueue_body (f : FulfillerId) (s : Struct)
    (qs : gmap CapabilityID (list ecall)) (i : nat)
  : M (gmap CapabilityID (list ecall)) :=
  let* pc := queue_at f i in
  match TransformPtr (Struct_ToPtr s) (pc_transform pc) with
  | inl err => Fulfiller_Reject (e_f (pc_ecall pc)) (Some err) >> ret qs
  | inr c =>
    let in_ := Ptr_Interface c in
    if negb (Interface_IsValid in_) then
      Fulfiller_Reject (e_f (pc_ecall pc)) (Some ErrNullClient) >> ret qs
    else
      let cn := Interface_Capability in_ in
      ret (<[cn := default [] (qs !! cn) ++ [pc_ecall pc]]> qs)
  end.

Fixpoint emptyQueue_loop (f : FulfillerId) (s : Struct) (idx : list nat)
    (qs : gmap CapabilityID (list ecall))
  : M (gmap CapabilityID (list ecall)) :=
  match idx with
  | [] => ret qs
  | i :: idx' =>
    let* qs' := emptyQueue_body f s qs i in emptyQueue_loop f s idx' qs'
  end.

Definition Fulfiller_emptyQueue (f : FulfillerId) (s : Struct)
  : M (gmap CapabilityID (list ecall)) :=
  let* st := load f in
  let* qs := emptyQueue_loop f s (seq 0 (length (f_queue st))) ∅ in
  let* st := load f in
  store f (MkFulfiller (f_once st) (f_resolved st) (f_answer st) [] 0) >>
  ret qs.

(** [copy(qq, queue)] into a fresh [ecallList] of [callQueueSize] slots,
    then [go ec.flushQueue()]. *)
Definition newEmbargoClient (client : Client) (queue : list ecall)
  : M Client :=
  let qq := replicate callQueueSize zero_ecall in
  let n := min (length qq) (length queue) in
  let qq := take n queue ++ drop n qq in
  let ec := MkEmbargo client (Queue_Init qq n) in
  let* id := gets (λ w, length (embargoes w)) in
  modify (set_embargoes (λ l, l ++ [(ec, FlushStart)])) >>
  ret (embargoRef id).

Definition CapTable (m : MsgId) (w : World) : list Client :=
  default [] (captables w !! m).

(** [ctab[capIdx] = newEmbargoClient(ctab[capIdx], q)] *)
Definition embargo_entry (m : MsgId) (kq : CapabilityID * list ecall)
  : M unit :=
  let* ctab := gets (CapTable m) in
  match ctab !! N.to_nat kq.1 with
  | None => panic index_out_of_range
  | Some c =>
    let* ec := newEmbargoClient c kq.2 in
    modify (set_captables (λ t, <[m := <[N.to_nat kq.1 := ec]> ctab]> t))
  end.

(** Fulfill sets the fulfiller's answer to s.  If there are queued
    pipeline calls, the capabilities on the struct will be embargoed
    until the queued calls finish.  Fulfill will panic if the fulfiller
    has already been resolved. *)
Definition Fulfiller_Fulfill (f : FulfillerId) (s : Struct) : M unit :=
  Fulfiller_init f >>
  let* st := load f in
  match f_answer st with
  | Some _ => panic "Fulfiller.Fulfill called more than once"%string
  | None =>
    set_answer f (ImmediateAnswer s) >>
    let* queues := Fulfiller_emptyQueue f s in
    for_each (range_order queues) (embargo_entry (Struct_Message s)) >>
    close_resolved f
  end.

(** Done returns a channel that is closed once f is resolved. *)
Definition Fulfiller_Done (f : FulfillerId) : M (option nat) :=
  Fulfiller_init f >>
  let* st := load f in
  ret (ch_id <$> f_resolved st).

(** Peek returns f's resolved answer or nil if f has not been resolved. *)
Definition Fulfiller_Peek (f : FulfillerId) : M (option Answer) :=
  Fulfiller_init f >>
  let* st := load f in
  ret (f_answer st).

(** [<-f.Done()]: a receive on an open (or nil) channel does not return. *)
Definition wait_Done (f : FulfillerId) : M unit :=
  Fulfiller_Done f >>
  let* st := load f in
  match f_resolved st with
  | Some ch => if ch_closed ch then ret tt else fail Blocked
  | None => fail Blocked
  end.

(** Struct waits until f is resolved and returns its struct if fulfilled
    or an error if rejected: it returns what the [Struct] method of the
    answer below returns. *)
Definition Fulfiller_Struct (f : FulfillerId) : M Answer :=
  wait_Done f >>
  let* a := Fulfiller_Peek f in
  match a with
  | None => panic nil_deref
  | Some a => ret a
  end.

(** [a.PipelineCall(transform, call)] on an answer of package capnp. *)
Definition Answer_PipelineCall (a : Answer) (transform : list PipelineOp)
    (cl : Call) : M Answer :=
  modify (emit (EvPipelineCall a transform cl)) >>
  ret (PipelineAnswer a transform cl).

(** The part of PipelineCall that runs with [f.mu] held. *)
Definition PipelineCall_locked (f : FulfillerId)
    (transform : list PipelineOp) (cl : Call) : M Answer :=
  let* st := load f in
  match f_answer st with
  | Some a => Answer_PipelineCall a transform cl
  | None =>
    if decide (length (f_queue st) = f_cap st) then
      ret (ErrorAnswer errCallQueueFull)
    else
      match Call_Copy cl with
      | inl err => ret (ErrorAnswer err)
      | inr cc =>
        let* g := new_Fulfiller in
        let* st := load f in
        store f (MkFulfiller (f_once st) (f_resolved st) (f_answer st)
                   (f_queue st ++ [Pcall transform (Ecall (Some cc) (Some g))])
                   (f_cap st)) >>
        ret (FulfillerAnswer g)
      end
  end.

(** PipelineCall calls PipelineCall on the fulfilled answer or queues the
    call if f has not been fulfilled. *)
Definition Fulfiller_PipelineCall (f : FulfillerId)
    (transform : list PipelineOp) (cl : Call) : M Answer :=
  Fulfiller_init f >>
  let* a := Fulfiller_Peek f in
  match a with
  | Some a => Answer_PipelineCall a transform cl
  | None => PipelineCall_locked f transform cl
  end.

(** PipelineClose waits until f is resolved and then calls PipelineClose
    on the fulfilled answer. *)
Definition Fulfiller_PipelineClose (f : FulfillerId)
    (transform : list PipelineOp) : M unit :=
  wait_Done f >>
  let* a := Fulfiller_Peek f in
  match a with
  | None => panic nil_deref
  | Some a => modify (emit (EvPipelineClose a transform))
  end.

(** ** embargoClient *)

Definition load_ec (ec : EmbargoId) : M embargoClient :=
  λ w, match embargoes w !! ec with
       | Some c => Ok c.1 w
       | None => Fail (Panic nil_deref) w
       end.

Definition store_q (ec : EmbargoId) (q : Queue) : M unit :=
  modify (set_embargoes
            (λ l, match l !! ec with
                  | Some c => <[ec := (MkEmbargo (ec_client c.1) q, c.2)]> l
                  | None => l
                  end)).

Definition load_pc (ec : EmbargoId) : M flushPC :=
  λ w, match embargoes w !! ec with
       | Some c => Ok c.2 w
       | None => Fail (Panic nil_deref) w
       end.

Definition store_pc (ec : EmbargoId) (pc : flushPC) : M unit :=
  modify (set_embargoes
            (λ l, match l !! ec with
                  | Some c => <[ec := (c.1, pc)]> l
                  | None => l
                  end)).

(** [ec.client.Call(cl)] and [ec.client.Close()]: calls into the wrapped
    client, recorded in [events]. *)
Definition Client_Call (via : EmbargoId) (c : Client) (cl : Call)
  : M Answer :=
  modify (emit (EvCall via c cl)) >> ret (CallAnswer c cl).

Definition Client_Close (via : EmbargoId) (c : Client) : M unit :=
  modify (emit (EvClose via c)).

Definition embargoClient_push (ec : EmbargoId) (cl : Call) : M Answer :=
  let* f := new_Fulfiller in
  match Call_Copy cl with
  | inl err => ret (ErrorAnswer err)
  | inr cl' =>
    let* e := load_ec ec in
    match Queue_Push (ec_q e) (Some (Ecall (Some cl') (Some f))) with
    | None => panic index_out_of_range
    | Some (q', ok) =>
      store_q ec q' >>
      if ok then ret (FulfillerAnswer f)
      else ret (ErrorAnswer errCallQueueFull)
    end
  end.

Definition embargoClient_peek (ec : EmbargoId) : M ecall :=
  let* e := load_ec ec in
  if decide (Queue_Len (ec_q e) = 0) then ret zero_ecall
  else
    match Queue_Peek (ec_q e) with
    | None => panic index_out_of_range
    | Some c => ret c
    end.

Definition embargoClient_pop (ec : EmbargoId) : M ecall :=
  let* e := load_ec ec in
  if decide (Queue_Len (ec_q e) = 0) then ret zero_ecall
  else
    match Queue_Pop (ec_q e) with
    | None => panic index_out_of_range
    | Some (q', c) => store_q ec q' >> ret c
    end.

Definition embargoClient_isPassthrough (ec : EmbargoId) : M bool :=
  let* e := load_ec ec in
  ret (bool_decide (Queue_Len (ec_q e) = 0)).

Definition embargoClient_WrappedClient (ec : EmbargoId) : M (option Client) :=
  let* ok := embargoClient_isPassthrough ec in
  if negb ok then ret None
  else let* e := load_ec ec in ret (Some (ec_client e)).

Definition embargoClient_Call (ec : EmbargoId) (cl : Call) : M Answer :=
  let* ok := embargoClient_isPassthrough ec in
  if ok then
    let* e := load_ec ec in Client_Call ec (ec_client e) cl
  else
    let* ok := embargoClient_isPassthrough ec in
    if ok then
      let* e := load_ec ec in Client_Call ec (ec_client e) cl
    else embargoClient_push ec cl.

(** [for ec.q.Len() > 0 { c := ec.pop(); c.f.Reject(errQueueCallCancel) }];
    every turn pops one call, so [n] turns are enough for a queue of
    length [n]. *)
Fixpoint Close_loop (n : nat) (ec : EmbargoId) : M unit :=
  let* e := load_ec ec in
  if decide (Queue_Len (ec_q e) = 0) then ret tt
  else
    match n with
    | O => fail OutOfFuel
    | S n' =>
      let* c := embargoClient_pop ec in
      Fulfiller_Reject (e_f c) (Some errQueueCallCancel) >>
      Close_loop n' ec
    end.

Definition embargoClient_Close (ec : EmbargoId) : M unit :=
  let* e := load_ec ec in
  Close_loop (Queue_Len (ec_q e)) ec >>
  Client_Close ec (ec_client e).

(** One critical section (or the unlocked call between two of them) of the
    goroutine that runs flushQueue. *)
Definition flush_step (ec : EmbargoId) : M unit :=
  let* pc := load_pc ec in
  match pc with
  | FlushStart =>
    let* c := embargoClient_peek ec in store_pc ec (FlushTest c)
  | FlushTest c =>
    match e_call c with
    | None => store_pc ec FlushDone
    | Some cl =>
      let* e := load_ec ec in
      let* ans := Client_Call ec (ec_client e) cl in
      modify (set_settlers (λ l, l ++ [(e_f c, ans)])) >>
      store_pc ec FlushPop
    end
  | FlushPop =>
    embargoClient_pop ec >>
    let* c := embargoClient_peek ec in store_pc ec (FlushTest c)
  | FlushDone => ret tt
  end.

(** flushQueue run without interruption, for at most [n] steps. *)
Fixpoint flushQueue (n : nat) (ec : EmbargoId) : M unit :=
  let* pc := load_pc ec in
  match pc with
  | FlushDone => ret tt
  | _ =>
    match n with
    | O => fail OutOfFuel
    | S n' => flush_step ec >> flushQueue n' ec
    end
  end.

(** The goroutine [func(f, ans)] of flushQueue, once [ans.Struct()] has
    returned [r]. *)
Definition settle (i : nat) (r : error + Struct) : M unit :=
  let* ts := gets settlers in
  match ts !! i with
  | None => ret tt
  | Some (fp, _) =>
    modify (set_settlers (delete i)) >>
    match r with
    | inr s => let* f := deref fp in Fulfiller_Fulfill f s
    | inl err => Fulfiller_Reject fp (Some err)
    end
  end.

(** ** Executions *)

Inductive Value :=
| VUnit
| VAnswer (a : Answer)
| VPeek (a : option Answer)
| VChan (c : option nat)
| VClient (c : option Client).

(** The exported methods of Fulfiller. *)
Inductive Method :=
| MFulfill (s : Struct)
| MReject (err : option error)
| MDone
| MPeek
| MStruct
| MPipelineCall (transform : list PipelineOp) (cl : Call)
| MPipelineClose (transform : list PipelineOp).

Definition invoke (m : Method) (f : FulfillerId) : M Value :=
  match m with
  | MFulfill s => Fulfiller_Fulfill f s >> ret VUnit
  | MReject err => Fulfiller_Reject (Some f) err >> ret VUnit
  | MDone => let* c := Fulfiller_Done f in ret (VChan c)
  | MPeek => let* a := Fulfiller_Peek f in ret (VPeek a)
  | MStruct => let* a := Fulfiller_Struct f in ret (VAnswer a)
  | MPipelineCall tr cl =>
    let* a := Fulfiller_PipelineCall f tr cl in ret (VAnswer a)
  | MPipelineClose tr => Fulfiller_PipelineClose f tr >> ret VUnit
  end.

(** What a goroutine can do next. *)
Inductive Action :=
| AMethod (f : FulfillerId) (m : Method)
| ACall (ec : EmbargoId) (cl : Call)
| AWrappedClient (ec : EmbargoId)
| AClose (ec : EmbargoId)
| AFlush (ec : EmbargoId)
| ASettle (i : nat) (r : error + Struct).

Definition step (a : Action) : M Value :=
  match a with
  | AMethod f m => invoke m f
  | ACall ec cl => let* a := embargoClient_Call ec cl in ret (VAnswer a)
  | AWrappedClient ec =>
    let* c := embargoClient_WrappedClient ec in ret (VClient c)
  | AClose ec => embargoClient_Close ec >> ret VUnit
  | AFlush ec => flush_step ec >> ret VUnit
  | ASettle i r => settle i r >> ret VUnit
  end.

(** A schedule, and the values its actions returned. *)
Fixpoint run (sched : list Action) : M (list Value) :=
  match sched with
  | [] => ret []
  | a :: sched' =>
    let* v := step a in
    let* vs := run sched' in
    ret (v :: vs)
  end.

(** ** Definitions used to state the properties *)

(** The state [init] leaves a Fulfiller in, given the next channel. *)
Definition inited (c : nat) (st : Fulfiller) : Fulfiller :=
  if f_once st then st
  else MkFulfiller true (Some (MkChan c false)) (f_answer st)
                   [] callQueueSize.

Definition init_World (f : FulfillerId) (st : Fulfiller) (w : World) : World :=
  if f_once st then w
  else set_fulfillers (λ h, <[f := inited (chan_next w) st]> h)
         (set_chan_next (S (chan_next w)) w).

Definition with_queue (q : list pcall) (st : Fulfiller) : Fulfiller :=
  MkFulfiller (f_once st) (f_resolved st) (f_answer st) q (f_cap st).

Definition with_answer (a : Answer) (st : Fulfiller) : Fulfiller :=
  MkFulfiller (f_once st) (f_resolved st) (Some a) (f_queue st) (f_cap st).

(** The store after [PipelineCall] has queued the copy [cc] of a call on
    the initialised, unresolved Fulfiller [f]: the child is the new
    Fulfiller at the end of the store. *)
Definition enqueued (f : FulfillerId) (transform : list PipelineOp)
    (cc : Call) (w : World) : World :=
  let g := length (fulfillers w) in
  set_fulfillers
    (λ h, match h !! f with
          | Some st =>
            <[f := with_queue
                     (f_queue st ++ [Pcall transform (Ecall (Some cc) (Some g))])
                     st]> (h ++ [zero_Fulfiller])
          | None => h
          end) w.

(** The representation invariant of the circular buffer. *)
Definition Queue_wf (q : Queue) : Prop :=
  q_cap q = length (q_q q) ∧ q_n q ≤ q_cap q ∧ q_start q < q_cap q.

(** The queue [newEmbargoClient] builds from the calls handed to it. *)
Definition new_queue (queue : list ecall) : Queue :=
  let qq := replicate callQueueSize zero_ecall in
  let n := min (length qq) (length queue) in
  Queue_Init (take n queue ++ drop n qq) n.

(** What holds of the queue of every embargo client. *)
Definition embargo_ok (e : embargoClient) : Prop :=
  Queue_wf (ec_q e) ∧ q_cap (ec_q e) = callQueueSize.

(** [new(Fulfiller)] *)
Definition alloc_Fulfiller (w : World) : World :=
  set_fulfillers (λ h, h ++ [zero_Fulfiller]) w.

(** [*f = st] *)
Definition upd (f : FulfillerId) (st : Fulfiller) (w : World) : World :=
  set_fulfillers (λ h, <[f := st]> h) w.

Definition with_closed (c : nat) (st : Fulfiller) : Fulfiller :=
  MkFulfiller (f_once st) (Some (MkChan c true)) (f_answer st)
              (f_queue st) (f_cap st).

(** An unresolved Fulfiller as this package leaves it: the zero value, with
    no queue, or initialised, with an open channel and a queue of capacity
    [callQueueSize] that is not over-full. *)
Definition pending (st : Fulfiller) : bool :=
  match f_answer st with
  | Some _ => false
  | None =>
    if f_once st then
      match f_resolved st with
      | Some ch =>
        negb (ch_closed ch) && bool_decide (f_cap st = callQueueSize)
        && bool_decide (length (f_queue st) ≤ f_cap st)
      | None => false
      end
    else
      match f_queue st with [] => true | _ => false end
  end.

(** The Fulfillers reached from [fp] through the queues, parents first:
    [Some] when all of them are pending and none is further than [n]
    pointers away.  When the list has no duplicates they form a tree: no
    Fulfiller is queued twice. *)
Fixpoint footprint (n : nat) (h : list Fulfiller) (fp : option FulfillerId)
  : option (list FulfillerId) :=
  match n with
  | O => None
  | S n' =>
    match fp with
    | None => None
    | Some f =>
      match h !! f with
      | None => None
      | Some st =>
        if pending st then
          match mapM (λ pc, footprint n' h (e_f (pc_ecall pc))) (f_queue st)
          with
          | Some fps => Some (f :: concat fps)
          | None => None
          end
        else None
      end
    end
  end.

(** [fp] points to the root of a tree of pending Fulfillers, [fl]. *)
Definition tree_at (w : World) (fp : option FulfillerId)
    (fl : list FulfillerId) : Prop :=
  (∃ n, footprint n (fulfillers w) fp = Some fl) ∧ NoDup fl.

(** A Fulfiller resolved with answer [a]: initialised, channel closed. *)
Definition resolved_with (a : Answer) (st : Fulfiller) : Prop :=
  f_answer st = Some a ∧ f_once st = true ∧
  ∃ c, f_resolved st = Some (MkChan c true).

(** Everything but the Fulfillers and the channel counter is the same. *)
Definition same_rest (w w' : World) : Prop :=
  embargoes w' = embargoes w ∧ settlers w' = settlers w ∧
  captables w' = captables w ∧ events w' = events w.

(** From [w] to [w']: the Fulfillers of [fl] have been rejected with [e],
    and nothing else has changed. *)
Definition rejected_in (e : error) (fl : list FulfillerId) (w w' : World)
  : Prop :=
  length (fulfillers w') = length (fulfillers w) ∧
  (∀ x, x ∉ fl -> fulfillers w' !! x = fulfillers w !! x) ∧
  (∀ x, x ∈ fl ->
     ∃ st', fulfillers w' !! x = Some st' ∧
            resolved_with (ErrorAnswer e) st') ∧
  same_rest w w'.

(** The three outcomes of emptyQueue's tests on a queued call. *)
Inductive Target :=
| TransformFailed (err : error)
| NullClient
| TargetCap (k : CapabilityID).

Definition resolve (s : Struct) (pc : pcall) : Target :=
  match TransformPtr (Struct_ToPtr s) (pc_transform pc) with
  | inl err => TransformFailed err
  | inr c =>
    if Interface_IsValid (Ptr_Interface c)
    then TargetCap (Interface_Capability (Ptr_Interface c))
    else NullClient
  end.

Definition targets (s : Struct) (k : CapabilityID) (pc : pcall) : bool :=
  match resolve s pc with
  | TargetCap k' => bool_decide (k' = k)
  | _ => false
  end.

(** The calls of a queue that resolve to capability [k], in queue order. *)
Definition group (s : Struct) (k : CapabilityID) (Q : list pcall)
  : list ecall :=
  pc_ecall <$> filter (λ pc, targets s k pc) Q.

(** The entry of the map that emptyQueue returns for [k]. *)
Definition grouped (s : Struct) (k : CapabilityID) (Q : list pcall)
  : option (list ecall) :=
  match group s k Q with
  | [] => None
  | g => Some g
  end.

(** What fulfilling with [s] does to the queued call [pc], whose child
    Fulfiller is the root of the tree [fli]. *)
Definition child_outcome (s : Struct) (pc : pcall) (fli : list FulfillerId)
    (w w' : World) : Prop :=
  match resolve s pc with
  | TransformFailed err =>
    ∀ x, x ∈ fli ->
      ∃ st', fulfillers w' !! x = Some st' ∧
             resolved_with (ErrorAnswer err) st'
  | NullClient =>
    ∀ x, x ∈ fli ->
      ∃ st', fulfillers w' !! x = Some st' ∧
             resolved_with (ErrorAnswer ErrNullClient) st'
  | TargetCap _ =>
    ∀ x, x ∈ fli -> fulfillers w' !! x = fulfillers w !! x
  end.

(** The calls that embargo client [ec] has made into its wrapped client,
    oldest first. *)
Definition dispatched (ec : EmbargoId) (evs : list Event) : list Call :=
  omap (λ ev, match ev with
              | EvCall via _ cl => if decide (via = ec) then Some cl else None
              | _ => None
              end) evs.

(** Whether, and when, the wrapped client of [ec] has been closed. *)
Definition closes (ec : EmbargoId) (evs : list Event) : list Client :=
  omap (λ ev, match ev with
              | EvClose via c => if decide (via = ec) then Some c else None
              | _ => None
              end) evs.

Definition calls (l : list ecall) : list Call := omap e_call l.

Definition head_or_zero (l : list ecall) : ecall := default zero_ecall (head l).

(** The call that an action submitted to the embargo client, if it was
    accepted: the call itself when it was passed through, its copy when it
    was queued. *)
Definition accepted_of (a : Action) (v : Value) : list Call :=
  match a, v with
  | ACall _ _, VAnswer (CallAnswer _ cl') => [cl']
  | ACall _ cl, VAnswer (FulfillerAnswer _) =>
    match Call_Copy cl with inr cl' => [cl'] | inl _ => [] end
  | _, _ => []
  end.

Fixpoint submitted (sched : list Action) (vs : list Value) : list Call :=
  match sched, vs with
  | a :: sched', v :: vs' => accepted_of a v ++ submitted sched' vs'
  | _, _ => []
  end.

(** The actions of a schedule in which only the goroutines that use
    embargo client [ec], other than by closing it, take steps. *)
Definition on_embargo (ec : EmbargoId) (a : Action) : Prop :=
  match a with
  | AFlush ec' | ACall ec' _ | AWrappedClient ec' => ec' = ec
  | _ => False
  end.

(** Where the flush goroutine of [ec] stands, against the calls [S]
    submitted so far and the calls [D] it has made since [D0]. *)
Definition flush_inv (ec : EmbargoId) (c : Client) (D0 S : list Call)
    (w : World) : Prop :=
  ∃ q pc D,
    embargoes w !! ec = Some (MkEmbargo c q, pc) ∧
    embargo_ok (MkEmbargo c q) ∧
    Forall (λ e, is_Some (e_call e)) (Queue_contents q) ∧
    dispatched ec (events w) = D0 ++ D ∧
    match pc with
    | FlushStart => D ++ calls (Queue_contents q) = S
    | FlushTest x =>
      D ++ calls (Queue_contents q) = S ∧ x = head_or_zero (Queue_contents q)
    | FlushPop =>
      ∃ x rest, Queue_contents q = x :: rest ∧ D ++ calls rest = S
    | FlushDone => Queue_contents q = [] ∧ D = S
    end.

(** The steps the flush goroutine of [ec] still has to take. *)
Definition flush_measure (ec : EmbargoId) (w : World) : nat :=
  match embargoes w !! ec with
  | Some (e, pc) =>
    match pc with
    | FlushStart => 2 * q_n (ec_q e) + 2
    | FlushTest _ => 2 * q_n (ec_q e) + 1
    | FlushPop => 2 * q_n (ec_q e)
    | FlushDone => 0
    end
  | None => 0
  end.

(** [*ec = x], with the program counter of its goroutine. *)
Definition upd_ec (ec : EmbargoId) (x : embargoClient * flushPC) (w : World)
  : World :=
  set_embargoes (λ l, <[ec := x]> l) w.

(** The embargo client [ec] passes calls through: its queue is empty. *)
Definition passthrough (ec : EmbargoId) (w : World) : Prop :=
  ∃ e pc, embargoes w !! ec = Some (e, pc) ∧ q_n (ec_q e) = 0.

Definition world_of {A} (r : Result A) : World :=
  match r with Ok _ w | Fail _ w => w end.

(** Resolved-ness, a closed channel and initialisation agree: a Fulfiller
    that [init] has not touched has no answer and no channel; one that it
    has touched has a channel, closed exactly when there is an answer. *)
Definition coherent (st : Fulfiller) : Prop :=
  if f_once st then
    ∃ ch, f_resolved st = Some ch ∧
          (ch_closed ch = true ↔ is_Some (f_answer st))
  else f_answer st = None ∧ f_resolved st = None.

(** What never changes in a Fulfiller: once initialised it stays so, with
    the same channel; once resolved it keeps its answer. *)
Definition stable (st st' : Fulfiller) : Prop :=
  (f_once st = true ->
     f_once st' = true ∧ ch_id <$> f_resolved st' = ch_id <$> f_resolved st) ∧
  (is_Some (f_answer st) -> f_answer st' = f_answer st).

Definition evolves (st st' : Fulfiller) : Prop :=
  stable st st' ∧ (coherent st -> coherent st').

(** From [w] to [w']: every Fulfiller is still there and has evolved, and
    the new ones are coherent. *)
Definition Evolves (w w' : World) : Prop :=
  (∀ x st, fulfillers w !! x = Some st ->
     ∃ st', fulfillers w' !! x = Some st' ∧ evolves st st') ∧
  (∀ x st', fulfillers w' !! x = Some st' -> fulfillers w !! x = None ->
     coherent st').

(** The methods that resolve a Fulfiller. *)
Definition resolving (m : Method) : Prop :=
  match m with
  | MFulfill _ | MReject _ => True
  | _ => False
  end.

(** The answer a Fulfiller holds once the result [r] of a call has been
    handed to it, and the method that hands it over: [Fulfill] for a
    struct, [Reject] for an error. *)
Definition answer_of (r : error + Struct) : Answer :=
  match r with
  | inl e => ErrorAnswer e
  | inr s => ImmediateAnswer s
  end.

Definition resolve_by (r : error + Struct) : Method :=
  match r with
  | inl e => MReject (Some e)
  | inr s => MFulfill s
  end.

(** The goroutine that flushQueue starts for the queued call [e] once it
    has made the call into the wrapped client [c]: it waits for the answer
    to that call, to hand its result to the Fulfiller of [e]. *)
Definition settler_of (c : Client) (e : ecall)
  : option (option FulfillerId * Answer) :=
  match e_call e with
  | Some cl => Some (e_f e, CallAnswer c cl)
  | None => None
  end.

(** A request to [PipelineCall]: the transform, the call, and the copy
    that [Call.Copy] makes of the call. *)
Definition request : Type := list PipelineOp * Call * Call.

Definition copies_to (r : request) : Prop := Call_Copy r.1.2 = inr r.2.

(** The goroutine that makes the requests [reqs] on [f], one after the
    other. *)
Definition pipeline_all (f : FulfillerId) (reqs : list request) : list Action :=
  (λ r : request, AMethod f (MPipelineCall r.1.1 r.1.2)) <$> reqs.

(** The entry that [PipelineCall] queues for a request, with the new
    Fulfiller [g]. *)
Definition queued_request (r : request) (g : FulfillerId) : pcall :=
  Pcall r.1.1 (Ecall (Some r.2) (Some g)).

(** The request [r] resolves, on the struct [s], to capability [k]. *)
Definition resolves_to (s : Struct) (k : CapabilityID) (r : request) : Prop :=
  resolve s (Pcall r.1.1 zero_ecall) = TargetCap k.

End Model.

Arguments Ok {_ A} a w.
Arguments Fail {_ A} why w.

Notation "'let*' x ':=' m 'in' k" := (bind m (λ x, k))
  (at level 10, x pattern, m at level 100, k at level 200).
Notation "m '>>' k" := (bind m (λ _, k))
  (at level 100, k at level 200, right associativity).

(** ** A small instance, for examples

    A pointer is null, a capability pointer, one that does not decode, or a
    struct (a message and a pointer section); a transform is a path of
    pointer-section indices.  Copying call [n] gives call [1000 + n] and
    fails for [n >= 100]. *)
Module Demo.

Inductive leaf :=
| Null
| Cap (k : N)
| Bad (code : nat).

Inductive ptr :=
| Leaf (l : leaf)
| Str (m : MsgId) (ptrs : list leaf).

Fixpoint transform_ptr (p : ptr) (ops : list nat) : error + ptr :=
  match ops with
  | [] => inr p
  | op :: ops' =>
    match p with
    | Str _ ptrs =>
      match ptrs !! op with
      | Some (Bad code) => inl (ErrOther code)
      | Some l => transform_ptr (Leaf l) ops'
      | None => transform_ptr (Leaf Null) ops'
      end
    | Leaf _ => transform_ptr (Leaf Null) ops'
    end
  end.

Definition message_of (p : ptr) : MsgId :=
  match p with Str m _ => m | Leaf _ => 0 end.

Definition interface_of (p : ptr) : option N :=
  match p with Leaf (Cap k) => Some k | _ => None end.

Definition copy_call (n : nat) : error + nat :=
  if decide (n < 100) then inr (1000 + n) else inl (ErrOther n).

#[export] Instance capnp : Capnp := {|
  Struct := ptr;
  Ptr := ptr;
  Interface := option N;
  PipelineOp := nat;
  Call := nat;
  Struct_ToPtr := id;
  Struct_Message := message_of;
  TransformPtr := transform_ptr;
  Ptr_Interface := interface_of;
  Interface_IsValid := λ i, bool_decide (is_Some i);
  Interface_Capability := default 0%N;
  Call_Copy := copy_call;
|}.

#[export] Instance map_range : GoMapRange := {|
  range_order := λ V m, map_to_list m;
  range_order_perm := λ V m, reflexivity _;
|}.

(** The reverse enumeration is as good. *)
Definition map_range_rev : GoMapRange := {|
  range_order := λ V m, reverse (map_to_list m);
  range_order_perm := λ V m, reverse_Permutation _;
|}.

End Demo.


(** ** Worlds for the examples *)
Module Example.
Import Demo.

(** A message whose capability table holds two clients, and one
    Fulfiller, not yet used. *)
Definition start : World :=
  MkWorld [zero_Fulfiller] [] [] {[7 := [extClient 10; extClient 11]]} 0 [].

(** Calls 1 and 3 are pipelined on pointer 0 of the promised struct, call 2
    on pointer 1, call 4 on pointer 2, call 5 on pointer 3, and call 6 on
    the answer of call 1. *)
Definition pipelined : World :=
  world_of (run [AMethod 0 (MPipelineCall [0] 1);
                 AMethod 0 (MPipelineCall [1] 2);
                 AMethod 0 (MPipelineCall [0] 3);
                 AMethod 0 (MPipelineCall [2] 4);
                 AMethod 0 (MPipelineCall [3] 5);
                 AMethod 1 (MPipelineCall [0] 6)] start).

(** Pointer 0 is capability 1, pointer 1 capability 0, pointer 2 null,
    and pointer 3 does not decode. *)
Definition result : Struct := Str 7 [Cap 1; Cap 0; Null; Bad 5].

Definition fulfilled : World :=
  world_of (Fulfiller_Fulfill 0 result pipelined).

Definition rejected : World :=
  world_of (Fulfiller_Reject (Some 0) (Some (ErrOther 3)) pipelined).

(** The goroutine that flushes embargo client 0 has made the first queued
    call and has not yet popped it; the goroutine that waits for the call's
    answer has fulfilled the call's Fulfiller. *)
Definition in_flight : World :=
  world_of (run [AFlush 0; AFlush 0; ASettle 0 (inr (Str 7 []))] fulfilled).

Definition half_closed : World :=
  world_of (embargoClient_Close 0 in_flight).

(** The flushing goroutine has made the first queued call, and the
    goroutine that waits for the call's answer has not run yet. *)
Definition awaiting : World :=
  world_of (run [AFlush 0; AFlush 0] fulfilled).

(** A struct whose pointer 0 is capability 5, which the capability table
    of message 7 does not have. *)
Definition overflowing : Struct := Str 7 [Cap 5; Cap 0; Null; Bad 5].

(** Two requests, with the copies of their calls. *)
Definition requests2 : list request := [([0], 1, 1001); ([1], 2, 1002)].

(** Two requests on pointer 0 of the promised struct. *)
Definition requests13 : list request := [([0], 1, 1001); ([0], 3, 1003)].

(** A call into embargo client 0 between two steps of its goroutine. *)
Definition busy : list Action := [AFlush 0; ACall 0 4; AFlush 0].

(** The calls queued for capability 1, and the three calls of a smaller
    example. *)
Definition calls13 : list ecall :=
  [Ecall (Some 1001) (Some 1); Ecall (Some 1003) (Some 3)].

Definition calls123 : list ecall :=
  [Ecall (Some 1) None; Ecall (Some 2) None; Ecall (Some 3) None].

Definition pcall1 : pcall := Pcall [0] (Ecall (Some 1001) (Some 1)).
Definition pcall2 : pcall := Pcall [1] (Ecall (Some 1002) (Some 2)).
Definition pcall3 : pcall := Pcall [0] (Ecall (Some 1003) (Some 3)).
Definition pcall4 : pcall := Pcall [2] (Ecall (Some 1004) (Some 4)).
Definition pcall5 : pcall := Pcall [3] (Ecall (Some 1005) (Some 5)).

Definition queue0 : list pcall := [pcall1; pcall2; pcall3; pcall4; pcall5].

(** Call 6, pipelined on the answer of call 1. *)
Definition pcall6 : pcall := Pcall [0] (Ecall (Some 1006) (Some 6)).

End Example.
(** * Proofs *)

Section Proofs.
Context `{Capnp} `{GoMapRange}.

(** ** Running the monad *)

Lemma bind_Ok {A B} (m : M A) (k : A -> M B) w a w' :
  m w = Ok a w' -> bind m k w = k a w'.
Proof. unfold bind. by intros ->. Qed.

Lemma bind_Fail {A B} (m : M A) (k : A -> M B) w why w' :
  m w = Fail why w' -> bind m k w = Fail why w'.
Proof. unfold bind. by intros ->. Qed.

Lemma bind_Ok_inv {A B} (m : M A) (k : A -> M B) w b w2 :
  bind m k w = Ok b w2 -> ∃ a w1, m w = Ok a w1 ∧ k a w1 = Ok b w2.
Proof.
  unfold bind. destruct (m w) as [a w1|why w1]; [|done].
  intros Hk. by exists a, w1.
Qed.

Lemma load_Some w f st :
  fulfillers w !! f = Some st -> load f w = Ok st w.
Proof. unfold load. by intros ->. Qed.

Lemma load_Ok_inv w f st w' :
  load f w = Ok st w' -> w' = w ∧ fulfillers w !! f = Some st.
Proof.
  unfold load. destruct (fulfillers w !! f); [|done]. by intros [= -> ->].
Qed.

Lemma init_Some w f st :
  fulfillers w !! f = Some st ->
  Fulfiller_init f w = Ok tt (init_World f st w).
Proof.
  intros Hf. unfold Fulfiller_init, init_World, inited.
  rewrite (bind_Ok _ _ _ _ _ (load_Some _ _ _ Hf)).
  by destruct (f_once st).
Qed.

Lemma init_World_lookup w f st :
  fulfillers w !! f = Some st ->
  fulfillers (init_World f st w) !! f = Some (inited (chan_next w) st).
Proof.
  intros Hf. unfold init_World, inited. destruct (f_once st); [done|].
  simpl. apply list_lookup_insert_eq. by eapply lookup_lt_Some.
Qed.

Lemma inited_once c st : f_once (inited c st) = true.
Proof. unfold inited. by destruct (f_once st) eqn:E. Qed.

Lemma inited_answer c st : f_answer (inited c st) = f_answer st.
Proof. unfold inited. by destruct (f_once st). Qed.

Lemma init_World_once w f st : f_once st = true -> init_World f st w = w.
Proof. unfold init_World. by intros ->. Qed.


Lemma Peek_Some w f st :
  fulfillers w !! f = Some st ->
  Fulfiller_Peek f w = Ok (f_answer st) (init_World f st w).
Proof.
  intros Hf. unfold Fulfiller_Peek.
  rewrite (bind_Ok _ _ _ _ _ (init_Some _ _ _ Hf)).
  rewrite (bind_Ok _ _ _ _ _ (load_Some _ _ _ (init_World_lookup _ _ _ Hf))).
  by rewrite inited_answer.
Qed.

Lemma Done_Some w f st :
  fulfillers w !! f = Some st ->
  Fulfiller_Done f w =
    Ok (ch_id <$> f_resolved (inited (chan_next w) st)) (init_World f st w).
Proof.
  intros Hf. unfold Fulfiller_Done.
  rewrite (bind_Ok _ _ _ _ _ (init_Some _ _ _ Hf)).
  by rewrite (bind_Ok _ _ _ _ _ (load_Some _ _ _ (init_World_lookup _ _ _ Hf))).
Qed.

(** ** Resolving twice *)

Lemma Fulfill_resolved w f st a s :
  fulfillers w !! f = Some st -> f_answer st = Some a ->
  Fulfiller_Fulfill f s w =
    Fail (Panic "Fulfiller.Fulfill called more than once")
         (init_World f st w).
Proof.
  intros Hf Ha. unfold Fulfiller_Fulfill.
  rewrite (bind_Ok _ _ _ _ _ (init_Some _ _ _ Hf)).
  rewrite (bind_Ok _ _ _ _ _ (load_Some _ _ _ (init_World_lookup _ _ _ Hf))).
  by rewrite inited_answer, Ha.
Qed.

Lemma Reject_fuel_resolved fuel w f st a e :
  fulfillers w !! f = Some st -> f_answer st = Some a ->
  Reject_fuel (S fuel) (Some f) (Some e) w =
    Fail (Panic "Fulfiller.Reject called more than once")
         (init_World f st w).
Proof.
  intros Hf Ha. simpl. unfold deref.
  rewrite (bind_Ok _ _ _ f w
             (bind_Ok _ _ _ _ _ (load_Some _ _ _ Hf))).
  rewrite (bind_Ok _ _ _ _ _ (init_Some _ _ _ Hf)).
  rewrite (bind_Ok _ _ _ _ _ (load_Some _ _ _ (init_World_lookup _ _ _ Hf))).
  by rewrite inited_answer, Ha.
Qed.

Lemma Reject_nil fuel fp w :
  Reject_fuel fuel fp None w =
    Fail (Panic "Fulfiller.Reject called with nil") w.
Proof. by destruct fuel. Qed.

(** C3.  A Fulfiller that already holds an answer: [Fulfill] and [Reject]
    panic and the answer that [Peek] returns stays the one it was; nothing
    at all changes when the Fulfiller had been initialised, as every
    resolved Fulfiller has.  [Reject] with a nil error panics in any state
    and changes nothing. *)
Theorem second_resolution_panics (w : World) (f : FulfillerId)
    (st : Fulfiller) (a : Answer) :
  fulfillers w !! f = Some st -> f_answer st = Some a ->
  (∀ s, ∃ w',
      Fulfiller_Fulfill f s w =
        Fail (Panic "Fulfiller.Fulfill called more than once") w' ∧
      Fulfiller_Peek f w' = Ok (Some a) w' ∧
      (f_once st = true -> w' = w)) ∧
  (∀ e, ∃ w',
      Fulfiller_Reject (Some f) (Some e) w =
        Fail (Panic "Fulfiller.Reject called more than once") w' ∧
      Fulfiller_Peek f w' = Ok (Some a) w' ∧
      (f_once st = true -> w' = w)) ∧
  (∀ fp, Fulfiller_Reject fp None w =
           Fail (Panic "Fulfiller.Reject called with nil") w).
Proof.
  intros Hf Ha.
  assert (Hpeek : Fulfiller_Peek f (init_World f st w)
                  = Ok (Some a) (init_World f st w)).
  { rewrite (Peek_Some _ _ _ (init_World_lookup _ _ _ Hf)).
    rewrite inited_answer, Ha.
    by rewrite (init_World_once _ _ _ (inited_once _ _)). }
  split; [|split].
  - intros s. exists (init_World f st w).
    split; [by eapply Fulfill_resolved|].
    split; [done|apply init_World_once].
  - intros e. exists (init_World f st w).
    split; [by eapply Reject_fuel_resolved|].
    split; [done|apply init_World_once].
  - intros fp. apply Reject_nil.
Qed.

(** ** PipelineCall *)

Lemma Peek_inited w f st :
  fulfillers w !! f = Some st ->
  Fulfiller_Peek f (init_World f st w) = Ok (f_answer st) (init_World f st w).
Proof.
  intros Hf. rewrite (Peek_Some _ _ _ (init_World_lookup _ _ _ Hf)).
  by rewrite inited_answer, (init_World_once _ _ _ (inited_once _ _)).
Qed.

Lemma init_inited w f st :
  fulfillers w !! f = Some st ->
  Fulfiller_init f (init_World f st w) = Ok tt (init_World f st w).
Proof.
  intros Hf. rewrite (init_Some _ _ _ (init_World_lookup _ _ _ Hf)).
  by rewrite (init_World_once _ _ _ (inited_once _ _)).
Qed.

Lemma PipelineCall_locked_eq w f st tr cl :
  fulfillers w !! f = Some st ->
  PipelineCall_locked f tr cl w =
    match f_answer st with
    | Some a => Ok (PipelineAnswer a tr cl) (emit (EvPipelineCall a tr cl) w)
    | None =>
      if decide (length (f_queue st) = f_cap st) then
        Ok (ErrorAnswer errCallQueueFull) w
      else
        match Call_Copy cl with
        | inl err => Ok (ErrorAnswer err) w
        | inr cc =>
          Ok (FulfillerAnswer (length (fulfillers w))) (enqueued f tr cc w)
        end
    end.
Proof.
  intros Hf. unfold PipelineCall_locked.
  rewrite (bind_Ok _ _ _ _ _ (load_Some _ _ _ Hf)).
  destruct (f_answer st) as [a|] eqn:Ha; [done|].
  case_decide; [done|].
  destruct (Call_Copy cl) as [err|cc]; [done|].
  unfold bind at 1. simpl.
  assert (Hf' : fulfillers
                  (set_fulfillers (λ h, h ++ [zero_Fulfiller]) w) !! f
                = Some st).
  { simpl. by apply lookup_app_l_Some. }
  rewrite (bind_Ok _ _ _ _ _ (load_Some _ _ _ Hf')).
  unfold bind, store, modify, ret, enqueued, set_fulfillers, with_queue.
  simpl. by rewrite Hf, Ha.
Qed.

Lemma PipelineCall_eq w f st tr cl :
  fulfillers w !! f = Some st ->
  Fulfiller_PipelineCall f tr cl w =
    PipelineCall_locked f tr cl (init_World f st w).
Proof.
  intros Hf. unfold Fulfiller_PipelineCall.
  rewrite (bind_Ok _ _ _ _ _ (init_Some _ _ _ Hf)).
  rewrite (bind_Ok _ _ _ _ _ (Peek_inited _ _ _ Hf)).
  destruct (f_answer st) as [a|] eqn:Ha; [|done].
  rewrite (PipelineCall_locked_eq _ _ _ _ _ (init_World_lookup _ _ _ Hf)).
  by rewrite inited_answer, Ha.
Qed.

(** C4, as amended.  [PipelineCall] initialises [f] and then: delegates to
    the answer when [f] is resolved, also when that is found out only with
    the lock held; else answers the queue-full error when the queue holds
    [callQueueSize] = 64 calls; else copies the call and, when the copy
    fails, answers the copy's error with nothing queued; else queues the
    transform, the copy and a new child Fulfiller at the tail and answers
    the child.  Of the state only this is asked: an initialised Fulfiller
    that is not resolved has the queue capacity that [init] gave it; a
    resolved one may have been fulfilled or rejected. *)
Theorem PipelineCall_cases (w : World) (f : FulfillerId) (st : Fulfiller)
    (tr : list PipelineOp) (cl : Call) :
  fulfillers w !! f = Some st ->
  (f_once st = true -> f_answer st = None -> f_cap st = callQueueSize) ->
  let w1 := init_World f st w in
  let st1 := inited (chan_next w) st in
  fulfillers w1 !! f = Some st1 ∧
  callQueueSize = 64 ∧
  (∀ a, f_answer st = Some a ->
     Fulfiller_PipelineCall f tr cl w =
       Ok (PipelineAnswer a tr cl) (emit (EvPipelineCall a tr cl) w1) ∧
     PipelineCall_locked f tr cl w1 =
       Ok (PipelineAnswer a tr cl) (emit (EvPipelineCall a tr cl) w1)) ∧
  (f_answer st = None ->
     (length (f_queue st1) = 64 ->
        Fulfiller_PipelineCall f tr cl w =
          Ok (ErrorAnswer errCallQueueFull) w1) ∧
     (length (f_queue st1) ≠ 64 ->
        ∀ err, Call_Copy cl = inl err ->
          Fulfiller_PipelineCall f tr cl w = Ok (ErrorAnswer err) w1) ∧
     (length (f_queue st1) ≠ 64 ->
        ∀ cc, Call_Copy cl = inr cc ->
          let g := length (fulfillers w) in
          let w2 := enqueued f tr cc w1 in
          Fulfiller_PipelineCall f tr cl w = Ok (FulfillerAnswer g) w2 ∧
          fulfillers w2 !! g = Some zero_Fulfiller ∧
          fulfillers w2 !! f =
            Some (with_queue
                    (f_queue st1 ++ [Pcall tr (Ecall (Some cc) (Some g))])
                    st1))).
Proof.
  intros Hf Hcap w1 st1.
  assert (Hf1 : fulfillers w1 !! f = Some st1)
    by by apply init_World_lookup.
  assert (Hlen : length (fulfillers w1) = length (fulfillers w)).
  { unfold w1, init_World. destruct (f_once st); [done|].
    simpl. by rewrite length_insert. }
  pose proof (PipelineCall_eq _ _ _ tr cl Hf) as Heq.
  pose proof (PipelineCall_locked_eq _ _ _ tr cl Hf1) as Hl.
  fold w1 in Heq. unfold st1 in Hl. rewrite inited_answer in Hl.
  fold st1 in Hl.
  split; [done|]. split; [done|]. split.
  - intros a Ha. rewrite Heq, Hl, Ha. done.
  - intros Ha.
    assert (Hcap1 : f_cap st1 = 64).
    { unfold st1, inited. destruct (f_once st); [by apply Hcap|done]. }
    rewrite Ha, Hcap1 in Hl. split; [|split].
    + intros Hfull. rewrite Heq, Hl. by rewrite decide_True.
    + intros Hnf err Hc. rewrite Heq, Hl. by rewrite decide_False, Hc.
    + intros Hnf cc Hc g w2. rewrite Heq, Hl.
      rewrite decide_False, Hc by done. rewrite Hlen.
      split; [done|].
      assert (Hlt : f < length (fulfillers w1)) by by eapply lookup_lt_Some.
      unfold w2, enqueued. simpl. rewrite Hf1, Hlen. fold g. split.
      * rewrite list_lookup_insert_ne by (unfold g; lia).
        unfold g. rewrite <- Hlen. by rewrite lookup_app_r, Nat.sub_diag.
      * apply list_lookup_insert_eq. rewrite length_app. lia.
Qed.

(** ** The circular buffer is a bounded FIFO queue *)

Lemma mod_inj_near (c a b : nat) :
  a ≤ b -> b < a + c -> a mod c = b mod c -> a = b.
Proof.
  intros Hab Hbc Hm.
  destruct (decide (c = 0)) as [->|Hc]; [lia|].
  pose proof (Nat.div_mod_eq a c) as Ha.
  pose proof (Nat.div_mod_eq b c) as Hb.
  rewrite Hm in Ha.
  generalize dependent (a `div` c). generalize dependent (b `div` c).
  generalize dependent (b `mod` c). intros r _ qb Hb qa Ha.
  assert (qa = qb) by nia. by subst.
Qed.

Lemma Queue_contents_length q : length (Queue_contents q) = q_n q.
Proof. unfold Queue_contents. by rewrite length_fmap, length_seq. Qed.

Lemma Queue_Len_contents q : Queue_Len q = length (Queue_contents q).
Proof. by rewrite Queue_contents_length. Qed.

Lemma Queue_contents_lookup q i :
  i < q_n q ->
  Queue_contents q !! i =
    Some (default zero_ecall (q_q q !! ((q_start q + i) mod q_cap q))).
Proof.
  intros Hi. unfold Queue_contents. rewrite list_lookup_fmap.
  by rewrite (lookup_seq_lt _ _ _ Hi).
Qed.

Lemma Queue_contents_nil q : q_n q = 0 -> Queue_contents q = [].
Proof. unfold Queue_contents. by intros ->. Qed.

Lemma Queue_Init_spec (r : list ecall) (n : nat) :
  n ≤ length r -> 0 < length r ->
  Queue_wf (Queue_Init r n) ∧ Queue_contents (Queue_Init r n) = take n r.
Proof.
  intros Hn Hr. split.
  { unfold Queue_wf, Queue_Init, ecallList_Len. simpl. lia. }
  apply list_eq. intros i.
  destruct (decide (i < n)) as [Hi|Hi].
  - rewrite Queue_contents_lookup by done. simpl.
    unfold ecallList_Len. rewrite Nat.mod_small by lia.
    rewrite lookup_take_lt by done.
    destruct (lookup_lt_is_Some_2 r i) as [x Hx]; [lia|]. by rewrite Hx.
  - rewrite lookup_ge_None_2.
    + by rewrite lookup_take_ge by lia.
    + rewrite Queue_contents_length. simpl. lia.
Qed.

Lemma Queue_Push_full q x :
  Queue_wf q -> q_n q = q_cap q -> Queue_Push q x = Some (q, false).
Proof.
  intros _ Hn. unfold Queue_Push. rewrite decide_True by lia. done.
Qed.

Lemma Queue_Push_room q c :
  Queue_wf q -> q_n q ≠ q_cap q ->
  ∃ q', Queue_Push q (Some c) = Some (q', true) ∧ Queue_wf q' ∧
        q_cap q' = q_cap q ∧
        Queue_contents q' = Queue_contents q ++ [c].
Proof.
  intros (Hcap & Hn & Hs) Hne. unfold Queue_Push.
  rewrite decide_False by lia. unfold ecallList_Set.
  assert (Hi : (q_start q + q_n q) mod q_cap q < length (q_q q)).
  { rewrite <- Hcap. apply Nat.mod_upper_bound. lia. }
  rewrite decide_True by done.
  eexists. split; [done|]. split; [|split; [done|]].
  { unfold Queue_wf. simpl. rewrite length_insert. lia. }
  apply list_eq. intros i.
  destruct (decide (i < q_n q)) as [Hlt|Hge].
  - rewrite lookup_app_l by (rewrite Queue_contents_length; lia).
    rewrite !Queue_contents_lookup by (simpl; lia). simpl.
    rewrite list_lookup_insert_ne; [done|].
    intros Heq. symmetry in Heq. apply mod_inj_near in Heq; lia.
  - destruct (decide (i = q_n q)) as [->|Hne'].
    + rewrite lookup_app_r by (rewrite Queue_contents_length; lia).
      rewrite Queue_contents_length, Nat.sub_diag.
      rewrite Queue_contents_lookup by (simpl; lia). simpl.
      by rewrite list_lookup_insert_eq.
    + rewrite !lookup_ge_None_2; [done| |].
      * rewrite length_app, Queue_contents_length. simpl. lia.
      * rewrite Queue_contents_length. simpl. lia.
Qed.

Lemma Queue_Pop_spec q c l :
  Queue_wf q -> Queue_contents q = c :: l ->
  ∃ q', Queue_Peek q = Some c ∧ Queue_Pop q = Some (q', c) ∧
        Queue_wf q' ∧ q_cap q' = q_cap q ∧ q_n q' = q_n q - 1 ∧
        Queue_contents q' = l.
Proof.
  intros (Hcap & Hn & Hs) Hc.
  assert (Hlen : q_n q = S (length l)).
  { by rewrite <- Queue_contents_length, Hc. }
  assert (Hpeek : Queue_Peek q = Some c).
  { unfold Queue_Peek, ecallList_At. rewrite decide_False by lia.
    assert (Hh : Queue_contents q !! 0 = Some c) by by rewrite Hc.
    rewrite Queue_contents_lookup in Hh by lia.
    rewrite Nat.add_0_r, Nat.mod_small in Hh by lia.
    destruct (lookup_lt_is_Some_2 (q_q q) (q_start q)) as [x Hx]; [lia|].
    rewrite Hx in Hh |- *. simpl in Hh. congruence. }
  unfold Queue_Pop. rewrite Hpeek. unfold ecallList_Set.
  rewrite decide_True by lia.
  eexists. split; [done|]. split; [done|].
  split; [|split; [done|split; [done|]]].
  { unfold Queue_wf. simpl. rewrite length_insert.
    split; [done|]. split; [lia|]. apply Nat.mod_upper_bound. lia. }
  apply list_eq. intros i.
  destruct (decide (i < length l)) as [Hlt|Hge].
  - rewrite Queue_contents_lookup by (simpl; lia). simpl.
    rewrite Nat.Div0.add_mod_idemp_l.
    assert (Hh : Queue_contents q !! S i = l !! i) by by rewrite Hc.
    rewrite Queue_contents_lookup in Hh by lia. rewrite <- Hh.
    replace (q_start q + 1 + i) with (q_start q + S i) by lia.
    rewrite list_lookup_insert_ne; [done|].
    intros Heq. rewrite <- (Nat.mod_small (q_start q) (q_cap q)) in Heq at 1
      by lia.
    apply mod_inj_near in Heq; lia.
  - rewrite !lookup_ge_None_2; [done|lia|].
    rewrite Queue_contents_length. simpl. lia.
Qed.

(** ** The embargo client: Call and push *)

Lemma newEmbargoClient_eq c queue w :
  newEmbargoClient c queue w =
    Ok (embargoRef (length (embargoes w)))
       (set_embargoes (λ l, l ++ [(MkEmbargo c (new_queue queue), FlushStart)])
                      w).
Proof. done. Qed.

Lemma new_queue_spec queue :
  Queue_wf (new_queue queue) ∧ q_cap (new_queue queue) = callQueueSize ∧
  Queue_contents (new_queue queue) = take callQueueSize queue.
Proof.
  unfold new_queue. rewrite length_replicate.
  set (n := callQueueSize `min` length queue).
  assert (Hlen : length (take n queue ++ drop n (replicate callQueueSize zero_ecall))
                 = callQueueSize).
  { rewrite length_app, length_take, length_drop, length_replicate.
    unfold n. lia. }
  destruct (Queue_Init_spec
              (take n queue ++ drop n (replicate callQueueSize zero_ecall)) n)
    as [Hwf Hc].
  { rewrite Hlen. unfold n. lia. }
  { rewrite Hlen. unfold callQueueSize. lia. }
  split; [done|]. split; [done|].
  rewrite Hc. rewrite take_app_le by (rewrite length_take; unfold n; lia).
  rewrite take_take. unfold n.
  destruct (decide (callQueueSize ≤ length queue)).
  - by rewrite !Nat.min_l by lia.
  - rewrite !Nat.min_r by lia. by rewrite !take_ge by lia.
Qed.

Lemma new_queue_contents queue :
  length queue ≤ callQueueSize ->
  Queue_contents (new_queue queue) = queue.
Proof.
  intros Hl. destruct (new_queue_spec queue) as (_ & _ & ->).
  by apply take_ge.
Qed.

Lemma load_ec_Some w ec c :
  embargoes w !! ec = Some c -> load_ec ec w = Ok c.1 w.
Proof. unfold load_ec. by intros ->. Qed.

Lemma load_pc_Some w ec c :
  embargoes w !! ec = Some c -> load_pc ec w = Ok c.2 w.
Proof. unfold load_pc. by intros ->. Qed.

Lemma isPassthrough_Some w ec c :
  embargoes w !! ec = Some c ->
  embargoClient_isPassthrough ec w
  = Ok (bool_decide (q_n (ec_q c.1) = 0)) w.
Proof.
  intros He. unfold embargoClient_isPassthrough.
  by rewrite (bind_Ok _ _ _ _ _ (load_ec_Some _ _ _ He)).
Qed.

Lemma WrappedClient_Some w ec c :
  embargoes w !! ec = Some c ->
  embargoClient_WrappedClient ec w
  = Ok (if decide (q_n (ec_q c.1) = 0) then Some (ec_client c.1) else None) w.
Proof.
  intros He. unfold embargoClient_WrappedClient.
  rewrite (bind_Ok _ _ _ _ _ (isPassthrough_Some _ _ _ He)).
  case_decide as Hn.
  - rewrite bool_decide_true by done. simpl.
    by rewrite (bind_Ok _ _ _ _ _ (load_ec_Some _ _ _ He)).
  - by rewrite bool_decide_false by done.
Qed.

(** The store after a queued call: the queue of [ec] replaced. *)
Lemma store_q_Some w ec e pc q :
  embargoes w !! ec = Some (e, pc) ->
  store_q ec q w
  = Ok tt (set_embargoes (λ l, <[ec := (MkEmbargo (ec_client e) q, pc)]> l) w).
Proof.
  intros He. unfold store_q, modify, set_embargoes. by rewrite He.
Qed.

Lemma store_q_same w ec e pc :
  embargoes w !! ec = Some (e, pc) ->
  store_q ec (ec_q e) w = Ok tt w.
Proof.
  intros He. rewrite (store_q_Some _ _ _ _ _ He).
  unfold set_embargoes. destruct e as [c q]. simpl.
  rewrite list_insert_id by done. by destruct w.
Qed.

Lemma Call_passthrough w ec e pc cl :
  embargoes w !! ec = Some (e, pc) -> q_n (ec_q e) = 0 ->
  embargoClient_Call ec cl w
  = Ok (CallAnswer (ec_client e) cl) (emit (EvCall ec (ec_client e) cl) w).
Proof.
  intros He Hn. unfold embargoClient_Call.
  rewrite (bind_Ok _ _ _ _ _ (isPassthrough_Some _ _ _ He)). simpl.
  rewrite bool_decide_true by done.
  by rewrite (bind_Ok _ _ _ _ _ (load_ec_Some _ _ _ He)).
Qed.

Lemma Call_not_passthrough w ec e pc cl :
  embargoes w !! ec = Some (e, pc) -> q_n (ec_q e) ≠ 0 ->
  embargoClient_Call ec cl w = embargoClient_push ec cl w.
Proof.
  intros He Hn. unfold embargoClient_Call.
  rewrite (bind_Ok _ _ _ _ _ (isPassthrough_Some _ _ _ He)). simpl.
  rewrite bool_decide_false by done.
  rewrite (bind_Ok _ _ _ _ _ (isPassthrough_Some _ _ _ He)). simpl.
  by rewrite bool_decide_false by done.
Qed.

Lemma push_copy_fails w ec cl err :
  Call_Copy cl = inl err ->
  embargoClient_push ec cl w = Ok (ErrorAnswer err) (alloc_Fulfiller w).
Proof.
  intros Hc. unfold embargoClient_push, bind, new_Fulfiller. by rewrite Hc.
Qed.

Lemma push_full w ec e pc cl cl' :
  embargoes w !! ec = Some (e, pc) -> Queue_wf (ec_q e) ->
  Call_Copy cl = inr cl' -> q_n (ec_q e) = q_cap (ec_q e) ->
  embargoClient_push ec cl w
  = Ok (ErrorAnswer errCallQueueFull) (alloc_Fulfiller w).
Proof.
  intros He Hwf Hc Hfull. unfold embargoClient_push.
  unfold bind at 1. unfold new_Fulfiller. rewrite Hc.
  fold (alloc_Fulfiller w).
  assert (He' : embargoes (alloc_Fulfiller w) !! ec = Some (e, pc)) by done.
  rewrite (bind_Ok _ _ _ _ _ (load_ec_Some _ _ _ He')). simpl.
  rewrite (Queue_Push_full _ _ Hwf Hfull).
  by rewrite (bind_Ok _ _ _ _ _ (store_q_same _ _ _ _ He')).
Qed.

Lemma push_room w ec e pc cl cl' :
  embargoes w !! ec = Some (e, pc) -> Queue_wf (ec_q e) ->
  Call_Copy cl = inr cl' -> q_n (ec_q e) ≠ q_cap (ec_q e) ->
  ∃ q',
    embargoClient_push ec cl w
    = Ok (FulfillerAnswer (length (fulfillers w)))
         (set_embargoes
            (λ l, <[ec := (MkEmbargo (ec_client e) q', pc)]> l)
            (alloc_Fulfiller w)) ∧
    Queue_wf q' ∧ q_cap q' = q_cap (ec_q e) ∧
    Queue_contents q' =
      Queue_contents (ec_q e)
      ++ [Ecall (Some cl') (Some (length (fulfillers w)))].
Proof.
  intros He Hwf Hc Hroom.
  destruct (Queue_Push_room (ec_q e)
              (Ecall (Some cl') (Some (length (fulfillers w)))) Hwf Hroom)
    as (q' & Hpush & Hwf' & Hcap' & Hcont).
  exists q'. split; [|done].
  unfold embargoClient_push.
  unfold bind at 1. unfold new_Fulfiller. rewrite Hc.
  fold (alloc_Fulfiller w).
  assert (He' : embargoes (alloc_Fulfiller w) !! ec = Some (e, pc)) by done.
  rewrite (bind_Ok _ _ _ _ _ (load_ec_Some _ _ _ He')). simpl.
  rewrite Hpush.
  by rewrite (bind_Ok _ _ _ _ _ (store_q_Some _ _ _ _ _ He')).
Qed.

(** C8, as amended.  With an empty queue [Call] hands the call to the
    wrapped client.  Otherwise it copies the call first: when the copy
    fails it answers the copy's error, whether or not the queue is full;
    when the queue holds [callQueueSize] calls it answers the queue-full
    error; else it puts the copy and a new Fulfiller at the tail of the
    queue and answers that Fulfiller.  Nothing is queued in the first
    three cases. *)
Theorem embargo_Call_cases (w : World) (ec : EmbargoId) (e : embargoClient)
    (pc : flushPC) (cl : Call) :
  embargoes w !! ec = Some (e, pc) -> embargo_ok e ->
  let g := length (fulfillers w) in
  (Queue_contents (ec_q e) = [] ->
     embargoClient_Call ec cl w
     = Ok (CallAnswer (ec_client e) cl)
          (emit (EvCall ec (ec_client e) cl) w)) ∧
  (Queue_contents (ec_q e) ≠ [] ->
     (∀ err, Call_Copy cl = inl err ->
        embargoClient_Call ec cl w
        = Ok (ErrorAnswer err) (alloc_Fulfiller w)) ∧
     (∀ cl', Call_Copy cl = inr cl' ->
        (length (Queue_contents (ec_q e)) = callQueueSize ->
           embargoClient_Call ec cl w
           = Ok (ErrorAnswer errCallQueueFull) (alloc_Fulfiller w)) ∧
        (length (Queue_contents (ec_q e)) ≠ callQueueSize ->
           ∃ q',
             embargoClient_Call ec cl w
             = Ok (FulfillerAnswer g)
                  (set_embargoes
                     (λ l, <[ec := (MkEmbargo (ec_client e) q', pc)]> l)
                     (alloc_Fulfiller w)) ∧
             embargo_ok (MkEmbargo (ec_client e) q') ∧
             Queue_contents q' =
               Queue_contents (ec_q e) ++ [Ecall (Some cl') (Some g)]))).
Proof.
  intros He [Hwf Hcap] g. split.
  - intros Hnil. apply (Call_passthrough _ _ _ pc); [done|].
    by rewrite <- Queue_contents_length, Hnil.
  - intros Hne.
    assert (Hn : q_n (ec_q e) ≠ 0).
    { intros Hn. by apply Hne, Queue_contents_nil. }
    rewrite (Call_not_passthrough _ _ _ _ _ He Hn).
    split; [intros err Hc; by apply push_copy_fails|].
    intros cl' Hc. rewrite Queue_contents_length, <- Hcap. split.
    + intros Hfull. by eapply push_full.
    + intros Hroom.
      destruct (push_room _ _ _ _ _ _ He Hwf Hc Hroom)
        as (q' & Hpush & Hwf' & Hcap' & Hcont).
      exists q'. split; [done|]. split; [|done].
      split; [done|]. simpl. congruence.
Qed.


(** ** Reject on a tree of pending Fulfillers *)

Lemma upd_lookup_eq w f st :
  f < length (fulfillers w) -> fulfillers (upd f st w) !! f = Some st.
Proof. intros Hf. simpl. by apply list_lookup_insert_eq. Qed.

Lemma upd_lookup_ne w f st x :
  x ≠ f -> fulfillers (upd f st w) !! x = fulfillers w !! x.
Proof. intros Hx. simpl. by apply list_lookup_insert_ne. Qed.

Lemma upd_length w f st :
  length (fulfillers (upd f st w)) = length (fulfillers w).
Proof. simpl. by rewrite length_insert. Qed.

Lemma set_answer_Some w f st a :
  fulfillers w !! f = Some st ->
  set_answer f a w = Ok tt (upd f (with_answer a st) w).
Proof.
  intros Hf. unfold set_answer.
  by rewrite (bind_Ok _ _ _ _ _ (load_Some _ _ _ Hf)).
Qed.

Lemma queue_at_Some w f st i pc :
  fulfillers w !! f = Some st -> f_queue st !! i = Some pc ->
  queue_at f i w = Ok pc w.
Proof.
  intros Hf Hi. unfold queue_at.
  rewrite (bind_Ok _ _ _ _ _ (load_Some _ _ _ Hf)). by rewrite Hi.
Qed.

Lemma set_queue_at_Some w f st i x :
  fulfillers w !! f = Some st -> i < length (f_queue st) ->
  set_queue_at f i x w = Ok tt (upd f (with_queue (<[i := x]> (f_queue st)) st) w).
Proof.
  intros Hf Hi. unfold set_queue_at.
  rewrite (bind_Ok _ _ _ _ _ (load_Some _ _ _ Hf)).
  by rewrite decide_True.
Qed.

Lemma close_resolved_Some w f st c :
  fulfillers w !! f = Some st -> f_resolved st = Some (MkChan c false) ->
  close_resolved f w = Ok tt (upd f (with_closed c st) w).
Proof.
  intros Hf Hc. unfold close_resolved.
  rewrite (bind_Ok _ _ _ _ _ (load_Some _ _ _ Hf)). by rewrite Hc.
Qed.

Lemma init_World_length w f st :
  length (fulfillers (init_World f st w)) = length (fulfillers w).
Proof.
  unfold init_World. destruct (f_once st); [done|].
  simpl. by rewrite length_insert.
Qed.

Lemma init_World_lookup_ne w f st x :
  x ≠ f -> fulfillers (init_World f st w) !! x = fulfillers w !! x.
Proof.
  intros Hx. unfold init_World. destruct (f_once st); [done|].
  simpl. by apply list_lookup_insert_ne.
Qed.

Lemma init_World_same_rest w f st : same_rest w (init_World f st w).
Proof. unfold init_World, same_rest. by destruct (f_once st). Qed.

Lemma same_rest_refl w : same_rest w w.
Proof. by unfold same_rest. Qed.

Lemma same_rest_trans w1 w2 w3 :
  same_rest w1 w2 -> same_rest w2 w3 -> same_rest w1 w3.
Proof. unfold same_rest. intros (?&?&?&?) (?&?&?&?). repeat split; congruence. Qed.

Lemma upd_same_rest w f st : same_rest w (upd f st w).
Proof. by unfold same_rest. Qed.

(** What [pending] says of the Fulfiller that [init] leaves. *)
Lemma pending_inited c st :
  pending st = true ->
  f_answer (inited c st) = None ∧ f_queue (inited c st) = f_queue st ∧
  f_once (inited c st) = true ∧ f_cap (inited c st) = callQueueSize ∧
  length (f_queue st) ≤ callQueueSize ∧
  ∃ c', f_resolved (inited c st) = Some (MkChan c' false) ∧
        (f_once st = true -> f_resolved st = Some (MkChan c' false)).
Proof.
  unfold pending, inited.
  destruct (f_answer st) eqn:Ha; [done|].
  destruct (f_once st) eqn:Ho.
  - destruct (f_resolved st) as [[c' b]|] eqn:Hr; [|done].
    rewrite !andb_true_iff, negb_true_iff, !bool_decide_eq_true. simpl.
    intros [[-> Hcap] Hlen].
    repeat split; try done; try lia. by exists c'.
  - destruct (f_queue st) eqn:Hq; [|done]. intros _. simpl.
    repeat split; try done; try lia. by exists c.
Qed.

Lemma footprint_S n h f fl :
  footprint (S n) h (Some f) = Some fl ->
  ∃ st fps, h !! f = Some st ∧ pending st = true ∧
            Forall2 (λ pc fli, footprint n h (e_f (pc_ecall pc)) = Some fli)
                    (f_queue st) fps ∧
            fl = f :: concat fps.
Proof.
  simpl. destruct (h !! f) as [st|]; [|done].
  destruct (pending st) eqn:Hp; [|done].
  destruct (mapM _ (f_queue st)) as [fps|] eqn:Hm; [|done].
  intros [= <-]. exists st, fps. by rewrite <- mapM_Some.
Qed.

Lemma footprint_S_intro n h f st fps :
  h !! f = Some st -> pending st = true ->
  Forall2 (λ pc fli, footprint n h (e_f (pc_ecall pc)) = Some fli)
          (f_queue st) fps ->
  footprint (S n) h (Some f) = Some (f :: concat fps).
Proof.
  intros Hf Hp Hall. simpl. rewrite Hf, Hp.
  apply mapM_Some in Hall. by rewrite Hall.
Qed.

Lemma footprint_Some_ptr n h fp fl :
  footprint n h fp = Some fl -> ∃ f, fp = Some f ∧ f ∈ fl.
Proof.
  destruct n; [done|]. destruct fp as [f|]; [|done].
  intros Hfp. apply footprint_S in Hfp as (st & fps & _ & _ & _ & ->).
  exists f. split; [done|]. apply list_elem_of_here.
Qed.

(** The footprint only reads the Fulfillers it lists. *)
Lemma footprint_agree n : ∀ h h' fp fl,
  footprint n h fp = Some fl ->
  (∀ x, x ∈ fl -> h' !! x = h !! x) ->
  footprint n h' fp = Some fl.
Proof.
  induction n as [|n IH]; [done|].
  intros h h' [f|] fl Hfp Hag; [|done].
  apply footprint_S in Hfp as (st & fps & Hf & Hp & Hall & ->).
  apply (footprint_S_intro _ _ _ st); [|done|].
  { rewrite Hag; [done|]. apply list_elem_of_here. }
  assert (Hsub : ∀ x, x ∈ concat fps -> h' !! x = h !! x).
  { intros x Hx. apply Hag. by apply list_elem_of_further. }
  clear Hag Hf Hp. induction Hall as [|pc fli Q fps' Hpc Hall IHall].
  - constructor.
  - constructor.
    + apply (IH h); [done|]. intros x Hx. apply Hsub. simpl.
      apply elem_of_app. by left.
    + apply IHall. intros x Hx. apply Hsub. simpl.
      apply elem_of_app. by right.
Qed.

Lemma footprint_mono n : ∀ m h fp fl,
  n ≤ m -> footprint n h fp = Some fl -> footprint m h fp = Some fl.
Proof.
  induction n as [|n IH]; [done|].
  intros [|m] h [f|] fl Hle Hfp; [lia|done| |done].
  apply footprint_S in Hfp as (st & fps & Hf & Hp & Hall & ->).
  apply (footprint_S_intro _ _ _ st); [done..|].
  eapply Forall2_impl; [done|]. intros pc fli Hpc. simpl in Hpc.
  apply (IH m); [lia|done].
Qed.

(** The parts of a duplicate-free concatenation are disjoint. *)
Lemma concat_take_disjoint (fps : list (list nat)) i fli x :
  NoDup (concat fps) -> fps !! i = Some fli ->
  x ∈ fli -> x ∉ concat (take i fps).
Proof.
  intros Hnd Hi Hx.
  rewrite <- (take_drop_middle _ _ _ Hi), concat_app in Hnd.
  simpl in Hnd. apply NoDup_app in Hnd as (_ & Hdis & _).
  intros Hin. apply (Hdis x Hin). apply elem_of_app. by left.
Qed.

Lemma concat_lookup_NoDup (fps : list (list nat)) i fli :
  NoDup (concat fps) -> fps !! i = Some fli -> NoDup fli.
Proof.
  intros Hnd Hi.
  rewrite <- (take_drop_middle _ _ _ Hi), concat_app in Hnd.
  simpl in Hnd. apply NoDup_app in Hnd as (_ & _ & Hnd).
  by apply NoDup_app in Hnd as (Hnd & _ & _).
Qed.

Lemma concat_lookup_elem_of (fps : list (list nat)) i fli x :
  fps !! i = Some fli -> x ∈ fli -> x ∈ concat fps.
Proof.
  intros Hi Hx. apply list_elem_of_In, in_concat. exists fli.
  split; apply list_elem_of_In; [|done]. by eapply list_elem_of_lookup_2.
Qed.

Lemma concat_take_elem_of (fps : list (list nat)) i x :
  x ∈ concat (take i fps) -> x ∈ concat fps.
Proof.
  intros Hx. rewrite <- (take_drop i fps), concat_app.
  apply elem_of_app. by left.
Qed.

Lemma concat_take_S (fps : list (list nat)) i fli :
  fps !! i = Some fli ->
  concat (take (S i) fps) = concat (take i fps) ++ fli.
Proof.
  intros Hi. rewrite (take_S_r _ _ _ Hi), concat_app. simpl.
  by rewrite app_nil_r.
Qed.

Lemma insert_zeroed {A} (z : A) (Q : list A) i :
  i < length Q ->
  <[i := z]> (replicate i z ++ drop i Q) = replicate (S i) z ++ drop (S i) Q.
Proof.
  intros Hi. rewrite insert_app_r_alt by (rewrite length_replicate; lia).
  rewrite length_replicate, Nat.sub_diag.
  destruct (lookup_lt_is_Some_2 Q i Hi) as [y Hy].
  rewrite replicate_S_end, <- app_assoc. f_equal.
  by rewrite (drop_S _ _ _ Hy).
Qed.

Lemma lookup_zeroed {A} (z : A) (Q : list A) i :
  (replicate i z ++ drop i Q) !! i = Q !! i.
Proof.
  rewrite lookup_app_r by (rewrite length_replicate; lia).
  rewrite length_replicate, Nat.sub_diag, lookup_drop. f_equal. lia.
Qed.

Lemma for_each_cons {A} (x : A) l (body : A -> M unit) :
  for_each (x :: l) body = (body x >> for_each l body).
Proof. done. Qed.

Lemma Reject_fuel_S fuel fp e :
  Reject_fuel (S fuel) fp (Some e) =
    (let* f := deref fp in
     Fulfiller_init f >>
     let* st := load f in
     match f_answer st with
     | Some _ => panic "Fulfiller.Reject called more than once"
     | None =>
       set_answer f (ErrorAnswer e) >>
       for_each (seq 0 (length (f_queue st)))
         (λ i, let* pc := queue_at f i in
               Reject_fuel fuel (e_f (pc_ecall pc)) (Some e) >>
               set_queue_at f i zero_pcall) >>
       close_resolved f
     end).
Proof. done. Qed.

Lemma deref_Some w f st :
  fulfillers w !! f = Some st -> deref (Some f) w = Ok f w.
Proof.
  intros Hf. unfold deref. by rewrite (bind_Ok _ _ _ _ _ (load_Some _ _ _ Hf)).
Qed.

(** Rejecting the root of a tree of pending Fulfillers rejects the whole
    tree with the same error, and touches nothing else. *)
Lemma Reject_tree n : ∀ fuel g fl e w,
  n ≤ fuel ->
  footprint n (fulfillers w) (Some g) = Some fl -> NoDup fl ->
  ∃ w', Reject_fuel fuel (Some g) (Some e) w = Ok tt w' ∧
        rejected_in e fl w w'.
Proof.
  induction n as [|n IH]; [done|].
  intros [|fuel] g fl e w Hle Hfp Hnd; [lia|].
  apply footprint_S in Hfp as (st & fps & Hg & Hp & Hall & ->).
  apply NoDup_cons in Hnd as [Hgfps Hnd].
  destruct (pending_inited (chan_next w) st Hp)
    as (Ha1 & Hq1 & Ho1 & _ & _ & c & Hr1 & _).
  set (w1 := init_World g st w).
  set (st1 := inited (chan_next w) st) in *.
  assert (Hg1 : fulfillers w1 !! g = Some st1) by by apply init_World_lookup.
  set (st2 := with_answer (ErrorAnswer e) st1).
  set (w2 := upd g st2 w1).
  set (Q := f_queue st) in *.
  assert (Hglt : g < length (fulfillers w)) by by eapply lookup_lt_Some.
  set (body := λ i, let* pc := queue_at g i in
                    Reject_fuel fuel (e_f (pc_ecall pc)) (Some e) >>
                    set_queue_at g i zero_pcall).
  assert (Hloop : ∀ k i wi, i + k = length Q ->
     fulfillers wi !! g
       = Some (with_queue (replicate i zero_pcall ++ drop i Q) st2) ->
     length (fulfillers wi) = length (fulfillers w) ->
     (∀ x, x ≠ g -> x ∉ concat (take i fps) ->
        fulfillers wi !! x = fulfillers w !! x) ->
     (∀ x, x ∈ concat (take i fps) ->
        ∃ st', fulfillers wi !! x = Some st' ∧
               resolved_with (ErrorAnswer e) st') ->
     same_rest w wi ->
     ∃ w', for_each (seq i k) body wi = Ok tt w' ∧
       fulfillers w' !! g
         = Some (with_queue (replicate (length Q) zero_pcall) st2) ∧
       length (fulfillers w') = length (fulfillers w) ∧
       (∀ x, x ≠ g -> x ∉ concat fps ->
          fulfillers w' !! x = fulfillers w !! x) ∧
       (∀ x, x ∈ concat fps ->
          ∃ st', fulfillers w' !! x = Some st' ∧
                 resolved_with (ErrorAnswer e) st') ∧
       same_rest w w').
  { induction k as [|k IHk]; intros i wi Hik Hgi Hleni Hout Hin Hrest.
    - assert (i = length Q) by lia. subst i.
      rewrite drop_all, app_nil_r in Hgi.
      rewrite take_ge in Hout, Hin
        by (rewrite <- (Forall2_length _ _ _ Hall); lia).
      exists wi. done.
    - destruct (lookup_lt_is_Some_2 Q i) as [pc Hpc]; [lia|].
      destruct (Forall2_lookup_l _ _ _ _ _ Hall Hpc) as (fli & Hfli & Hfpi).
      destruct (footprint_Some_ptr _ _ _ _ Hfpi) as (ci & Hci & _).
      rewrite Hci in Hfpi.
      assert (Hdis : ∀ x, x ∈ fli -> x ≠ g ∧ x ∉ concat (take i fps)).
      { intros x Hx. split.
        - intros ->. apply Hgfps. by eapply concat_lookup_elem_of.
        - by eapply concat_take_disjoint. }
      destruct (IH fuel ci fli e wi) as (wi' & Hrej & Hlen' & Hout' & Hin' & Hrest').
      { lia. }
      { eapply footprint_agree; [done|]. intros x Hx.
        destruct (Hdis x Hx). by apply Hout. }
      { by eapply concat_lookup_NoDup. }
      assert (Hgi' : fulfillers wi' !! g
                = Some (with_queue (replicate i zero_pcall ++ drop i Q) st2)).
      { rewrite Hout'; [done|]. intros Hx. by destruct (Hdis g Hx). }
      destruct (IHk (S i)
                  (upd g (with_queue (replicate (S i) zero_pcall
                                      ++ drop (S i) Q) st2) wi'))
        as (w' & Hrun & Hpost).
      { lia. }
      { apply upd_lookup_eq. rewrite Hlen', Hleni. done. }
      { rewrite upd_length. congruence. }
      { intros x Hxg Hx. rewrite upd_lookup_ne by done.
        rewrite (concat_take_S _ _ _ Hfli) in Hx.
        rewrite Hout'.
        - apply Hout; [done|]. intros Hx'. apply Hx, elem_of_app. by left.
        - intros Hx'. apply Hx, elem_of_app. by right. }
      { intros x Hx. rewrite (concat_take_S _ _ _ Hfli) in Hx.
        destruct (decide (x = g)) as [->|Hxg].
        { exfalso. apply Hgfps.
          apply elem_of_app in Hx as [Hx|Hx].
          - by eapply concat_take_elem_of.
          - by eapply concat_lookup_elem_of. }
        rewrite upd_lookup_ne by done.
        destruct (decide (x ∈ fli)) as [Hxi|Hxi].
        - by apply Hin'.
        - rewrite Hout' by done. apply Hin.
          apply elem_of_app in Hx as [Hx|Hx]; done. }
      { eapply same_rest_trans; [|apply upd_same_rest].
        by eapply same_rest_trans. }
      exists w'. split; [|done].
      assert (Hbody : body i wi
                = Ok tt (upd g (with_queue (replicate (S i) zero_pcall
                                            ++ drop (S i) Q) st2) wi')).
      { unfold body.
        rewrite (bind_Ok _ _ _ pc wi).
        2:{ eapply queue_at_Some; [done|]. simpl. by rewrite lookup_zeroed. }
        rewrite Hci. rewrite (bind_Ok _ _ _ _ _ Hrej).
        rewrite (set_queue_at_Some _ _ _ _ _ Hgi').
        2:{ simpl. rewrite length_app, length_replicate, length_drop. lia. }
        unfold with_queue at 1. simpl f_queue.
        rewrite insert_zeroed by lia. done. }
      rewrite <- cons_seq, for_each_cons.
      by rewrite (bind_Ok _ _ _ _ _ Hbody). }
  destruct (Hloop (length Q) 0 w2) as (wL & Hrun & HgL & HlenL & HoutL & HinL & HrestL).
  { done. }
  { unfold w2. rewrite upd_lookup_eq.
    - simpl. rewrite drop_0. unfold with_queue, st2, with_answer. simpl.
      by rewrite Hq1.
    - unfold w1. by rewrite init_World_length. }
  { unfold w2, w1. by rewrite upd_length, init_World_length. }
  { intros x Hx _. unfold w2, w1.
    by rewrite upd_lookup_ne, init_World_lookup_ne. }
  { simpl. intros x Hx. by apply elem_of_nil in Hx. }
  { eapply same_rest_trans; [apply init_World_same_rest|apply upd_same_rest]. }
  set (stL := with_queue (replicate (length Q) zero_pcall) st2) in *.
  exists (upd g (with_closed c stL) wL). split.
  - rewrite Reject_fuel_S.
    rewrite (bind_Ok _ _ _ _ _ (deref_Some _ _ _ Hg)).
    rewrite (bind_Ok _ _ _ _ _ (init_Some _ _ _ Hg)).
    rewrite (bind_Ok _ _ _ _ _ (load_Some _ _ _ Hg1)).
    rewrite Ha1.
    rewrite (bind_Ok _ _ _ _ _ (set_answer_Some _ _ _ _ Hg1)).
    rewrite Hq1. fold body. fold st2 w2.
    rewrite (bind_Ok _ _ _ _ _ Hrun).
    by apply close_resolved_Some.
  - split; [by rewrite upd_length|]. split; [|split].
    + intros x Hx. apply not_elem_of_cons in Hx as [Hxg Hx].
      rewrite upd_lookup_ne by done. by apply HoutL.
    + intros x Hx. apply elem_of_cons in Hx as [->|Hx].
      * eexists. split; [apply upd_lookup_eq; lia|].
        unfold resolved_with. simpl. split; [done|]. split; [done|].
        by exists c.
      * rewrite upd_lookup_ne by (intros ->; done). by apply HinL.
    + eapply same_rest_trans; [done|apply upd_same_rest].
Qed.

(** A tree is no deeper than it has nodes, and it lies within the store:
    the fuel that [Fulfiller_Reject] takes is enough. *)
Lemma length_concat_lookup (fps : list (list nat)) i fli :
  fps !! i = Some fli -> length fli ≤ length (concat fps).
Proof.
  intros Hi. rewrite <- (take_drop_middle _ _ _ Hi), concat_app.
  simpl. rewrite !length_app. lia.
Qed.

Lemma footprint_size n : ∀ h fp fl,
  footprint n h fp = Some fl -> footprint (length fl) h fp = Some fl.
Proof.
  induction n as [|n IH]; [done|].
  intros h [f|] fl Hfp; [|done].
  apply footprint_S in Hfp as (st & fps & Hf & Hp & Hall & ->).
  simpl length. apply (footprint_S_intro _ _ _ st); [done..|].
  apply Forall2_same_length_lookup. split; [by eapply Forall2_length|].
  intros i pc fli Hpc Hfli.
  apply (footprint_mono (length fli)).
  - by eapply length_concat_lookup.
  - apply IH. by eapply (Forall2_lookup_lr _ _ _ _ _ _ Hall).
Qed.

Lemma footprint_lt n : ∀ h fp fl x,
  footprint n h fp = Some fl -> x ∈ fl -> x < length h.
Proof.
  induction n as [|n IH]; [done|].
  intros h [f|] fl x Hfp Hx; [|done].
  apply footprint_S in Hfp as (st & fps & Hf & Hp & Hall & ->).
  apply elem_of_cons in Hx as [->|Hx]; [by eapply lookup_lt_Some|].
  apply list_elem_of_In, in_concat in Hx as (fli & Hfli & Hx).
  apply list_elem_of_In, list_elem_of_lookup in Hfli as [i Hi].
  destruct (Forall2_lookup_r _ _ _ _ _ Hall Hi) as (pc & _ & Hpc).
  eapply IH; [done|]. by apply list_elem_of_In.
Qed.

Lemma tree_at_fuel w fp fl :
  tree_at w fp fl ->
  footprint (S (length (fulfillers w))) (fulfillers w) fp = Some fl.
Proof.
  intros [[n Hfp] Hnd].
  apply (footprint_mono (length fl)); [|by eapply footprint_size].
  assert (length fl ≤ length (seq 0 (length (fulfillers w)))) as Hle.
  { apply submseteq_length, NoDup_submseteq; [done|].
    intros x Hx. apply elem_of_seq.
    pose proof (footprint_lt _ _ _ _ _ Hfp Hx). lia. }
  rewrite length_seq in Hle. lia.
Qed.

Lemma Fulfiller_Reject_tree w g fl e :
  tree_at w (Some g) fl ->
  ∃ w', Fulfiller_Reject (Some g) (Some e) w = Ok tt w' ∧
        rejected_in e fl w w'.
Proof.
  intros Ht. unfold Fulfiller_Reject.
  apply (Reject_tree (S (length (fulfillers w)))); [done| |apply Ht].
  by apply tree_at_fuel.
Qed.

Lemma tree_at_root w f fl : tree_at w (Some f) fl -> f ∈ fl.
Proof.
  intros [[n Hfp] _].
  by destruct (footprint_Some_ptr _ _ _ _ Hfp) as (? & [= <-] & ?).
Qed.

(** The children of the root of a tree are roots of disjoint trees. *)
Lemma tree_at_children w f fl :
  tree_at w (Some f) fl ->
  ∃ st fps,
    fulfillers w !! f = Some st ∧ pending st = true ∧
    fl = f :: concat fps ∧ (f ∉ concat fps) ∧ NoDup (concat fps) ∧
    Forall2 (λ pc fli, tree_at w (e_f (pc_ecall pc)) fli) (f_queue st) fps.
Proof.
  intros [[[|n] Hfp] Hnd]; [done|].
  apply footprint_S in Hfp as (st & fps & Hf & Hp & Hall & ->).
  apply NoDup_cons in Hnd as [Hf' Hnd].
  exists st, fps. repeat split; try done.
  apply Forall2_same_length_lookup. split; [by eapply Forall2_length|].
  intros i pc fli Hpc Hfli. split.
  - exists n. by eapply (Forall2_lookup_lr _ _ _ _ _ _ Hall).
  - by eapply concat_lookup_NoDup.
Qed.

(** ** Rejecting a Fulfiller rejects its queue *)

(** C6.  Rejecting a pending Fulfiller with the error [e] makes its answer
    the error answer of [e], and every call in its queue has its child
    Fulfiller rejected with [e] too (as has every call queued on a child,
    and so on); nothing else changes. *)
Theorem Reject_rejects_queue (w : World) (f : FulfillerId)
    (fl : list FulfillerId) (e : error) :
  tree_at w (Some f) fl ->
  ∃ w', Fulfiller_Reject (Some f) (Some e) w = Ok tt w' ∧
        Fulfiller_Peek f w' = Ok (Some (ErrorAnswer e)) w' ∧
        (∀ st pc, fulfillers w !! f = Some st -> pc ∈ f_queue st ->
           ∃ g st', e_f (pc_ecall pc) = Some g ∧
                    fulfillers w' !! g = Some st' ∧
                    resolved_with (ErrorAnswer e) st') ∧
        rejected_in e fl w w'.
Proof.
  intros Ht.
  destruct (Fulfiller_Reject_tree w f fl e Ht) as (w' & Hrun & Hrej).
  exists w'. split; [done|].
  destruct Hrej as (Hlen & Hout & Hin & Hrest).
  split; [|split; [|done]].
  - destruct (Hin f (tree_at_root _ _ _ Ht)) as (st' & Hf' & Ha & Ho & _).
    rewrite (Peek_Some _ _ _ Hf'). by rewrite Ha, init_World_once.
  - intros st pc Hf Hpc.
    destruct (tree_at_children _ _ _ Ht)
      as (st0 & fps & Hf0 & _ & -> & _ & _ & Hall).
    assert (st0 = st) as -> by congruence.
    apply list_elem_of_lookup in Hpc as [i Hi].
    destruct (Forall2_lookup_l _ _ _ _ _ Hall Hi) as (fli & Hfli & Hti).
    destruct Hti as [[n Hfp] _].
    destruct (footprint_Some_ptr _ _ _ _ Hfp) as (g & Hg & Hgin).
    destruct (Hin g) as (st' & Hg' & Hres).
    { apply list_elem_of_further. by eapply concat_lookup_elem_of. }
    by exists g, st'.
Qed.

(** ** Fulfill: emptying the queue *)

Lemma targets_TargetCap s k pc :
  targets s k pc = true ↔ resolve s pc = TargetCap k.
Proof.
  unfold targets. destruct (resolve s pc) as [err| |k']; try done.
  rewrite bool_decide_eq_true. split; congruence.
Qed.

Lemma group_snoc_hit s k Q pc :
  resolve s pc = TargetCap k ->
  group s k (Q ++ [pc]) = group s k Q ++ [pc_ecall pc].
Proof.
  intros Hr. unfold group. rewrite filter_app, fmap_app. f_equal.
  rewrite filter_cons_True; [done|]. apply Is_true_true.
  by apply targets_TargetCap.
Qed.

Lemma group_snoc_miss s k Q pc :
  resolve s pc ≠ TargetCap k -> group s k (Q ++ [pc]) = group s k Q.
Proof.
  intros Hr. unfold group. rewrite filter_app, fmap_app.
  rewrite filter_cons_False; [by rewrite app_nil_r|].
  intros Ht. apply Hr, targets_TargetCap. by apply Is_true_true.
Qed.

Lemma default_grouped s k Q : default [] (grouped s k Q) = group s k Q.
Proof. unfold grouped. by destruct (group s k Q). Qed.

Lemma grouped_snoc_hit s k Q pc :
  resolve s pc = TargetCap k ->
  grouped s k (Q ++ [pc]) = Some (group s k Q ++ [pc_ecall pc]).
Proof.
  intros Hr. unfold grouped. rewrite (group_snoc_hit _ _ _ _ Hr).
  by destruct (group s k Q).
Qed.

Lemma grouped_snoc_miss s k Q pc :
  resolve s pc ≠ TargetCap k -> grouped s k (Q ++ [pc]) = grouped s k Q.
Proof. intros Hr. unfold grouped. by rewrite (group_snoc_miss _ _ _ _ Hr). Qed.

(** A group keeps the order of the queue, and holds every call that
    resolves to its capability. *)
Lemma group_sublist s k Q : sublist (group s k Q) (pc_ecall <$> Q).
Proof. unfold group. apply fmap_sublist, sublist_filter. Qed.

Lemma group_elem_of s k Q pc :
  pc ∈ Q -> resolve s pc = TargetCap k -> pc_ecall pc ∈ group s k Q.
Proof.
  intros Hpc Hr. unfold group. apply list_elem_of_fmap. exists pc.
  split; [done|]. apply list_elem_of_filter. split; [|done].
  apply Is_true_true. by apply targets_TargetCap.
Qed.

Lemma group_length s k Q : length (group s k Q) ≤ length Q.
Proof.
  unfold group. rewrite length_fmap. apply length_filter.
Qed.

Lemma emptyQueue_body_eq w f s qs i pc :
  queue_at f i w = Ok pc w ->
  emptyQueue_body f s qs i w =
    match resolve s pc with
    | TransformFailed err =>
      (Fulfiller_Reject (e_f (pc_ecall pc)) (Some err) >> ret qs) w
    | NullClient =>
      (Fulfiller_Reject (e_f (pc_ecall pc)) (Some ErrNullClient) >> ret qs) w
    | TargetCap cn =>
      Ok (<[cn := default [] (qs !! cn) ++ [pc_ecall pc]]> qs) w
    end.
Proof.
  intros Hq. unfold emptyQueue_body, resolve.
  rewrite (bind_Ok _ _ _ _ _ Hq).
  destruct (TransformPtr _ _) as [err|c]; [done|].
  by destruct (Interface_IsValid _).
Qed.

Lemma child_outcome_frame s pc fli w0 w w' :
  child_outcome s pc fli w0 w ->
  (∀ x, x ∈ fli -> fulfillers w' !! x = fulfillers w !! x) ->
  child_outcome s pc fli w0 w'.
Proof.
  unfold child_outcome. intros Hc Heq.
  destruct (resolve s pc); intros x Hx; rewrite (Heq x Hx); by apply Hc.
Qed.

Lemma tree_at_agree w w' fp fl :
  tree_at w fp fl ->
  (∀ x, x ∈ fl -> fulfillers w' !! x = fulfillers w !! x) ->
  tree_at w' fp fl.
Proof.
  intros [[n Hfp] Hnd] Hag. split; [|done].
  exists n. by eapply footprint_agree.
Qed.

Lemma emptyQueue_loop_spec (w0 : World) f s stf (fps : list (list nat)) :
  fulfillers w0 !! f = Some stf ->
  Forall2 (λ pc fli, tree_at w0 (e_f (pc_ecall pc)) fli) (f_queue stf) fps ->
  NoDup (concat fps) -> f ∉ concat fps ->
  ∀ k i wi qs,
    i + k = length (f_queue stf) ->
    length (fulfillers wi) = length (fulfillers w0) ->
    (∀ x, x ∉ concat (take i fps) ->
       fulfillers wi !! x = fulfillers w0 !! x) ->
    (∀ j pc flj, j < i -> f_queue stf !! j = Some pc -> fps !! j = Some flj ->
       child_outcome s pc flj w0 wi) ->
    (∀ k', qs !! k' = grouped s k' (take i (f_queue stf))) ->
    same_rest w0 wi ->
    ∃ w' qs',
      emptyQueue_loop f s (seq i k) qs wi = Ok qs' w' ∧
      length (fulfillers w') = length (fulfillers w0) ∧
      (∀ x, x ∉ concat fps -> fulfillers w' !! x = fulfillers w0 !! x) ∧
      (∀ j pc flj, f_queue stf !! j = Some pc -> fps !! j = Some flj ->
         child_outcome s pc flj w0 w') ∧
      (∀ k', qs' !! k' = grouped s k' (f_queue stf)) ∧
      same_rest w0 w'.
Proof.
  intros Hf Hall Hnd Hffps.
  set (Q := f_queue stf) in *.
  assert (Hlenfps : length fps = length Q)
    by (symmetry; by eapply Forall2_length).
  induction k as [|k IHk]; intros i wi qs Hik Hlen Hout Hdone Hqs Hrest.
  - assert (i = length Q) by lia. subst i.
    rewrite take_ge in Hout by lia. rewrite take_ge in Hqs by lia.
    exists wi, qs. split; [done|]. split; [done|]. split; [done|].
    split; [|done].
    intros j pc flj Hpc Hflj. eapply Hdone; [|done..].
    by eapply lookup_lt_Some.
  - destruct (lookup_lt_is_Some_2 Q i) as [pc Hpc]; [lia|].
    destruct (Forall2_lookup_l _ _ _ _ _ Hall Hpc) as (fli & Hfli & Hti).
    assert (Hdis : ∀ x, x ∈ fli -> x ∉ concat (take i fps))
      by (intros x Hx; by eapply concat_take_disjoint).
    assert (Hfi : fulfillers wi !! f = Some stf).
    { rewrite Hout; [done|]. intros Hx. apply Hffps.
      by eapply concat_take_elem_of. }
    assert (Hqat : queue_at f i wi = Ok pc wi) by by eapply queue_at_Some.
    assert (Htake : take (S i) Q = take i Q ++ [pc]) by by apply take_S_r.
    assert (Hprev : ∀ j flj x, j < i -> fps !! j = Some flj -> x ∈ flj ->
                      x ∉ fli).
    { intros j flj x Hj Hflj Hx Hxi. apply (Hdis x Hxi).
      apply (concat_lookup_elem_of (take i fps) j flj); [|done].
      by rewrite lookup_take_lt. }
    assert (Hti' : tree_at wi (e_f (pc_ecall pc)) fli).
    { eapply tree_at_agree; [done|]. intros x Hx. by apply Hout, Hdis. }
    (* what the body does, by the outcome of the tests *)
    assert (Hbody : ∃ wi' qs',
      emptyQueue_body f s qs i wi = Ok qs' wi' ∧
      length (fulfillers wi') = length (fulfillers wi) ∧
      (∀ x, x ∉ fli -> fulfillers wi' !! x = fulfillers wi !! x) ∧
      child_outcome s pc fli w0 wi' ∧
      (∀ k', qs' !! k' = grouped s k' (take (S i) Q)) ∧
      same_rest wi wi').
    { rewrite (emptyQueue_body_eq _ _ _ _ _ _ Hqat).
      destruct Hti' as [[n Hfp] Hndi].
      destruct (footprint_Some_ptr _ _ _ _ Hfp) as (ci & Hci & _).
      assert (Hti' : tree_at wi (Some ci) fli).
      { split; [|done]. exists n. by rewrite <- Hci. }
      unfold child_outcome.
      destruct (resolve s pc) as [err| |cn] eqn:Hres.
      - destruct (Fulfiller_Reject_tree wi ci fli err Hti')
          as (wi' & Hrun & Hl & Ho & Hi & Hr).
        exists wi', qs. rewrite Hci, (bind_Ok _ _ _ _ _ Hrun).
        split; [done|]. split; [done|]. split; [done|]. split; [done|].
        split; [|done].
        intros k'. rewrite Htake, grouped_snoc_miss; [done|]. by rewrite Hres.
      - destruct (Fulfiller_Reject_tree wi ci fli ErrNullClient Hti')
          as (wi' & Hrun & Hl & Ho & Hi & Hr).
        exists wi', qs. rewrite Hci, (bind_Ok _ _ _ _ _ Hrun).
        split; [done|]. split; [done|]. split; [done|]. split; [done|].
        split; [|done].
        intros k'. rewrite Htake, grouped_snoc_miss; [done|]. by rewrite Hres.
      - exists wi, (<[cn := default [] (qs !! cn) ++ [pc_ecall pc]]> qs).
        split; [done|]. split; [done|]. split; [done|].
        split; [|split; [|apply same_rest_refl]].
        + intros x Hx. by apply Hout, Hdis.
        + intros k'. rewrite Htake.
          destruct (decide (k' = cn)) as [->|Hne].
          * rewrite lookup_insert_eq, grouped_snoc_hit by done.
            by rewrite Hqs, default_grouped.
          * rewrite lookup_insert_ne by done.
            rewrite grouped_snoc_miss; [done|]. rewrite Hres. congruence. }
    destruct Hbody as (wi' & qs' & Hrun & Hl' & Ho' & Hc' & Hqs' & Hr').
    destruct (IHk (S i) wi' qs') as (w' & qs'' & Hloop & Hpost).
    { lia. }
    { congruence. }
    { intros x Hx. rewrite (concat_take_S _ _ _ Hfli) in Hx.
      rewrite Ho'.
      - apply Hout. intros Hx'. apply Hx, elem_of_app. by left.
      - intros Hx'. apply Hx, elem_of_app. by right. }
    { intros j pcj flj Hj Hpcj Hflj.
      destruct (decide (j = i)) as [->|Hji].
      - by assert (pcj = pc ∧ flj = fli) as [-> ->] by (split; congruence).
      - eapply child_outcome_frame.
        + eapply (Hdone j); [lia|done..].
        + intros x Hx. apply Ho'. eapply (Hprev j); [lia|done..]. }
    { done. }
    { by eapply same_rest_trans. }
    exists w', qs''. split; [|done].
    rewrite <- cons_seq. simpl emptyQueue_loop.
    by rewrite (bind_Ok _ _ _ _ _ Hrun).
Qed.

(** ** Fulfill: embargoing the capabilities *)

Lemma CapTable_insert m t w :
  CapTable m (set_captables (λ c, <[m := t]> c) w) = t.
Proof. unfold CapTable. simpl. by rewrite lookup_insert_eq. Qed.

Lemma embargo_entry_eq m k q c w :
  CapTable m w !! N.to_nat k = Some c ->
  embargo_entry m (k, q) w =
    Ok tt (set_captables
             (λ t, <[m := <[N.to_nat k := embargoRef (length (embargoes w))]>
                            (CapTable m w)]> t)
             (set_embargoes
                (λ l, l ++ [(MkEmbargo c (new_queue q), FlushStart)]) w)).
Proof.
  intros Hc. unfold embargo_entry, bind, gets. simpl. by rewrite Hc.
Qed.

Lemma embargo_entries_spec m (l : list (N * list ecall)) : ∀ w,
  NoDup l.*1 ->
  (∀ k q, (k, q) ∈ l -> N.to_nat k < length (CapTable m w)) ->
  ∃ w', for_each l (embargo_entry m) w = Ok tt w' ∧
    fulfillers w' = fulfillers w ∧ settlers w' = settlers w ∧
    events w' = events w ∧ chan_next w' = chan_next w ∧
    length (CapTable m w') = length (CapTable m w) ∧
    (∀ m', m' ≠ m -> captables w' !! m' = captables w !! m') ∧
    (∀ k, k ∉ l.*1 ->
       CapTable m w' !! N.to_nat k = CapTable m w !! N.to_nat k) ∧
    (∀ j k q, l !! j = Some (k, q) ->
       ∃ c, CapTable m w !! N.to_nat k = Some c ∧
            CapTable m w' !! N.to_nat k
              = Some (embargoRef (length (embargoes w) + j)) ∧
            embargoes w' !! (length (embargoes w) + j)
              = Some (MkEmbargo c (new_queue q), FlushStart)) ∧
    length (embargoes w') = length (embargoes w) + length l ∧
    (∀ id, id < length (embargoes w) ->
       embargoes w' !! id = embargoes w !! id).
Proof.
  induction l as [|[k q] l IH]; intros w Hnd Hrange.
  - exists w. simpl. repeat split; try done; try lia.
  - simpl in Hnd. apply NoDup_cons in Hnd as [Hk Hnd].
    destruct (lookup_lt_is_Some_2 (CapTable m w) (N.to_nat k)) as [c Hc].
    { apply (Hrange k q). apply list_elem_of_here. }
    pose proof (embargo_entry_eq m k q c w Hc) as Hrun.
    set (w2 := set_captables _ _) in Hrun.
    assert (Htab2 : CapTable m w2
                    = <[N.to_nat k := embargoRef (length (embargoes w))]>
                        (CapTable m w))
      by apply CapTable_insert.
    destruct (IH w2 Hnd) as
      (w' & Hloop & Hf & Hs & He & Hcn & Hlen & Hoth & Hmiss & Hhit & Hel & Hold).
    { intros k' q' Hin. rewrite Htab2, length_insert.
      apply (Hrange k' q'). by apply list_elem_of_further. }
    assert (Hel2 : length (embargoes w2) = S (length (embargoes w))).
    { unfold w2. simpl. rewrite length_app. simpl. lia. }
    exists w'. rewrite for_each_cons, (bind_Ok _ _ _ _ _ Hrun).
    split; [done|]. split; [done|]. split; [done|]. split; [done|].
    split; [done|].
    split; [by rewrite Hlen, Htab2, length_insert|].
    split.
    { intros m' Hm'. rewrite Hoth by done. unfold w2. simpl.
      by rewrite lookup_insert_ne. }
    split.
    { intros k' Hk'. simpl in Hk'. apply not_elem_of_cons in Hk' as [Hne Hk'].
      rewrite Hmiss, Htab2 by done.
      apply list_lookup_insert_ne. lia. }
    split.
    { intros [|j] k' q' Hj.
      - simpl in Hj. injection Hj as <- <-. exists c. split; [done|].
        rewrite Nat.add_0_r. split.
        + rewrite Hmiss, Htab2 by done.
          apply list_lookup_insert_eq. by eapply lookup_lt_Some.
        + rewrite Hold by lia. unfold w2. simpl.
          by rewrite lookup_app_r, Nat.sub_diag.
      - simpl in Hj. destruct (Hhit j k' q' Hj) as (c' & Hc' & Ht' & He').
        assert (k' ≠ k).
        { intros ->. apply Hk. apply list_elem_of_fmap. exists (k, q').
          split; [done|]. by eapply list_elem_of_lookup_2. }
        exists c'. rewrite Hel2 in Ht', He'.
        replace (length (embargoes w) + S j)
          with (S (length (embargoes w)) + j) by lia.
        split; [|done].
        rewrite Htab2 in Hc'. rewrite list_lookup_insert_ne in Hc'; [done|].
        lia. }
    split.
    { rewrite Hel, Hel2. simpl. lia. }
    intros id Hid. rewrite Hold by lia. unfold w2. simpl.
    by rewrite lookup_app_l.
Qed.

Lemma group_nonempty s k Q :
  group s k Q ≠ [] -> ∃ pc, pc ∈ Q ∧ resolve s pc = TargetCap k.
Proof.
  unfold group. destruct (filter _ Q) as [|pc l] eqn:Hfl; [done|].
  intros _. exists pc.
  assert (Hin : pc ∈ filter (λ pc, targets s k pc) Q)
    by (rewrite Hfl; apply list_elem_of_here).
  apply list_elem_of_filter in Hin as [Ht Hin]. split; [done|].
  apply targets_TargetCap. by apply Is_true_true.
Qed.

Lemma grouped_Some s k Q g :
  grouped s k Q = Some g ↔ g = group s k Q ∧ group s k Q ≠ [].
Proof.
  unfold grouped. destruct (group s k Q) as [|x l].
  - split; [done|]. by intros [_ ?].
  - split; [by intros [= <-]|]. by intros [-> _].
Qed.

Lemma grouped_None s k Q : grouped s k Q = None ↔ group s k Q = [].
Proof. unfold grouped. by destruct (group s k Q). Qed.

Lemma range_order_lookup {V} (m : gmap N V) k v :
  (k, v) ∈ range_order m ↔ m !! k = Some v.
Proof. rewrite (range_order_perm V m). apply elem_of_map_to_list. Qed.

Lemma range_order_NoDup {V} (m : gmap N V) : NoDup (range_order m).*1.
Proof.
  rewrite (range_order_perm V m). apply NoDup_fst_map_to_list.
Qed.

(** What [Fulfill] does to a pending Fulfiller whose queued calls all
    resolve inside the capability table: [l] is the order in which the
    groups were visited. *)
Lemma Fulfill_spec (w : World) (f : FulfillerId) (fl : list FulfillerId)
    (s : Struct) :
  tree_at w (Some f) fl ->
  (∀ st pc k, fulfillers w !! f = Some st -> pc ∈ f_queue st ->
     resolve s pc = TargetCap k ->
     N.to_nat k < length (CapTable (Struct_Message s) w)) ->
  ∃ w' st fps (l : list (N * list ecall)),
    Fulfiller_Fulfill f s w = Ok tt w' ∧
    fulfillers w !! f = Some st ∧ pending st = true ∧
    fl = f :: concat fps ∧
    Forall2 (λ pc fli, tree_at w (e_f (pc_ecall pc)) fli) (f_queue st) fps ∧
    (∃ st', fulfillers w' !! f = Some st' ∧
            resolved_with (ImmediateAnswer s) st' ∧ f_queue st' = []) ∧
    length (fulfillers w') = length (fulfillers w) ∧
    (∀ x, x ∉ fl -> fulfillers w' !! x = fulfillers w !! x) ∧
    (∀ j pc flj, f_queue st !! j = Some pc -> fps !! j = Some flj ->
       child_outcome s pc flj w w') ∧
    settlers w' = settlers w ∧ events w' = events w ∧
    (∀ m', m' ≠ Struct_Message s -> captables w' !! m' = captables w !! m') ∧
    length (CapTable (Struct_Message s) w')
      = length (CapTable (Struct_Message s) w) ∧
    NoDup l.*1 ∧
    (∀ k q, (k, q) ∈ l ↔ grouped s k (f_queue st) = Some q) ∧
    (∀ k, group s k (f_queue st) = [] ->
       CapTable (Struct_Message s) w' !! N.to_nat k
       = CapTable (Struct_Message s) w !! N.to_nat k) ∧
    (∀ j k q, l !! j = Some (k, q) ->
       ∃ c, CapTable (Struct_Message s) w !! N.to_nat k = Some c ∧
            CapTable (Struct_Message s) w' !! N.to_nat k
              = Some (embargoRef (length (embargoes w) + j)) ∧
            embargoes w' !! (length (embargoes w) + j)
              = Some (MkEmbargo c (new_queue q), FlushStart)) ∧
    length (embargoes w') = length (embargoes w) + length l ∧
    (∀ id, id < length (embargoes w) ->
       embargoes w' !! id = embargoes w !! id).
Proof.
  intros Ht Hrange.
  destruct (tree_at_children _ _ _ Ht)
    as (st & fps & Hf & Hp & -> & Hffps & Hnd & Hall).
  destruct (pending_inited (chan_next w) st Hp)
    as (Ha1 & Hq1 & Ho1 & _ & _ & c & Hr1 & _).
  set (m := Struct_Message s) in *.
  set (w1 := init_World f st w).
  set (st1 := inited (chan_next w) st) in *.
  assert (Hf1 : fulfillers w1 !! f = Some st1) by by apply init_World_lookup.
  set (st2 := with_answer (ImmediateAnswer s) st1).
  set (w2 := upd f st2 w1).
  assert (Hflt : f < length (fulfillers w)) by by eapply lookup_lt_Some.
  assert (Hf2 : fulfillers w2 !! f = Some st2).
  { apply upd_lookup_eq. unfold w1. by rewrite init_World_length. }
  assert (Hq2 : f_queue st2 = f_queue st) by done.
  assert (Hw2 : ∀ x, x ≠ f -> fulfillers w2 !! x = fulfillers w !! x).
  { intros x Hx. unfold w2, w1.
    by rewrite upd_lookup_ne, init_World_lookup_ne. }
  assert (Hlen2 : length (fulfillers w2) = length (fulfillers w)).
  { unfold w2, w1. by rewrite upd_length, init_World_length. }
  assert (Hrest2 : same_rest w w2).
  { eapply same_rest_trans; [apply init_World_same_rest|apply upd_same_rest]. }
  assert (Hall2 : Forall2 (λ pc fli, tree_at w2 (e_f (pc_ecall pc)) fli)
                          (f_queue st2) fps).
  { rewrite Hq2. apply Forall2_same_length_lookup.
    split; [by eapply Forall2_length|]. intros i pc fli Hpc Hfli.
    eapply tree_at_agree.
    - by eapply (Forall2_lookup_lr _ _ _ _ _ _ Hall).
    - intros x Hx. apply Hw2. intros ->. apply Hffps.
      by eapply concat_lookup_elem_of. }
  destruct (emptyQueue_loop_spec w2 f s st2 fps Hf2 Hall2 Hnd Hffps
              (length (f_queue st2)) 0 w2 ∅)
    as (w3 & qs & Hloop & Hlen3 & Hout3 & Hch3 & Hqs & Hrest3);
    [done|done|done|intros; lia|intros k'; by rewrite lookup_empty|
     apply same_rest_refl|].
  assert (Hf3 : fulfillers w3 !! f = Some st2) by by rewrite Hout3.
  set (st4 := MkFulfiller (f_once st2) (f_resolved st2) (f_answer st2) [] 0).
  set (w4 := upd f st4 w3).
  assert (Hempty : Fulfiller_emptyQueue f s w2 = Ok qs w4).
  { unfold Fulfiller_emptyQueue.
    rewrite (bind_Ok _ _ _ _ _ (load_Some _ _ _ Hf2)).
    rewrite (bind_Ok _ _ _ _ _ Hloop).
    by rewrite (bind_Ok _ _ _ _ _ (load_Some _ _ _ Hf3)). }
  assert (Hrest4 : same_rest w w4).
  { eapply same_rest_trans; [done|].
    eapply same_rest_trans; [done|apply upd_same_rest]. }
  assert (Htab4 : CapTable m w4 = CapTable m w).
  { unfold CapTable. by destruct Hrest4 as (_ & _ & -> & _). }
  rewrite Hq2 in Hqs.
  destruct (embargo_entries_spec m (range_order qs) w4)
    as (w5 & Hent & Hf5 & Hs5 & He5 & _ & Hlen5 & Hoth5 & Hmiss5 & Hhit5
        & Hel5 & Hold5).
  { apply range_order_NoDup. }
  { intros k q Hkq. apply range_order_lookup in Hkq.
    rewrite Hqs in Hkq. apply grouped_Some in Hkq as [_ Hne].
    destruct (group_nonempty _ _ _ Hne) as (pc & Hpc & Hres).
    rewrite Htab4. by eapply Hrange. }
  assert (Hf4 : fulfillers w4 !! f = Some st4).
  { apply upd_lookup_eq. lia. }
  assert (Hf5' : fulfillers w5 !! f = Some st4) by by rewrite Hf5.
  set (w6 := upd f (with_closed c st4) w5).
  assert (Hlen5f : length (fulfillers w5) = length (fulfillers w)).
  { rewrite Hf5. unfold w4. rewrite upd_length. lia. }
  assert (Hemb4 : embargoes w4 = embargoes w) by apply Hrest4.
  exists w6, st, fps, (range_order qs).
  split.
  { unfold Fulfiller_Fulfill.
    rewrite (bind_Ok _ _ _ _ _ (init_Some _ _ _ Hf)).
    rewrite (bind_Ok _ _ _ _ _ (load_Some _ _ _ Hf1)).
    rewrite Ha1.
    rewrite (bind_Ok _ _ _ _ _ (set_answer_Some _ _ _ _ Hf1)).
    fold st2 w2. rewrite (bind_Ok _ _ _ _ _ Hempty).
    fold m. rewrite (bind_Ok _ _ _ _ _ Hent).
    by apply close_resolved_Some. }
  split; [done|]. split; [done|]. split; [done|]. split; [done|].
  split.
  { eexists. split; [apply upd_lookup_eq; lia|].
    split; [|done]. split; [done|]. split; [done|]. by exists c. }
  split; [unfold w6; by rewrite upd_length|].
  assert (Hw6 : ∀ x, x ≠ f -> fulfillers w6 !! x = fulfillers w3 !! x).
  { intros x Hx. unfold w6. rewrite upd_lookup_ne, Hf5 by done.
    by apply upd_lookup_ne. }
  split.
  { intros x Hx. apply not_elem_of_cons in Hx as [Hxf Hx].
    rewrite Hw6, Hout3 by done. by apply Hw2. }
  split.
  { intros j pc flj Hpc Hflj.
    assert (Hne : ∀ x, x ∈ flj -> x ≠ f).
    { intros x Hx ->. apply Hffps. by eapply concat_lookup_elem_of. }
    rewrite <- Hq2 in Hpc. pose proof (Hch3 j pc flj Hpc Hflj) as Hc.
    unfold child_outcome in *.
    destruct (resolve s pc); intros x Hx; rewrite (Hw6 x (Hne x Hx)).
    - by apply Hc.
    - by apply Hc.
    - rewrite (Hc x Hx). by apply Hw2, Hne. }
  split; [rewrite <- (proj1 (proj2 Hrest4)); by rewrite <- Hs5|].
  split; [rewrite <- (proj2 (proj2 (proj2 Hrest4))); by rewrite <- He5|].
  split.
  { intros m' Hm'. transitivity (captables w4 !! m'); [by apply Hoth5|].
    by destruct Hrest4 as (_ & _ & -> & _). }
  split; [by rewrite <- Htab4, <- Hlen5|].
  split; [apply range_order_NoDup|].
  split; [intros k q; by rewrite range_order_lookup, Hqs|].
  split.
  { intros k Hg. rewrite <- Htab4. apply Hmiss5.
    intros Hin. apply list_elem_of_fmap in Hin as ([k' q] & -> & Hin).
    simpl in Hg. apply range_order_lookup in Hin.
    rewrite Hqs in Hin. by apply grouped_Some in Hin as [_ ?]. }
  split.
  { intros j k q Hj. rewrite <- Htab4, <- Hemb4. by apply Hhit5. }
  split; [by rewrite <- Hemb4|].
  intros id Hid. rewrite <- Hemb4. apply Hold5. by rewrite Hemb4.
Qed.

Lemma Peek_resolved w f st a :
  fulfillers w !! f = Some st -> resolved_with a st ->
  Fulfiller_Peek f w = Ok (Some a) w.
Proof.
  intros Hf (Ha & Ho & _). rewrite (Peek_Some _ _ _ Hf).
  by rewrite Ha, init_World_once.
Qed.

(** C1.  Fulfilling a pending Fulfiller with [s], when every queued call
    that resolves to a capability resolves inside the capability table of
    the message of [s]: the calls that resolve to capability [k] form
    [group s k Q], a sublist of the queue [Q] that holds every such call,
    so in the order they were queued; for every [k] with a non-empty group
    the table entry [k] becomes a new embargo client (one that was not in
    the store, and a different one for each [k]) that wraps the old entry
    and whose queue holds exactly the group, with its flush goroutine about
    to start; the other entries stay. *)
Theorem Fulfill_embargoes_groups (w : World) (f : FulfillerId)
    (fl : list FulfillerId) (st : Fulfiller) (s : Struct) :
  tree_at w (Some f) fl ->
  fulfillers w !! f = Some st ->
  (∀ pc k, pc ∈ f_queue st -> resolve s pc = TargetCap k ->
     N.to_nat k < length (CapTable (Struct_Message s) w)) ->
  ∃ w',
    Fulfiller_Fulfill f s w = Ok tt w' ∧
    Fulfiller_Peek f w' = Ok (Some (ImmediateAnswer s)) w' ∧
    (∀ pc k, pc ∈ f_queue st -> resolve s pc = TargetCap k ->
       pc_ecall pc ∈ group s k (f_queue st)) ∧
    (∀ k, sublist (group s k (f_queue st)) (pc_ecall <$> f_queue st)) ∧
    (∀ k, group s k (f_queue st) = [] ->
       CapTable (Struct_Message s) w' !! N.to_nat k
       = CapTable (Struct_Message s) w !! N.to_nat k) ∧
    (∀ k, group s k (f_queue st) ≠ [] ->
       ∃ id c q,
         CapTable (Struct_Message s) w !! N.to_nat k = Some c ∧
         CapTable (Struct_Message s) w' !! N.to_nat k = Some (embargoRef id) ∧
         embargoes w !! id = None ∧
         embargoes w' !! id = Some (MkEmbargo c q, FlushStart) ∧
         embargo_ok (MkEmbargo c q) ∧
         Queue_contents q = group s k (f_queue st)) ∧
    (∀ k1 k2 id,
       group s k1 (f_queue st) ≠ [] -> group s k2 (f_queue st) ≠ [] ->
       CapTable (Struct_Message s) w' !! N.to_nat k1 = Some (embargoRef id) ->
       CapTable (Struct_Message s) w' !! N.to_nat k2 = Some (embargoRef id) ->
       k1 = k2) ∧
    (∀ id, id < length (embargoes w) ->
       embargoes w' !! id = embargoes w !! id).
Proof.
  intros Ht Hf Hrange.
  destruct (Fulfill_spec w f fl s Ht) as
    (w' & st0 & fps & l & Hrun & Hf0 & Hp & _ & _ & (st' & Hf' & Hres & _)
     & _ & _ & _ & _ & _ & _ & _ & Hnd & Hl & Hmiss & Hhit & _ & Hold).
  { intros st1 pc k Hf1 Hpc Hr. assert (st1 = st) as -> by congruence.
    by eapply Hrange. }
  assert (st0 = st) as -> by congruence.
  assert (Hfind : ∀ k, group s k (f_queue st) ≠ [] ->
            ∃ j, l !! j = Some (k, group s k (f_queue st))).
  { intros k Hne. apply list_elem_of_lookup, Hl, grouped_Some. done. }
  exists w'. split; [done|].
  split; [by eapply Peek_resolved|].
  split; [intros pc k; apply group_elem_of|].
  split; [intros k; apply group_sublist|].
  split; [done|]. split; [|split; [|done]].
  - intros k Hne. destruct (Hfind k Hne) as [j Hj].
    destruct (Hhit j k _ Hj) as (c & Hc & Ht' & He').
    exists (length (embargoes w) + j), c, (new_queue (group s k (f_queue st))).
    split; [done|]. split; [done|].
    split; [apply lookup_ge_None_2; lia|]. split; [done|].
    destruct (new_queue_spec (group s k (f_queue st))) as (Hwf & Hcap & _).
    split; [done|]. apply new_queue_contents.
    destruct (pending_inited 0 st Hp) as (_ & _ & _ & _ & Hlen & _).
    pose proof (group_length s k (f_queue st)). lia.
  - intros k1 k2 id Hne1 Hne2 Hk1 Hk2.
    destruct (Hfind k1 Hne1) as [j1 Hj1]. destruct (Hfind k2 Hne2) as [j2 Hj2].
    destruct (Hhit j1 k1 _ Hj1) as (c1 & _ & Ht1 & _).
    destruct (Hhit j2 k2 _ Hj2) as (c2 & _ & Ht2 & _).
    assert (j1 = j2) as -> by (rewrite Hk1 in Ht1; rewrite Hk2 in Ht2;
                               simplify_eq; lia).
    congruence.
Qed.


(** ** The flush goroutine *)

Lemma upd_ec_lookup w ec x :
  ec < length (embargoes w) -> embargoes (upd_ec ec x w) !! ec = Some x.
Proof. intros Hl. simpl. by apply list_lookup_insert_eq. Qed.

Lemma store_pc_Some w ec e pc pc' :
  embargoes w !! ec = Some (e, pc) ->
  store_pc ec pc' w = Ok tt (upd_ec ec (e, pc') w).
Proof. intros He. unfold store_pc, modify, upd_ec, set_embargoes. by rewrite He. Qed.

Lemma store_q_upd w ec e pc q :
  embargoes w !! ec = Some (e, pc) ->
  store_q ec q w = Ok tt (upd_ec ec (MkEmbargo (ec_client e) q, pc) w).
Proof. apply store_q_Some. Qed.

Lemma head_or_zero_nil : head_or_zero [] = zero_ecall.
Proof. done. Qed.

Lemma peek_eq w ec e pc :
  embargoes w !! ec = Some (e, pc) -> Queue_wf (ec_q e) ->
  embargoClient_peek ec w = Ok (head_or_zero (Queue_contents (ec_q e))) w.
Proof.
  intros He Hwf. unfold embargoClient_peek.
  rewrite (bind_Ok _ _ _ _ _ (load_ec_Some _ _ _ He)). simpl.
  unfold Queue_Len. case_decide as Hn.
  - by rewrite (Queue_contents_nil _ Hn).
  - destruct (Queue_contents (ec_q e)) as [|c l] eqn:Hc.
    { apply (f_equal length) in Hc. rewrite Queue_contents_length in Hc.
      simpl in Hc. lia. }
    destruct (Queue_Pop_spec _ _ _ Hwf Hc) as (q' & -> & _). done.
Qed.

Lemma pop_empty w ec e pc :
  embargoes w !! ec = Some (e, pc) -> q_n (ec_q e) = 0 ->
  embargoClient_pop ec w = Ok zero_ecall w.
Proof.
  intros He Hn. unfold embargoClient_pop.
  rewrite (bind_Ok _ _ _ _ _ (load_ec_Some _ _ _ He)). simpl.
  unfold Queue_Len. by rewrite decide_True.
Qed.

Lemma pop_eq w ec e pc c l :
  embargoes w !! ec = Some (e, pc) -> Queue_wf (ec_q e) ->
  Queue_contents (ec_q e) = c :: l ->
  ∃ q', embargoClient_pop ec w
        = Ok c (upd_ec ec (MkEmbargo (ec_client e) q', pc) w) ∧
        Queue_wf q' ∧ q_cap q' = q_cap (ec_q e) ∧
        q_n q' = q_n (ec_q e) - 1 ∧ Queue_contents q' = l.
Proof.
  intros He Hwf Hc.
  destruct (Queue_Pop_spec _ _ _ Hwf Hc)
    as (q' & _ & Hpop & Hwf' & Hcap & Hn' & Hc').
  exists q'. split; [|done]. unfold embargoClient_pop.
  rewrite (bind_Ok _ _ _ _ _ (load_ec_Some _ _ _ He)). simpl.
  unfold Queue_Len. rewrite decide_False.
  2:{ rewrite <- Queue_contents_length, Hc. done. }
  rewrite Hpop. by rewrite (bind_Ok _ _ _ _ _ (store_q_upd _ _ _ _ _ He)).
Qed.

Lemma dispatched_app ec evs evs' :
  dispatched ec (evs ++ evs') = dispatched ec evs ++ dispatched ec evs'.
Proof. unfold dispatched. apply omap_app. Qed.

Lemma dispatched_EvCall ec c cl :
  dispatched ec [EvCall ec c cl] = [cl].
Proof. unfold dispatched. simpl. by rewrite decide_True. Qed.

Lemma calls_cons x l cl :
  e_call x = Some cl -> calls (x :: l) = cl :: calls l.
Proof. intros Hx. unfold calls. simpl. by rewrite Hx. Qed.

Lemma calls_app l1 l2 : calls (l1 ++ l2) = calls l1 ++ calls l2.
Proof. unfold calls. apply omap_app. Qed.

Lemma flush_measure_lookup w ec e pc :
  embargoes w !! ec = Some (e, pc) ->
  flush_measure ec w =
    match pc with
    | FlushStart => 2 * q_n (ec_q e) + 2
    | FlushTest _ => 2 * q_n (ec_q e) + 1
    | FlushPop => 2 * q_n (ec_q e)
    | FlushDone => 0
    end.
Proof. unfold flush_measure. by intros ->. Qed.

(** A step of the flush goroutine keeps the invariant and brings the
    goroutine closer to its end. *)
Lemma flush_step_inv ec c D0 S w :
  flush_inv ec c D0 S w ->
  ∃ w', flush_step ec w = Ok tt w' ∧ flush_inv ec c D0 S w' ∧
        (flush_measure ec w' < flush_measure ec w ∨
         (flush_measure ec w = 0 ∧ w' = w)).
Proof.
  intros (q & pc & D & He & [Hwf Hcap] & Hcalls & Hev & Hpc).
  assert (Hlt : ec < length (embargoes w)) by by eapply lookup_lt_Some.
  unfold flush_step. rewrite (bind_Ok _ _ _ _ _ (load_pc_Some _ _ _ He)).
  cbn [snd]. destruct pc as [|x| |].
  - (* before the first peek *)
    rewrite (bind_Ok _ _ _ _ _ (peek_eq _ _ _ _ He Hwf)).
    rewrite (store_pc_Some _ _ _ _ _ He). simpl ec_q.
    eexists. split; [done|]. split.
    + exists q, (FlushTest (head_or_zero (Queue_contents q))), D.
      split; [by apply upd_ec_lookup|]. done.
    + left. rewrite (flush_measure_lookup _ _ _ _ (upd_ec_lookup _ _ _ Hlt)).
      rewrite (flush_measure_lookup _ _ _ _ He). lia.
  - (* the loop test *)
    destruct Hpc as [HS ->].
    destruct (Queue_contents q) as [|y rest] eqn:Hq.
    + simpl. rewrite (store_pc_Some _ _ _ _ _ He).
      eexists. split; [done|]. split.
      * exists q, FlushDone, D. split; [by apply upd_ec_lookup|].
        rewrite Hq. rewrite app_nil_r in HS. done.
      * left. rewrite (flush_measure_lookup _ _ _ _ (upd_ec_lookup _ _ _ Hlt)).
        rewrite (flush_measure_lookup _ _ _ _ He). lia.
    + apply Forall_cons in Hcalls as [[cl Hcl] Hrest].
      change (head_or_zero (y :: rest)) with y. rewrite Hcl.
      rewrite (bind_Ok _ _ _ _ _ (load_ec_Some _ _ _ He)). cbn [fst].
      unfold Client_Call, bind, modify, ret. simpl ec_client.
      set (w1 := set_settlers _ (emit _ w)).
      assert (He1 : embargoes w1 !! ec = Some (MkEmbargo c q, FlushTest y))
        by done.
      rewrite (store_pc_Some _ _ _ _ _ He1).
      eexists. split; [done|]. split.
      * exists q, FlushPop, (D ++ [cl]).
        split; [by apply upd_ec_lookup|]. split; [done|].
        split; [rewrite Hq; by constructor; [exists cl|]|].
        split.
        { simpl. rewrite dispatched_app, dispatched_EvCall, Hev.
          by rewrite app_assoc. }
        exists y, rest. split; [done|].
        rewrite <- HS, (calls_cons _ _ _ Hcl), <- app_assoc. done.
      * left. rewrite (flush_measure_lookup _ _ _ _ (upd_ec_lookup w1 _ _ Hlt)).
        rewrite (flush_measure_lookup _ _ _ _ He). lia.
  - (* after the call: pop, peek *)
    destruct Hpc as (x & rest & Hq & HS).
    destruct (pop_eq _ _ _ _ _ _ He Hwf Hq)
      as (q' & Hpop & Hwf' & Hcap' & Hn' & Hq').
    simpl ec_client in Hpop. simpl ec_q in *.
    rewrite (bind_Ok _ _ _ _ _ Hpop).
    set (w1 := upd_ec ec (MkEmbargo c q', FlushPop) w) in *.
    assert (He1 : embargoes w1 !! ec = Some (MkEmbargo c q', FlushPop))
      by by apply upd_ec_lookup.
    rewrite (bind_Ok _ _ _ _ _ (peek_eq _ _ _ _ He1 Hwf')).
    rewrite (store_pc_Some _ _ _ _ _ He1). simpl ec_q.
    assert (Hlt1 : ec < length (embargoes w1))
      by by eapply lookup_lt_Some.
    eexists. split; [done|]. split.
    + exists q', (FlushTest (head_or_zero (Queue_contents q'))), D.
      split; [by apply upd_ec_lookup|].
      split; [split; [done|simpl in *; congruence]|].
      rewrite Hq' in *. rewrite Hq in Hcalls.
      apply Forall_cons in Hcalls as [_ Hcalls]. done.
    + left. rewrite (flush_measure_lookup _ _ _ _ (upd_ec_lookup _ _ _ Hlt1)).
      rewrite (flush_measure_lookup _ _ _ _ He). simpl ec_q.
      assert (q_n q ≠ 0).
      { rewrite <- Queue_contents_length, Hq. done. }
      lia.
  - exists w. split; [done|]. split.
    + exists q, FlushDone, D. done.
    + right. by rewrite (flush_measure_lookup _ _ _ _ He).
Qed.



(** A call into the embargo client keeps the invariant, with the call
    added to the submitted ones when it was accepted; once the queue is
    empty the call goes to the wrapped client and the queue stays empty. *)
Lemma Call_inv ec c D0 S w cl :
  flush_inv ec c D0 S w ->
  ∃ a w', embargoClient_Call ec cl w = Ok a w' ∧
          flush_inv ec c D0 (S ++ accepted_of (ACall ec cl) (VAnswer a)) w' ∧
          (passthrough ec w -> passthrough ec w' ∧ a = CallAnswer c cl).
Proof.
  intros (q & pc & D & He & [Hwf Hcap] & Hcalls & Hev & Hpc).
  assert (Hlt : ec < length (embargoes w)) by by eapply lookup_lt_Some.
  destruct (decide (q_n q = 0)) as [Hn|Hn].
  - (* passed through *)
    pose proof (Queue_contents_nil _ Hn) as Hnil.
    rewrite (Call_passthrough _ _ _ _ cl He Hn). simpl ec_client.
    eexists _, _. split; [done|]. split.
    + exists q, pc, (D ++ [cl]). split; [done|]. split; [done|].
      split; [done|]. split.
      { simpl. rewrite dispatched_app, dispatched_EvCall, Hev.
        by rewrite app_assoc. }
      simpl accepted_of. rewrite Hnil in *.
      destruct pc as [|x| |].
      * rewrite app_nil_r in *. by subst.
      * destruct Hpc as [Hpc ->]. rewrite app_nil_r in *. by subst.
      * by destruct Hpc as (x & rest & ? & _).
      * destruct Hpc as [_ ->]. done.
    + intros _. split; [|done]. by exists (MkEmbargo c q), pc.
  - (* queued, or refused *)
    assert (Hne : Queue_contents q ≠ []).
    { intros Hnil. apply Hn. by rewrite <- Queue_contents_length, Hnil. }
    assert (Hnp : ¬ passthrough ec w).
    { intros (e' & pc' & He' & Hn'). rewrite He in He'.
      by injection He' as <- <-. }
    rewrite (Call_not_passthrough _ _ _ _ cl He Hn).
    destruct (Call_Copy cl) as [err|cl'] eqn:Hc.
    { rewrite (push_copy_fails _ _ _ _ Hc).
      eexists _, _. split; [done|]. split; [|done].
      simpl accepted_of. rewrite app_nil_r.
      by exists q, pc, D. }
    destruct (decide (q_n q = q_cap q)) as [Hfull|Hroom].
    { rewrite (push_full _ _ _ _ _ _ He Hwf Hc Hfull).
      eexists _, _. split; [done|]. split; [|done].
      simpl accepted_of. rewrite app_nil_r.
      by exists q, pc, D. }
    destruct (push_room _ _ _ _ _ _ He Hwf Hc Hroom)
      as (q' & Hpush & Hwf' & Hcap' & Hq').
    simpl ec_q in *. simpl ec_client in *. rewrite Hpush.
    eexists _, _. split; [done|]. split; [|done].
    simpl accepted_of. rewrite Hc.
    exists q', pc, D.
    split; [by apply (upd_ec_lookup (alloc_Fulfiller w))|].
    split; [split; [done|simpl; congruence]|].
    split.
    { rewrite Hq'. apply Forall_app. split; [done|].
      constructor; [by eexists|constructor]. }
    split; [done|].
    assert (Hcs : calls (Queue_contents q')
                  = calls (Queue_contents q) ++ [cl']).
    { by rewrite Hq', calls_app. }
    destruct pc as [|x| |].
    + rewrite Hcs, app_assoc. by subst.
    + destruct Hpc as [Hpc ->]. split.
      * rewrite Hcs, app_assoc. by subst.
      * rewrite Hq'. by destruct (Queue_contents q).
    + destruct Hpc as (x & rest & Hq & Hpc).
      exists x, (rest ++ [Ecall (Some cl') (Some (length (fulfillers w)))]).
      split; [by rewrite Hq', Hq|].
      rewrite calls_app, app_assoc. by subst.
    + by destruct Hpc.
Qed.

Lemma flush_step_passthrough ec w w' :
  passthrough ec w -> flush_step ec w = Ok tt w' -> passthrough ec w'.
Proof.
  intros (e & pc & He & Hn) Hrun.
  assert (Hlt : ec < length (embargoes w)) by by eapply lookup_lt_Some.
  unfold flush_step in Hrun.
  rewrite (bind_Ok _ _ _ _ _ (load_pc_Some _ _ _ He)) in Hrun.
  cbn [snd] in Hrun.
  assert (Hpeek : ∀ w1 pc1, embargoes w1 !! ec = Some (e, pc1) ->
            embargoClient_peek ec w1 = Ok zero_ecall w1).
  { intros w1 pc1 He1. unfold embargoClient_peek.
    rewrite (bind_Ok _ _ _ _ _ (load_ec_Some _ _ _ He1)). simpl.
    unfold Queue_Len. by rewrite decide_True. }
  destruct pc as [|x| |].
  - rewrite (bind_Ok _ _ _ _ _ (Hpeek _ _ He)) in Hrun.
    rewrite (store_pc_Some _ _ _ _ _ He) in Hrun. injection Hrun as <-.
    eexists _, _. split; [by apply upd_ec_lookup|done].
  - destruct (e_call x) as [cl|].
    + rewrite (bind_Ok _ _ _ _ _ (load_ec_Some _ _ _ He)) in Hrun.
      cbn [fst] in Hrun. unfold Client_Call, bind, modify, ret in Hrun.
      set (w1 := set_settlers _ (emit _ w)) in Hrun.
      assert (He1 : embargoes w1 !! ec = Some (e, FlushTest x)) by done.
      rewrite (store_pc_Some _ _ _ _ _ He1) in Hrun. injection Hrun as <-.
      eexists _, _. split; [by apply (upd_ec_lookup w1)|done].
    + rewrite (store_pc_Some _ _ _ _ _ He) in Hrun. injection Hrun as <-.
      eexists _, _. split; [by apply upd_ec_lookup|done].
  - rewrite (bind_Ok _ _ _ _ _ (pop_empty _ _ _ _ He Hn)) in Hrun.
    rewrite (bind_Ok _ _ _ _ _ (Hpeek _ _ He)) in Hrun.
    rewrite (store_pc_Some _ _ _ _ _ He) in Hrun. injection Hrun as <-.
    eexists _, _. split; [by apply upd_ec_lookup|done].
  - injection Hrun as <-. by exists e, FlushDone.
Qed.

(** Any step of a goroutine that uses [ec] without closing it. *)
Lemma step_inv ec c D0 S w a :
  on_embargo ec a -> flush_inv ec c D0 S w ->
  ∃ v w', step a w = Ok v w' ∧
          flush_inv ec c D0 (S ++ accepted_of a v) w' ∧
          (passthrough ec w ->
             passthrough ec w' ∧
             ∀ cl, a = ACall ec cl -> v = VAnswer (CallAnswer c cl)).
Proof.
  intros Ha Hinv. destruct a as [f m|ec' cl|ec'|ec'|ec'|i r]; try done;
    simpl in Ha; subst ec'.
  - destruct (Call_inv _ _ _ _ _ cl Hinv) as (a & w' & Hrun & Hinv' & Hpt).
    exists (VAnswer a), w'. simpl. rewrite (bind_Ok _ _ _ _ _ Hrun).
    split; [done|]. split; [done|].
    intros Hp. destruct (Hpt Hp) as [Hp' ->]. split; [done|].
    by intros cl' [= ->].
  - destruct Hinv as (q & pc & D & He & Hrest).
    eexists _, w. simpl.
    rewrite (bind_Ok _ _ _ _ _ (WrappedClient_Some _ _ _ He)).
    split; [done|]. split.
    + simpl. rewrite app_nil_r. by exists q, pc, D.
    + done.
  - destruct (flush_step_inv _ _ _ _ _ Hinv) as (w' & Hrun & Hinv' & _).
    exists VUnit, w'. simpl. rewrite (bind_Ok _ _ _ _ _ Hrun).
    split; [done|]. split; [by rewrite app_nil_r|].
    intros Hp. split; [by eapply flush_step_passthrough|done].
Qed.

Lemma run_inv ec c D0 : ∀ sched S w,
  Forall (on_embargo ec) sched -> flush_inv ec c D0 S w ->
  ∃ vs w', run sched w = Ok vs w' ∧ length vs = length sched ∧
           flush_inv ec c D0 (S ++ submitted sched vs) w' ∧
           (passthrough ec w ->
              passthrough ec w' ∧
              ∀ j cl, sched !! j = Some (ACall ec cl) ->
                      vs !! j = Some (VAnswer (CallAnswer c cl))).
Proof.
  induction sched as [|a sched IH]; intros S w Hon Hinv.
  - exists [], w. simpl. rewrite app_nil_r. done.
  - apply Forall_cons in Hon as [Ha Hon].
    destruct (step_inv _ _ _ _ _ _ Ha Hinv) as (v & w1 & Hstep & Hinv1 & Hp1).
    destruct (IH _ _ Hon Hinv1) as (vs & w2 & Hrun & Hlen & Hinv2 & Hp2).
    exists (v :: vs), w2. simpl run.
    rewrite (bind_Ok _ _ _ _ _ Hstep), (bind_Ok _ _ _ _ _ Hrun).
    split; [done|]. split; [simpl; lia|]. split.
    + simpl submitted. by rewrite app_assoc.
    + intros Hp. destruct (Hp1 Hp) as [Hp' Hv].
      destruct (Hp2 Hp') as [Hp'' Hvs]. split; [done|].
      intros [|j] cl Hj; simpl in *.
      * injection Hj as ->. by rewrite (Hv cl).
      * by apply Hvs.
Qed.


Lemma newEmbargoClient_inv w0 c q0 :
  length q0 ≤ callQueueSize ->
  Forall (λ e, is_Some (e_call e)) q0 ->
  flush_inv (length (embargoes w0)) c
    (dispatched (length (embargoes w0)) (events w0)) (calls q0)
    (set_embargoes (λ l, l ++ [(MkEmbargo c (new_queue q0), FlushStart)]) w0).
Proof.
  intros Hlen Hcalls.
  destruct (new_queue_spec q0) as (Hwf & Hcap & _).
  pose proof (new_queue_contents q0 Hlen) as Hq.
  exists (new_queue q0), FlushStart, [].
  split; [simpl; by rewrite lookup_app_r, Nat.sub_diag|].
  split; [done|]. rewrite Hq. split; [done|].
  split; [by rewrite app_nil_r|done].
Qed.



(** ** Close *)

Lemma Close_loop_done n ec e pc w :
  embargoes w !! ec = Some (e, pc) -> q_n (ec_q e) = 0 ->
  Close_loop n ec w = Ok tt w.
Proof.
  intros He Hn.
  destruct n; simpl; rewrite (bind_Ok _ _ _ _ _ (load_ec_Some _ _ _ He));
    simpl; unfold Queue_Len; by rewrite decide_True.
Qed.

(** Closing an embargo client whose queued calls all still have a pending
    Fulfiller, no two the same: all of them are rejected with the
    queued-call-canceled error and the queue is left empty. *)
Lemma Close_loop_spec ec cl pc : ∀ cs n w q fps,
  embargoes w !! ec = Some (MkEmbargo cl q, pc) ->
  Queue_wf q -> Queue_contents q = cs ->
  Forall2 (λ c fli, tree_at w (e_f c) fli) cs fps ->
  NoDup (concat fps) -> length cs ≤ n ->
  ∃ w' q',
    Close_loop n ec w = Ok tt w' ∧
    embargoes w' = <[ec := (MkEmbargo cl q', pc)]> (embargoes w) ∧
    Queue_wf q' ∧ Queue_contents q' = [] ∧
    length (fulfillers w') = length (fulfillers w) ∧
    (∀ x, x ∉ concat fps -> fulfillers w' !! x = fulfillers w !! x) ∧
    (∀ x, x ∈ concat fps ->
       ∃ st', fulfillers w' !! x = Some st' ∧
              resolved_with (ErrorAnswer errQueueCallCancel) st') ∧
    settlers w' = settlers w ∧ captables w' = captables w ∧
    events w' = events w.
Proof.
  induction cs as [|c cs IH]; intros n w q fps He Hwf Hq Hall Hnd Hn.
  - apply Forall2_nil_inv_l in Hall as ->.
    assert (Hz : q_n q = 0) by by rewrite <- Queue_contents_length, Hq.
    exists w, q. rewrite (Close_loop_done _ _ _ _ _ He Hz).
    split; [done|]. split; [by rewrite list_insert_id|].
    split; [done|]. split; [done|]. split; [done|]. split; [done|].
    split; [|done]. simpl. intros x Hx. by apply elem_of_nil in Hx.
  - apply Forall2_cons_inv_l in Hall as (fl0 & fps' & Ht0 & Hall & ->).
    simpl in Hnd. apply NoDup_app in Hnd as (Hnd0 & Hdis & Hnd').
    destruct n as [|n]; [simpl in Hn; lia|].
    destruct (pop_eq _ _ _ _ _ _ He Hwf Hq)
      as (q1 & Hpop & Hwf1 & _ & _ & Hq1).
    simpl ec_client in Hpop.
    set (w1 := upd_ec ec (MkEmbargo cl q1, pc) w) in *.
    assert (Hlt : ec < length (embargoes w)) by by eapply lookup_lt_Some.
    pose proof Ht0 as [[m Hfp] _].
    destruct (footprint_Some_ptr _ _ _ _ Hfp) as (g & Hg & _).
    rewrite Hg in Ht0.
    destruct (Fulfiller_Reject_tree w1 g fl0 errQueueCallCancel)
      as (w2 & Hrej & Hlen2 & Hout2 & Hin2 & Hemb2 & Hset2 & Hcap2 & Hev2).
    { by eapply tree_at_agree. }
    destruct (IH n w2 q1 fps') as
      (w' & q' & Hloop & Hemb' & Hwf' & Hq' & Hlen' & Hout' & Hin' & Hset'
       & Hcap' & Hev').
    { rewrite Hemb2. by apply upd_ec_lookup. }
    { done. }
    { done. }
    { apply Forall2_same_length_lookup.
      split; [by eapply Forall2_length|]. intros i c' fl' Hc' Hfl'.
      eapply tree_at_agree.
      - by eapply (Forall2_lookup_lr _ _ _ _ _ _ Hall).
      - intros x Hx. rewrite Hout2; [done|].
        intros Hx0. apply (Hdis x Hx0).
        by eapply concat_lookup_elem_of. }
    { done. }
    { simpl in Hn. lia. }
    exists w', q'. split.
    { simpl Close_loop.
      rewrite (bind_Ok _ _ _ _ _ (load_ec_Some _ _ _ He)). simpl.
      unfold Queue_Len. rewrite decide_False
        by (rewrite <- Queue_contents_length, Hq; done).
      rewrite (bind_Ok _ _ _ _ _ Hpop), Hg.
      by rewrite (bind_Ok _ _ _ _ _ Hrej). }
    split.
    { rewrite Hemb', Hemb2. unfold w1. simpl.
      by rewrite list_insert_insert_eq. }
    split; [done|]. split; [done|].
    split; [by rewrite Hlen', Hlen2|].
    split.
    { intros x Hx. simpl in Hx. rewrite Hout', Hout2.
      - done.
      - intros Hx'. apply Hx, elem_of_app. by left.
      - intros Hx'. apply Hx, elem_of_app. by right. }
    split.
    { intros x Hx. simpl in Hx. apply elem_of_app in Hx as [Hx|Hx].
      - rewrite Hout'; [by apply Hin2|]. intros Hx'. by apply (Hdis x Hx).
      - by apply Hin'. }
    split; [by rewrite Hset', Hset2|].
    split; [by rewrite Hcap', Hcap2|]. by rewrite Hev', Hev2.
Qed.

Lemma Close_spec ec cl pc w q fps :
  embargoes w !! ec = Some (MkEmbargo cl q, pc) ->
  Queue_wf q ->
  Forall2 (λ c fli, tree_at w (e_f c) fli) (Queue_contents q) fps ->
  NoDup (concat fps) ->
  ∃ w' q',
    embargoClient_Close ec w = Ok tt w' ∧
    embargoes w' = <[ec := (MkEmbargo cl q', pc)]> (embargoes w) ∧
    Queue_contents q' = [] ∧
    (∀ c, c ∈ Queue_contents q ->
       ∃ g st', e_f c = Some g ∧ fulfillers w' !! g = Some st' ∧
                resolved_with (ErrorAnswer errQueueCallCancel) st') ∧
    (∀ x, x ∉ concat fps -> fulfillers w' !! x = fulfillers w !! x) ∧
    events w' = events w ++ [EvClose ec cl] ∧
    closes ec (events w') = closes ec (events w) ++ [cl].
Proof.
  intros He Hwf Hall Hnd.
  destruct (Close_loop_spec ec cl pc (Queue_contents q) (q_n q) w q fps)
    as (w1 & q' & Hloop & Hemb & _ & Hq' & _ & Hout & Hin & _ & _ & Hev);
    [done..|by rewrite Queue_contents_length|].
  exists (emit (EvClose ec cl) w1), q'. split.
  { unfold embargoClient_Close.
    rewrite (bind_Ok _ _ _ _ _ (load_ec_Some _ _ _ He)). simpl.
    unfold Queue_Len. by rewrite (bind_Ok _ _ _ _ _ Hloop). }
  split; [done|]. split; [done|]. split.
  { intros c Hc. apply list_elem_of_lookup in Hc as [i Hi].
    destruct (Forall2_lookup_l _ _ _ _ _ Hall Hi) as (fli & Hfli & [[n Hfp] _]).
    destruct (footprint_Some_ptr _ _ _ _ Hfp) as (g & Hg & Hgin).
    destruct (Hin g) as (st' & Hst' & Hres);
      [by eapply concat_lookup_elem_of|].
    by exists g, st'. }
  split; [done|]. simpl. rewrite Hev. split; [done|].
  unfold closes. rewrite omap_app. simpl. by rewrite decide_True.
Qed.

(** ** What every method keeps: initialisation, channels, answers *)

Lemma stable_refl st : stable st st.
Proof. by split. Qed.

Lemma stable_trans st1 st2 st3 :
  stable st1 st2 -> stable st2 st3 -> stable st1 st3.
Proof.
  intros [Ho1 Ha1] [Ho2 Ha2]. split.
  - intros Ho. destruct (Ho1 Ho) as [Ho' Hc']. destruct (Ho2 Ho') as [? ?].
    split; [done|congruence].
  - intros Ha. rewrite <- (Ha1 Ha). apply Ha2. by rewrite (Ha1 Ha).
Qed.

Lemma evolves_refl st : evolves st st.
Proof. split; [apply stable_refl|done]. Qed.

Lemma evolves_trans st1 st2 st3 :
  evolves st1 st2 -> evolves st2 st3 -> evolves st1 st3.
Proof.
  intros [Hs1 Hc1] [Hs2 Hc2]. split; [by eapply stable_trans|auto].
Qed.

Lemma Evolves_refl w : Evolves w w.
Proof.
  split.
  - intros x st Hx. exists st. split; [done|apply evolves_refl].
  - intros x st' Hx Hx'. congruence.
Qed.

Lemma Evolves_trans w1 w2 w3 : Evolves w1 w2 -> Evolves w2 w3 -> Evolves w1 w3.
Proof.
  intros [He1 Hn1] [He2 Hn2]. split.
  - intros x st Hx. destruct (He1 x st Hx) as (st2 & Hx2 & Hev1).
    destruct (He2 x st2 Hx2) as (st3 & Hx3 & Hev2).
    exists st3. split; [done|by eapply evolves_trans].
  - intros x st3 Hx3 Hx1.
    destruct (fulfillers w2 !! x) as [st2|] eqn:Hx2.
    + destruct (He2 x st2 Hx2) as (st3' & Hx3' & _ & Hc).
      assert (st3' = st3) as -> by congruence.
      apply Hc. by eapply Hn1.
    + by eapply Hn2.
Qed.

Lemma Evolves_same_fulfillers w w' :
  fulfillers w' = fulfillers w -> Evolves w w'.
Proof.
  intros Heq. split.
  - intros x st Hx. exists st. rewrite Heq. split; [done|apply evolves_refl].
  - intros x st' Hx Hx'. rewrite Heq in Hx. congruence.
Qed.

Lemma upd_Evolves w f st st' :
  fulfillers w !! f = Some st -> evolves st st' -> Evolves w (upd f st' w).
Proof.
  intros Hf Hev.
  assert (Hlt : f < length (fulfillers w)) by by eapply lookup_lt_Some.
  split.
  - intros x stx Hx. destruct (decide (x = f)) as [->|Hne].
    + exists st'. rewrite upd_lookup_eq by done.
      split; [done|]. by assert (stx = st) as -> by congruence.
    + exists stx. rewrite upd_lookup_ne by done.
      split; [done|apply evolves_refl].
  - intros x stx Hx Hx'. destruct (decide (x = f)) as [->|Hne];
      [congruence|]. rewrite upd_lookup_ne in Hx by done. congruence.
Qed.

Lemma evolves_inited c st : evolves st (inited c st).
Proof.
  unfold inited. destruct (f_once st) eqn:Ho; [apply evolves_refl|].
  split; [split|].
  - by rewrite Ho.
  - done.
  - unfold coherent. rewrite Ho. simpl. intros [-> _].
    exists (MkChan c false). split; [done|]. simpl. split; [done|].
    by intros [? ?].
Qed.

Lemma init_World_upd w f st :
  fulfillers w !! f = Some st ->
  fulfillers (init_World f st w)
  = fulfillers (upd f (inited (chan_next w) st) w).
Proof.
  intros Hf. unfold init_World, inited. destruct (f_once st); [|done].
  simpl. by rewrite list_insert_id.
Qed.

Lemma init_Evolves w f st :
  fulfillers w !! f = Some st -> Evolves w (init_World f st w).
Proof.
  intros Hf. eapply Evolves_trans.
  - apply (upd_Evolves w f st _ Hf (evolves_inited (chan_next w) st)).
  - apply Evolves_same_fulfillers. by apply init_World_upd.
Qed.

Lemma evolves_with_queue Q st : evolves st (with_queue Q st).
Proof. by split. Qed.

Lemma coherent_zero : coherent zero_Fulfiller.
Proof. by split. Qed.

(** *** Reading a successful run backwards *)

Lemma deref_Ok_inv fp w f w' :
  deref fp w = Ok f w' ->
  fp = Some f ∧ w' = w ∧ ∃ st, fulfillers w !! f = Some st.
Proof.
  destruct fp as [g|]; [|done]. unfold deref. intros Hrun.
  apply bind_Ok_inv in Hrun as (st & w1 & Hload & Hret).
  apply load_Ok_inv in Hload as [-> Hf]. injection Hret as <- <-.
  split; [done|]. split; [done|]. by exists st.
Qed.

Lemma init_Ok_inv f w w' :
  Fulfiller_init f w = Ok tt w' ->
  ∃ st, fulfillers w !! f = Some st ∧ w' = init_World f st w.
Proof.
  intros Hrun. destruct (fulfillers w !! f) as [st|] eqn:Hf.
  - exists st. split; [done|]. rewrite (init_Some _ _ _ Hf) in Hrun.
    by injection Hrun.
  - unfold Fulfiller_init, bind, load in Hrun. by rewrite Hf in Hrun.
Qed.

Lemma set_answer_Ok_inv f a w w' :
  set_answer f a w = Ok tt w' ->
  ∃ st, fulfillers w !! f = Some st ∧ w' = upd f (with_answer a st) w.
Proof.
  intros Hrun. destruct (fulfillers w !! f) as [st|] eqn:Hf.
  - exists st. split; [done|]. rewrite (set_answer_Some _ _ _ _ Hf) in Hrun.
    by injection Hrun.
  - unfold set_answer, bind, load in Hrun. by rewrite Hf in Hrun.
Qed.

Lemma queue_at_Ok_inv f i w pc w' : queue_at f i w = Ok pc w' -> w' = w.
Proof.
  unfold queue_at. intros Hrun.
  apply bind_Ok_inv in Hrun as (st & w1 & Hload & Hret).
  apply load_Ok_inv in Hload as [-> Hf].
  destruct (f_queue st !! i); [|done]. by injection Hret.
Qed.

Lemma set_queue_at_Ok_inv f i x w w' :
  set_queue_at f i x w = Ok tt w' ->
  ∃ st Q, fulfillers w !! f = Some st ∧ w' = upd f (with_queue Q st) w.
Proof.
  unfold set_queue_at. intros Hrun.
  apply bind_Ok_inv in Hrun as (st & w1 & Hload & Hret).
  apply load_Ok_inv in Hload as [-> Hf].
  case_decide; [|done]. injection Hret as <-.
  by exists st, (<[i := x]> (f_queue st)).
Qed.

Lemma close_resolved_Ok_inv f w w' :
  close_resolved f w = Ok tt w' ->
  ∃ st c, fulfillers w !! f = Some st ∧
          f_resolved st = Some (MkChan c false) ∧
          w' = upd f (with_closed c st) w.
Proof.
  unfold close_resolved. intros Hrun.
  apply bind_Ok_inv in Hrun as (st & w1 & Hload & Hret).
  apply load_Ok_inv in Hload as [-> Hf].
  destruct (f_resolved st) as [[c b]|] eqn:Hr; [|done].
  destruct b; [done|]. simpl in Hret. injection Hret as <-.
  by exists st, c.
Qed.

Lemma for_each_Evolves {A} (body : A -> M unit) :
  (∀ a w w', body a w = Ok tt w' -> Evolves w w') ->
  ∀ l w w', for_each l body w = Ok tt w' -> Evolves w w'.
Proof.
  intros Hbody. induction l as [|a l IH]; intros w w' Hrun.
  - injection Hrun as <-. apply Evolves_refl.
  - rewrite for_each_cons in Hrun.
    apply bind_Ok_inv in Hrun as ([] & w1 & Ha & Hl).
    eapply Evolves_trans; [by eapply Hbody|by eapply IH].
Qed.

(** A Fulfiller that holds the answer [a] with its channel still open,
    between the assignment to [f.answer] and [close(f.resolved)], and the
    coherent Fulfiller that closing the channel makes of it. *)
Lemma resolve_Evolves w f st a w2 wL w' :
  fulfillers w !! f = Some st ->
  f_answer (inited (chan_next w) st) = None ->
  w2 = upd f (with_answer a (inited (chan_next w) st)) (init_World f st w) ->
  Evolves w2 wL ->
  close_resolved f wL = Ok tt w' ->
  Evolves w w' ∧
  ∃ st', fulfillers w' !! f = Some st' ∧ resolved_with a st'.
Proof.
  intros Hf Ha1 -> HevL Hclose.
  set (st1 := inited (chan_next w) st) in *.
  set (w1 := init_World f st w) in *.
  assert (Hflt : f < length (fulfillers w)) by by eapply lookup_lt_Some.
  assert (Hf2 : fulfillers (upd f (with_answer a st1) w1) !! f
                = Some (with_answer a st1)).
  { apply upd_lookup_eq. unfold w1. by rewrite init_World_length. }
  apply close_resolved_Ok_inv in Hclose as (stL & c & HfL & HrL & ->).
  destruct HevL as [HeL HnL].
  destruct (HeL f _ Hf2) as (stL' & HfL' & [[HoL HaL] _]).
  assert (stL' = stL) as -> by congruence.
  destruct (HoL (inited_once _ _)) as [HoL' HcL].
  specialize (HaL ltac:(by eexists)). simpl in HaL, HcL.
  assert (HlenL : f < length (fulfillers wL)) by by eapply lookup_lt_Some.
  assert (Hres : resolved_with a (with_closed c stL)).
  { split; [done|]. split; [done|]. by exists c. }
  split; [|exists (with_closed c stL); split; [by apply upd_lookup_eq|done]].
  split.
  - intros x stx Hx. destruct (decide (x = f)) as [->|Hne].
    + assert (stx = st) as -> by congruence.
      exists (with_closed c stL). split; [by apply upd_lookup_eq|].
      split; [split|].
      * intros Ho. split; [done|].
        assert (Heq : st1 = st) by (unfold st1, inited; by rewrite Ho).
        rewrite Heq, HrL in HcL. by rewrite <- HcL.
      * intros Hsome. unfold st1 in Ha1. rewrite inited_answer in Ha1.
        rewrite Ha1 in Hsome. by destruct Hsome.
      * intros _. unfold coherent. simpl. rewrite HoL'.
        exists (MkChan c true). split; [done|]. simpl. rewrite HaL.
        split; [by eexists|done].
    + assert (Hx2 : fulfillers (upd f (with_answer a st1) w1) !! x = Some stx).
      { rewrite upd_lookup_ne by done. unfold w1.
        by rewrite init_World_lookup_ne. }
      destruct (HeL x stx Hx2) as (stx' & Hx' & Hev).
      exists stx'. by rewrite upd_lookup_ne.
  - intros x stx Hx Hxw. destruct (decide (x = f)) as [->|Hne]; [congruence|].
    rewrite upd_lookup_ne in Hx by done. apply (HnL x stx Hx).
    rewrite upd_lookup_ne by done. unfold w1.
    by rewrite init_World_lookup_ne.
Qed.

(** Whenever [Reject] returns, every Fulfiller has evolved and the
    rejected one holds the error. *)
Lemma Reject_fuel_Evolves fuel : ∀ fp err w w',
  Reject_fuel fuel fp err w = Ok tt w' ->
  Evolves w w' ∧
  ∃ f e st', fp = Some f ∧ err = Some e ∧ fulfillers w' !! f = Some st' ∧
             resolved_with (ErrorAnswer e) st'.
Proof.
  induction fuel as [|fuel IH]; intros fp [e|] w w' Hrun; try done.
  rewrite Reject_fuel_S in Hrun.
  apply bind_Ok_inv in Hrun as (f & w0 & Hderef & Hrun).
  apply deref_Ok_inv in Hderef as (-> & -> & st & Hf).
  apply bind_Ok_inv in Hrun as ([] & w1 & Hinit & Hrun).
  rewrite (init_Some _ _ _ Hf) in Hinit. injection Hinit as <-.
  rewrite (bind_Ok _ _ _ _ _ (load_Some _ _ _ (init_World_lookup _ _ _ Hf)))
    in Hrun.
  destruct (f_answer (inited (chan_next w) st)) eqn:Ha1; [done|].
  apply bind_Ok_inv in Hrun as ([] & w2 & Hset & Hrun).
  rewrite (set_answer_Some _ _ _ _ (init_World_lookup _ _ _ Hf)) in Hset.
  injection Hset as <-.
  apply bind_Ok_inv in Hrun as ([] & wL & Hloop & Hclose).
  assert (HevL : Evolves
            (upd f (with_answer (ErrorAnswer e) (inited (chan_next w) st))
                 (init_World f st w)) wL).
  { eapply for_each_Evolves; [|exact Hloop].
    intros i wi wi' Hbody.
    apply bind_Ok_inv in Hbody as (pc & wi0 & Hq & Hbody).
    apply queue_at_Ok_inv in Hq as ->.
    apply bind_Ok_inv in Hbody as ([] & wi1 & Hrej & Hsetq).
    apply IH in Hrej as [Hev _].
    apply set_queue_at_Ok_inv in Hsetq as (stq & Q & Hfq & ->).
    eapply Evolves_trans; [done|].
    eapply upd_Evolves; [done|apply evolves_with_queue]. }
  destruct (resolve_Evolves w f st (ErrorAnswer e) _ wL w' Hf Ha1 eq_refl
              HevL Hclose) as (Hev & st' & Hf' & Hres).
  split; [done|]. by exists f, e, st'.
Qed.

Lemma Fulfiller_Reject_Evolves fp err w w' :
  Fulfiller_Reject fp err w = Ok tt w' ->
  Evolves w w' ∧
  ∃ f e st', fp = Some f ∧ err = Some e ∧ fulfillers w' !! f = Some st' ∧
             resolved_with (ErrorAnswer e) st'.
Proof. apply Reject_fuel_Evolves. Qed.

Lemma emptyQueue_loop_Evolves f s : ∀ idx qs w qs' w',
  emptyQueue_loop f s idx qs w = Ok qs' w' -> Evolves w w'.
Proof.
  induction idx as [|i idx IH]; intros qs w qs' w' Hrun.
  - injection Hrun as <- <-. apply Evolves_refl.
  - simpl in Hrun.
    apply bind_Ok_inv in Hrun as (qs1 & w1 & Hbody & Hloop).
    eapply Evolves_trans; [|by eapply IH].
    unfold emptyQueue_body in Hbody.
    apply bind_Ok_inv in Hbody as (pc & w0 & Hq & Hbody).
    apply queue_at_Ok_inv in Hq as ->.
    destruct (TransformPtr _ _) as [err|c].
    { apply bind_Ok_inv in Hbody as ([] & w2 & Hrej & Hret).
      injection Hret as <- <-. by apply Fulfiller_Reject_Evolves in Hrej as [? _]. }
    destruct (negb _).
    { apply bind_Ok_inv in Hbody as ([] & w2 & Hrej & Hret).
      injection Hret as <- <-. by apply Fulfiller_Reject_Evolves in Hrej as [? _]. }
    injection Hbody as <- <-. apply Evolves_refl.
Qed.

Lemma embargo_entry_fulfillers m kq w w' :
  embargo_entry m kq w = Ok tt w' -> fulfillers w' = fulfillers w.
Proof.
  unfold embargo_entry, bind, gets. simpl.
  destruct (CapTable m w !! N.to_nat kq.1); [|done].
  by intros [= <-].
Qed.

Lemma Fulfill_Evolves f s w w' :
  Fulfiller_Fulfill f s w = Ok tt w' ->
  Evolves w w' ∧
  ∃ st', fulfillers w' !! f = Some st' ∧ resolved_with (ImmediateAnswer s) st'.
Proof.
  unfold Fulfiller_Fulfill. intros Hrun.
  apply bind_Ok_inv in Hrun as ([] & w1 & Hinit & Hrun).
  apply init_Ok_inv in Hinit as (st & Hf & ->).
  rewrite (bind_Ok _ _ _ _ _ (load_Some _ _ _ (init_World_lookup _ _ _ Hf)))
    in Hrun.
  destruct (f_answer (inited (chan_next w) st)) eqn:Ha1; [done|].
  apply bind_Ok_inv in Hrun as ([] & w2 & Hset & Hrun).
  rewrite (set_answer_Some _ _ _ _ (init_World_lookup _ _ _ Hf)) in Hset.
  injection Hset as <-.
  apply bind_Ok_inv in Hrun as (qs & w4 & Hempty & Hrun).
  apply bind_Ok_inv in Hrun as ([] & w5 & Hent & Hclose).
  eapply (resolve_Evolves w f st (ImmediateAnswer s) _ w5 w' Hf Ha1 eq_refl);
    [|done].
  unfold Fulfiller_emptyQueue in Hempty.
  apply bind_Ok_inv in Hempty as (st2 & w2' & Hload & Hempty).
  apply load_Ok_inv in Hload as [-> _].
  apply bind_Ok_inv in Hempty as (qs' & w3 & Hloop & Hempty).
  apply bind_Ok_inv in Hempty as (st3 & w3' & Hload & Hempty).
  apply load_Ok_inv in Hload as [-> Hf3].
  injection Hempty as <- <-.
  eapply Evolves_trans; [by eapply emptyQueue_loop_Evolves|].
  eapply Evolves_trans.
  { eapply (upd_Evolves w3 f st3); [done|].
    apply (evolves_with_queue [] (MkFulfiller (f_once st3) (f_resolved st3)
                                    (f_answer st3) (f_queue st3) 0)). }
  eapply (for_each_Evolves (embargo_entry (Struct_Message s))); [|exact Hent].
  intros kq wi wi' Hbody. apply Evolves_same_fulfillers.
  by eapply embargo_entry_fulfillers.
Qed.

(** *** The methods that do not resolve *)

Lemma init_None w f :
  fulfillers w !! f = None ->
  Fulfiller_init f w = Fail (Panic nil_deref) w.
Proof. intros Hf. unfold Fulfiller_init, bind, load. by rewrite Hf. Qed.

Lemma wait_Done_Some w f st :
  fulfillers w !! f = Some st ->
  wait_Done f w =
    match f_resolved (inited (chan_next w) st) with
    | Some ch =>
      if ch_closed ch then Ok tt (init_World f st w)
      else Fail Blocked (init_World f st w)
    | None => Fail Blocked (init_World f st w)
    end.
Proof.
  intros Hf. unfold wait_Done.
  rewrite (bind_Ok _ _ _ _ _ (Done_Some _ _ _ Hf)).
  rewrite (bind_Ok _ _ _ _ _ (load_Some _ _ _ (init_World_lookup _ _ _ Hf))).
  destruct (f_resolved _) as [[c b]|]; [|done]. by destruct b.
Qed.

(** The store after a method that does not resolve: the Fulfiller has
    been initialised, and at most one call has been queued on it. *)
Lemma invoke_quiet m f w v w' :
  ¬ resolving m -> invoke m f w = Ok v w' ->
  ∃ st, fulfillers w !! f = Some st ∧
        (fulfillers w' = fulfillers (init_World f st w) ∨
         ∃ tr cc, fulfillers w'
                  = fulfillers (enqueued f tr cc (init_World f st w))).
Proof.
  intros Hm Hrun.
  destruct (fulfillers w !! f) as [st|] eqn:Hf.
  2:{ exfalso. destruct m; try (by destruct Hm); simpl in Hrun;
        unfold Fulfiller_Done, Fulfiller_Peek, Fulfiller_Struct,
          Fulfiller_PipelineCall, Fulfiller_PipelineClose, wait_Done,
          Fulfiller_Done, bind in Hrun;
        by rewrite (init_None _ _ Hf) in Hrun. }
  exists st. split; [done|].
  destruct m as [s|err| | | |tr cl|tr]; try (by destruct Hm); simpl in Hrun.
  - rewrite (bind_Ok _ _ _ _ _ (Done_Some _ _ _ Hf)) in Hrun.
    injection Hrun as <- <-. by left.
  - rewrite (bind_Ok _ _ _ _ _ (Peek_Some _ _ _ Hf)) in Hrun.
    injection Hrun as <- <-. by left.
  - apply bind_Ok_inv in Hrun as (a & w1 & Hs & Hret).
    injection Hret as <- <-. unfold Fulfiller_Struct in Hs.
    apply bind_Ok_inv in Hs as ([] & w2 & Hwait & Hs).
    rewrite (wait_Done_Some _ _ _ Hf) in Hwait.
    assert (w2 = init_World f st w) as ->.
    { destruct (f_resolved _) as [[c b]|]; [|done]. destruct b; [|done].
      by injection Hwait. }
    rewrite (bind_Ok _ _ _ _ _ (Peek_inited _ _ _ Hf)) in Hs.
    destruct (f_answer st); [|done]. injection Hs as <- <-. by left.
  - apply bind_Ok_inv in Hrun as (a & w1 & Hp & Hret).
    injection Hret as <- <-.
    rewrite (PipelineCall_eq _ _ _ _ _ Hf) in Hp.
    rewrite (PipelineCall_locked_eq _ _ _ _ _ (init_World_lookup _ _ _ Hf))
      in Hp.
    destruct (f_answer _).
    { injection Hp as <- <-. by left. }
    case_decide.
    { injection Hp as <- <-. by left. }
    destruct (Call_Copy cl) as [err|cc].
    { injection Hp as <- <-. by left. }
    injection Hp as <- <-. right. by exists tr, cc.
  - apply bind_Ok_inv in Hrun as ([] & w1 & Hs & Hret).
    injection Hret as <- <-. unfold Fulfiller_PipelineClose in Hs.
    apply bind_Ok_inv in Hs as ([] & w2 & Hwait & Hs).
    rewrite (wait_Done_Some _ _ _ Hf) in Hwait.
    assert (w2 = init_World f st w) as ->.
    { destruct (f_resolved _) as [[c b]|]; [|done]. destruct b; [|done].
      by injection Hwait. }
    rewrite (bind_Ok _ _ _ _ _ (Peek_inited _ _ _ Hf)) in Hs.
    destruct (f_answer st); [|done]. injection Hs as <-. by left.
Qed.

Lemma enqueued_Evolves w f tr cc st :
  fulfillers w !! f = Some st -> Evolves w (enqueued f tr cc w).
Proof.
  intros Hf.
  assert (Hlt : f < length (fulfillers w)) by by eapply lookup_lt_Some.
  split.
  - intros x stx Hx. simpl. rewrite Hf.
    destruct (decide (x = f)) as [->|Hne].
    + eexists. rewrite list_lookup_insert_eq by (rewrite length_app; lia).
      split; [done|]. assert (stx = st) as -> by congruence.
      apply evolves_with_queue.
    + exists stx. rewrite list_lookup_insert_ne by done.
      split; [by apply lookup_app_l_Some|apply evolves_refl].
  - intros x stx Hx Hxw. simpl in Hx. rewrite Hf in Hx.
    destruct (decide (x = f)) as [->|Hne]; [congruence|].
    rewrite list_lookup_insert_ne in Hx by done.
    apply lookup_ge_None in Hxw.
    rewrite lookup_app_r in Hx by done.
    destruct (x - length (fulfillers w)) as [|n]; [|done].
    injection Hx as <-. apply coherent_zero.
Qed.

Lemma enqueued_answers w f tr cc x stx :
  fulfillers w !! x = Some stx ->
  ∃ st', fulfillers (enqueued f tr cc w) !! x = Some st' ∧
         f_answer st' = f_answer stx.
Proof.
  intros Hx. simpl. destruct (fulfillers w !! f) as [st|] eqn:Hf;
    [|by exists stx].
  assert (Hlt : f < length (fulfillers w)) by by eapply lookup_lt_Some.
  destruct (decide (x = f)) as [->|Hne].
  - eexists. rewrite list_lookup_insert_eq by (rewrite length_app; lia).
    split; [done|]. simpl. congruence.
  - exists stx. rewrite list_lookup_insert_ne by done.
    split; [by apply lookup_app_l_Some|done].
Qed.

Lemma init_World_answers w f st x stx :
  fulfillers w !! f = Some st -> fulfillers w !! x = Some stx ->
  ∃ st', fulfillers (init_World f st w) !! x = Some st' ∧
         f_answer st' = f_answer stx.
Proof.
  intros Hf Hx. destruct (decide (x = f)) as [->|Hne].
  - exists (inited (chan_next w) st). rewrite init_World_lookup by done.
    split; [done|]. rewrite inited_answer. congruence.
  - exists stx. by rewrite init_World_lookup_ne.
Qed.

Lemma quiet_Evolves m f w v w' :
  ¬ resolving m -> invoke m f w = Ok v w' -> Evolves w w'.
Proof.
  intros Hm Hrun.
  destruct (invoke_quiet _ _ _ _ _ Hm Hrun) as (st & Hf & Hw).
  destruct Hw as [Hw|(tr & cc & Hw)].
  - eapply Evolves_trans; [by apply init_Evolves|].
    by apply Evolves_same_fulfillers.
  - eapply Evolves_trans; [by apply init_Evolves|].
    eapply Evolves_trans;
      [by eapply enqueued_Evolves, init_World_lookup|].
    by apply Evolves_same_fulfillers.
Qed.

(** A method that does not resolve leaves every answer as it was. *)
Lemma quiet_answers m f w v w' x stx :
  ¬ resolving m -> invoke m f w = Ok v w' ->
  fulfillers w !! x = Some stx ->
  ∃ st', fulfillers w' !! x = Some st' ∧ f_answer st' = f_answer stx.
Proof.
  intros Hm Hrun Hx.
  destruct (invoke_quiet _ _ _ _ _ Hm Hrun) as (st & Hf & Hw).
  destruct (init_World_answers _ _ _ _ _ Hf Hx) as (st1 & Hx1 & Ha1).
  destruct Hw as [Hw|(tr & cc & Hw)].
  - exists st1. by rewrite Hw.
  - destruct (enqueued_answers _ f tr cc _ _ Hx1) as (st2 & Hx2 & Ha2).
    exists st2. rewrite Hw. split; [done|congruence].
Qed.

(** Every method, when it returns, has let every Fulfiller evolve. *)
Lemma invoke_Evolves m f w v w' : invoke m f w = Ok v w' -> Evolves w w'.
Proof.
  intros Hrun.
  destruct m as [s|err| | | |tr cl|tr];
    try (refine (quiet_Evolves _ _ _ _ _ _ Hrun); by intros []).
  - simpl in Hrun. apply bind_Ok_inv in Hrun as ([] & w1 & Hrun & Hret).
    injection Hret as <- <-. by apply Fulfill_Evolves in Hrun as [? _].
  - simpl in Hrun. apply bind_Ok_inv in Hrun as ([] & w1 & Hrun & Hret).
    injection Hret as <- <-.
    by apply Fulfiller_Reject_Evolves in Hrun as [? _].
Qed.

Lemma Reject_init_first f e w st :
  fulfillers w !! f = Some st ->
  Fulfiller_Reject (Some f) (Some e) (init_World f st w)
  = Fulfiller_Reject (Some f) (Some e) w.
Proof.
  intros Hf. unfold Fulfiller_Reject.
  rewrite init_World_length, !Reject_fuel_S. unfold bind.
  rewrite (deref_Some _ _ _ Hf),
    (deref_Some _ _ _ (init_World_lookup _ _ _ Hf)).
  by rewrite (init_Some _ _ _ Hf), (init_inited _ _ _ Hf).
Qed.

Lemma Reject_dangling f e w :
  fulfillers w !! f = None ->
  Fulfiller_Reject (Some f) (Some e) w = Fail (Panic nil_deref) w.
Proof.
  intros Hf. unfold Fulfiller_Reject. rewrite Reject_fuel_S.
  unfold bind, deref, bind, load, ret. by rewrite Hf.
Qed.

(** Every method but [Reject] of a nil error starts with [init]. *)
Lemma invoke_init_first m f w :
  m ≠ MReject None ->
  invoke m f w = (Fulfiller_init f >> invoke m f) w.
Proof.
  intros Hm. destruct (fulfillers w !! f) as [st|] eqn:Hf.
  - rewrite (bind_Ok _ _ _ _ _ (init_Some _ _ _ Hf)).
    pose proof (init_Some _ _ _ Hf) as Hi.
    pose proof (init_inited _ _ _ Hf) as Hii.
    destruct m as [s|[e|]| | | |tr cl|tr]; try done; cbn [invoke].
    + unfold Fulfiller_Fulfill, bind. by rewrite Hi, Hii.
    + unfold bind. by rewrite (Reject_init_first _ _ _ _ Hf).
    + unfold Fulfiller_Done, bind. by rewrite Hi, Hii.
    + unfold Fulfiller_Peek, bind. by rewrite Hi, Hii.
    + unfold Fulfiller_Struct, wait_Done, Fulfiller_Done, bind.
      by rewrite Hi, Hii.
    + unfold Fulfiller_PipelineCall, bind. by rewrite Hi, Hii.
    + unfold Fulfiller_PipelineClose, wait_Done, Fulfiller_Done, bind.
      by rewrite Hi, Hii.
  - rewrite (bind_Fail _ _ _ _ _ (init_None _ _ Hf)).
    pose proof (init_None _ _ Hf) as Hi.
    destruct m as [s|[e|]| | | |tr cl|tr]; try done; cbn [invoke].
    + unfold Fulfiller_Fulfill, bind. by rewrite Hi.
    + unfold bind. by rewrite (Reject_dangling _ _ _ Hf).
    + unfold Fulfiller_Done, bind. by rewrite Hi.
    + unfold Fulfiller_Peek, bind. by rewrite Hi.
    + unfold Fulfiller_Struct, wait_Done, Fulfiller_Done, bind.
      by rewrite Hi.
    + unfold Fulfiller_PipelineCall, bind. by rewrite Hi.
    + unfold Fulfiller_PipelineClose, wait_Done, Fulfiller_Done, bind.
      by rewrite Hi.
Qed.

Lemma init_twice f w :
  (Fulfiller_init f >> Fulfiller_init f) w = Fulfiller_init f w.
Proof.
  destruct (fulfillers w !! f) as [st|] eqn:Hf.
  - rewrite (bind_Ok _ _ _ _ _ (init_Some _ _ _ Hf)).
    by rewrite (init_inited _ _ _ Hf), (init_Some _ _ _ Hf).
  - by rewrite (bind_Fail _ _ _ _ _ (init_None _ _ Hf)), (init_None _ _ Hf).
Qed.

Lemma coherent_inited c st : coherent st -> coherent (inited c st).
Proof. apply evolves_inited. Qed.

(** What [Done] and [Peek] report on an initialised coherent Fulfiller. *)
Lemma observe_coherent w f st :
  fulfillers w !! f = Some st -> f_once st = true -> coherent st ->
  ∃ ch, f_resolved st = Some ch ∧
        Fulfiller_Done f w = Ok (Some (ch_id ch)) w ∧
        Fulfiller_Peek f w = Ok (f_answer st) w ∧
        (ch_closed ch = true ↔ is_Some (f_answer st)).
Proof.
  intros Hf Ho Hc. unfold coherent in Hc. rewrite Ho in Hc.
  destruct Hc as (ch & Hr & Hiff). exists ch. split; [done|].
  rewrite (Done_Some _ _ _ Hf), (Peek_Some _ _ _ Hf).
  rewrite (init_World_once _ _ _ Ho). unfold inited. rewrite Ho, Hr.
  by split; [|split].
Qed.

(** C9 (amended).  The zero Fulfiller is coherent and has no answer.  On a
    coherent Fulfiller, every method except [Reject] of a nil error behaves
    as [init] followed by itself, and [init] twice is [init] once; [Done]
    and [Peek] then report a channel and the answer, the channel being
    closed exactly when there is an answer.  When the method returns, every
    Fulfiller of the store has evolved (it keeps its channel and its
    answer, and stays coherent); on this one [Done] reports the same
    channel as before, closed exactly when [Peek] reports an answer, and
    the answer is the struct after [Fulfill], the error after [Reject],
    and the one from before after any other method. *)
Theorem Fulfiller_resolution_coherent m f w st :
  fulfillers w !! f = Some st -> coherent st -> m ≠ MReject None ->
  (coherent zero_Fulfiller ∧ f_answer zero_Fulfiller = None) ∧
  invoke m f w = (Fulfiller_init f >> invoke m f) w ∧
  (Fulfiller_init f >> Fulfiller_init f) w = Fulfiller_init f w ∧
  ∃ ch,
    Fulfiller_Done f w = Ok (Some (ch_id ch)) (init_World f st w) ∧
    Fulfiller_Peek f w = Ok (f_answer st) (init_World f st w) ∧
    f_resolved <$> fulfillers (init_World f st w) !! f = Some (Some ch) ∧
    (ch_closed ch = true ↔ is_Some (f_answer st)) ∧
    ∀ v w', invoke m f w = Ok v w' ->
      Evolves w w' ∧
      ∃ st' ch',
        fulfillers w' !! f = Some st' ∧ f_resolved st' = Some ch' ∧
        ch_id ch' = ch_id ch ∧
        Fulfiller_Done f w' = Ok (Some (ch_id ch')) w' ∧
        Fulfiller_Peek f w' = Ok (f_answer st') w' ∧
        (ch_closed ch' = true ↔ is_Some (f_answer st')) ∧
        f_answer st' =
          match m with
          | MFulfill s => Some (ImmediateAnswer s)
          | MReject (Some e) => Some (ErrorAnswer e)
          | _ => f_answer st
          end.
Proof.
  intros Hf Hc Hm.
  split; [split; [apply coherent_zero|done]|].
  split; [by apply invoke_init_first|].
  split; [apply init_twice|].
  pose proof (init_World_lookup _ _ _ Hf) as Hf1.
  pose proof (inited_once (chan_next w) st) as Ho1.
  pose proof (coherent_inited (chan_next w) _ Hc) as Hc1.
  destruct (observe_coherent _ _ _ Hf1 Ho1 Hc1)
    as (ch & Hr1 & HD1 & HP1 & Hiff1).
  rewrite inited_answer in Hiff1.
  exists ch.
  split; [by rewrite (Done_Some _ _ _ Hf), Hr1|].
  split; [by apply Peek_Some|].
  split; [by rewrite Hf1; simpl; rewrite Hr1|].
  split; [done|].
  intros v w' Hrun.
  split; [by eapply invoke_Evolves|].
  assert (Hrun1 : invoke m f (init_World f st w) = Ok v w').
  { rewrite (invoke_init_first _ _ _ Hm) in Hrun.
    by rewrite (bind_Ok _ _ _ _ _ (init_Some _ _ _ Hf)) in Hrun. }
  destruct (invoke_Evolves _ _ _ _ _ Hrun1) as [Hev _].
  destruct (Hev _ _ Hf1) as (st' & Hf' & [[Hst _] Hco]).
  destruct (Hst Ho1) as [Ho' Hid]. specialize (Hco Hc1).
  destruct (observe_coherent _ _ _ Hf' Ho' Hco)
    as (ch' & Hr' & HD' & HP' & Hiff').
  exists st', ch'.
  split; [done|]. split; [done|].
  split; [rewrite Hr', Hr1 in Hid; by injection Hid|].
  split; [done|]. split; [done|]. split; [done|].
  assert (Hquiet : ¬ resolving m -> f_answer st' = f_answer st).
  { intros Hq.
    destruct (quiet_answers _ _ _ _ _ _ _ Hq Hrun Hf) as (st2 & Hf2 & Ha).
    congruence. }
  destruct m as [s|[e|]| | | |tr cl|tr]; try done;
    try (apply Hquiet; by intros []).
  - simpl in Hrun. apply bind_Ok_inv in Hrun as ([] & w2 & Hrun & Hret).
    injection Hret as <- <-.
    apply Fulfill_Evolves in Hrun as (_ & st2 & Hf2 & Ha & _).
    congruence.
  - simpl in Hrun. apply bind_Ok_inv in Hrun as ([] & w2 & Hrun & Hret).
    injection Hret as <- <-.
    apply Fulfiller_Reject_Evolves in Hrun
      as (_ & f2 & e2 & st2 & Hfp & He & Hf2 & Ha & _).
    injection Hfp as <-. injection He as <-. congruence.
Qed.

(** ** Struct and PipelineClose: waiting for the answer *)

Lemma coherent_answer_once st a :
  coherent st -> f_answer st = Some a ->
  f_once st = true ∧ ∃ c, f_resolved st = Some (MkChan c true).
Proof.
  unfold coherent. intros Hc Ha. destruct (f_once st).
  - destruct Hc as ([c b] & Hr & Hiff). split; [done|]. exists c.
    rewrite Hr. simpl in Hiff. destruct Hiff as [_ Hb].
    by rewrite Hb by by rewrite Ha.
  - destruct Hc as [Hn _]. congruence.
Qed.

Lemma coherent_unresolved_open st c :
  coherent st -> f_answer st = None ->
  ∃ ch, f_resolved (inited c st) = Some ch ∧ ch_closed ch = false.
Proof.
  unfold coherent, inited. intros Hc Ha. destruct (f_once st).
  - destruct Hc as (ch & Hr & Hiff). exists ch. split; [done|].
    destruct (ch_closed ch); [|done].
    destruct Hiff as [Hb _]. rewrite Ha in Hb. by destruct (Hb eq_refl).
  - by exists (MkChan c false).
Qed.

(** X1.  [Struct] on a Fulfiller whose channel is closed exactly when it holds
    an answer: with an answer it returns at once, handing the call to that
    answer, and changes nothing; without one it initialises the Fulfiller
    and does not return. *)
Theorem Struct_waits_for_answer (w : World) (f : FulfillerId)
    (st : Fulfiller) :
  fulfillers w !! f = Some st -> coherent st ->
  Fulfiller_Struct f w =
    match f_answer st with
    | Some a => Ok a w
    | None => Fail Blocked (init_World f st w)
    end.
Proof.
  intros Hf Hc. unfold Fulfiller_Struct, bind.
  rewrite (wait_Done_Some _ _ _ Hf).
  destruct (f_answer st) as [a|] eqn:Ha.
  - destruct (coherent_answer_once _ _ Hc Ha) as (Ho & c & Hr).
    unfold inited. rewrite Ho, Hr. simpl.
    rewrite (init_World_once _ _ _ Ho), (Peek_Some _ _ _ Hf).
    by rewrite (init_World_once _ _ _ Ho), Ha.
  - destruct (coherent_unresolved_open _ (chan_next w) Hc Ha)
      as (ch & -> & ->). done.
Qed.

(** X2.  [PipelineClose] under the same condition: with an answer it calls
    [PipelineClose] on that answer, once and with the same transform, and
    changes nothing else; without one it does not return and makes no
    call. *)
Theorem PipelineClose_waits_for_answer (w : World) (f : FulfillerId)
    (st : Fulfiller) (tr : list PipelineOp) :
  fulfillers w !! f = Some st -> coherent st ->
  Fulfiller_PipelineClose f tr w =
    match f_answer st with
    | Some a => Ok tt (emit (EvPipelineClose a tr) w)
    | None => Fail Blocked (init_World f st w)
    end.
Proof.
  intros Hf Hc. unfold Fulfiller_PipelineClose, bind.
  rewrite (wait_Done_Some _ _ _ Hf).
  destruct (f_answer st) as [a|] eqn:Ha.
  - destruct (coherent_answer_once _ _ Hc Ha) as (Ho & c & Hr).
    unfold inited. rewrite Ho, Hr. simpl.
    rewrite (init_World_once _ _ _ Ho), (Peek_Some _ _ _ Hf).
    by rewrite (init_World_once _ _ _ Ho), Ha.
  - destruct (coherent_unresolved_open _ (chan_next w) Hc Ha)
      as (ch & -> & ->). done.
Qed.

Lemma resolve_by_resolved r f w v w' :
  invoke (resolve_by r) f w = Ok v w' ->
  ∃ st', fulfillers w' !! f = Some st' ∧ resolved_with (answer_of r) st'.
Proof.
  intros Hrun. destruct r as [e|s]; simpl in Hrun;
    apply bind_Ok_inv in Hrun as ([] & w2 & Hrun & Hret);
    injection Hret as <- <-.
  - apply Fulfiller_Reject_Evolves in Hrun
      as (_ & f2 & e2 & st2 & Hfp & He & Hf2 & Hres).
    injection Hfp as <-. injection He as <-. by exists st2.
  - by apply Fulfill_Evolves in Hrun as (_ & st2 & Hf2 & Hres); exists st2.
Qed.

Lemma wait_Done_resolved w f st a :
  fulfillers w !! f = Some st -> resolved_with a st ->
  wait_Done f w = Ok tt w.
Proof.
  intros Hf (Ha & Ho & c & Hr). rewrite (wait_Done_Some _ _ _ Hf).
  unfold inited. rewrite Ho, Hr. simpl. by rewrite (init_World_once _ _ _ Ho).
Qed.

Lemma Struct_resolved w f st a :
  fulfillers w !! f = Some st -> resolved_with a st ->
  Fulfiller_Struct f w = Ok a w.
Proof.
  intros Hf Hres. unfold Fulfiller_Struct, bind.
  rewrite (wait_Done_resolved _ _ _ _ Hf Hres).
  by rewrite (Peek_resolved _ _ _ _ Hf Hres).
Qed.

Lemma PipelineClose_resolved w f st a tr :
  fulfillers w !! f = Some st -> resolved_with a st ->
  Fulfiller_PipelineClose f tr w = Ok tt (emit (EvPipelineClose a tr) w).
Proof.
  intros Hf Hres. unfold Fulfiller_PipelineClose, bind.
  rewrite (wait_Done_resolved _ _ _ _ Hf Hres).
  by rewrite (Peek_resolved _ _ _ _ Hf Hres).
Qed.

(** X3.  Once [Fulfill] (with a struct) or [Reject] (with an error) has
    returned, the Fulfiller hands everything on to the answer it was
    given: [Peek] and [Struct] return it, [PipelineCall] and
    [PipelineClose] are made on it, and none of them blocks, queues a call
    or changes the Fulfiller. *)
Theorem resolved_delegates (r : error + Struct) (f : FulfillerId)
    (w w' : World) (v : Value) (tr : list PipelineOp) (cl : Call) :
  invoke (resolve_by r) f w = Ok v w' ->
  Fulfiller_Peek f w' = Ok (Some (answer_of r)) w' ∧
  Fulfiller_Struct f w' = Ok (answer_of r) w' ∧
  Fulfiller_PipelineCall f tr cl w'
  = Ok (PipelineAnswer (answer_of r) tr cl)
       (emit (EvPipelineCall (answer_of r) tr cl) w') ∧
  Fulfiller_PipelineClose f tr w'
  = Ok tt (emit (EvPipelineClose (answer_of r) tr) w').
Proof.
  intros Hrun.
  destruct (resolve_by_resolved _ _ _ _ _ Hrun) as (st' & Hf' & Hres).
  split; [by eapply Peek_resolved|].
  split; [by eapply Struct_resolved|].
  split; [|by eapply PipelineClose_resolved].
  destruct Hres as (Ha & Ho & _).
  rewrite (PipelineCall_eq _ _ _ _ _ Hf'), (init_World_once _ _ _ Ho).
  rewrite (PipelineCall_locked_eq _ _ _ _ _ Hf'). by rewrite Ha.
Qed.

(** ** ecallList, and the head of an embargo client's queue *)

(** X4.  [Set] then [At]: inside the list, [Set] stores the call, or the zero
    call for nil, keeps the length and every other slot, and [At] reads
    back what was stored; outside it, both panic. *)
Theorem ecallList_Set_then_At (el : list ecall) (i : nat) (x : option ecall) :
  (i < ecallList_Len el ->
     ∃ el', ecallList_Set el i x = Some el' ∧
            ecallList_Len el' = ecallList_Len el ∧
            ecallList_At el' i = Some (default zero_ecall x) ∧
            ∀ j, j ≠ i -> ecallList_At el' j = ecallList_At el j) ∧
  (ecallList_Len el ≤ i ->
     ecallList_Set el i x = None ∧ ecallList_At el i = None).
Proof.
  unfold ecallList_Set, ecallList_At, ecallList_Len. split.
  - intros Hi. rewrite decide_True by done.
    exists (<[i := default zero_ecall x]> el).
    split; [by destruct x|]. split; [apply length_insert|].
    split; [by apply list_lookup_insert_eq|].
    intros j Hj. by apply list_lookup_insert_ne.
  - intros Hi. rewrite decide_False by lia.
    split; [done|]. by apply lookup_ge_None_2.
Qed.

(** X5.  [peek] returns the head of the queue, or the zero call when the queue
    is empty, and changes nothing.  [pop] returns the same call; it leaves
    the rest of the queue, in order, and an empty queue as it was.
    Neither touches the wrapped client or the flush goroutine. *)
Theorem peek_and_pop_head (w : World) (ec : EmbargoId) (e : embargoClient)
    (pc : flushPC) :
  embargoes w !! ec = Some (e, pc) -> Queue_wf (ec_q e) ->
  let head := head_or_zero (Queue_contents (ec_q e)) in
  embargoClient_peek ec w = Ok head w ∧
  ∃ q',
    embargoClient_pop ec w
    = Ok head (if decide (Queue_contents (ec_q e) = []) then w
               else upd_ec ec (MkEmbargo (ec_client e) q', pc) w) ∧
    Queue_wf q' ∧ q_cap q' = q_cap (ec_q e) ∧
    Queue_contents q' = tail (Queue_contents (ec_q e)).
Proof.
  intros He Hwf head. split; [by eapply peek_eq|].
  destruct (Queue_contents (ec_q e)) as [|c l] eqn:Hc.
  - exists (ec_q e). rewrite decide_True by done.
    split; [|by rewrite Hc].
    eapply pop_empty; [done|]. by rewrite <- Queue_contents_length, Hc.
  - destruct (pop_eq _ _ _ _ _ _ He Hwf Hc) as (q' & Hpop & Hwf' & Hcap & _ & Hc').
    exists q'. by rewrite decide_False by done.
Qed.

(** X6.  [newEmbargoClient] never fails.  The new client wraps [client]; its
    queue has room for [callQueueSize] calls and holds the first
    [callQueueSize] of the calls it was given, in order: calls beyond that
    are dropped.  Its flush goroutine is about to start, and no other
    embargo client changes. *)
Theorem newEmbargoClient_keeps_first_calls (client : Client)
    (queue : list ecall) (w : World) :
  ∃ q w',
    newEmbargoClient client queue w
    = Ok (embargoRef (length (embargoes w))) w' ∧
    embargoes w' = embargoes w ++ [(MkEmbargo client q, FlushStart)] ∧
    embargo_ok (MkEmbargo client q) ∧
    Queue_contents q = take callQueueSize queue ∧
    (length queue ≤ callQueueSize -> Queue_contents q = queue) ∧
    fulfillers w' = fulfillers w ∧ captables w' = captables w ∧
    events w' = events w.
Proof.
  destruct (new_queue_spec queue) as (Hwf & Hcap & Hc).
  eexists (new_queue queue), _. split; [apply newEmbargoClient_eq|].
  split; [done|]. split; [by split|]. split; [done|].
  split; [|done]. intros Hl. rewrite Hc. by apply take_ge.
Qed.

(** ** Fulfill and a capability outside the table *)

Lemma embargo_entry_out_of_range m k q w :
  length (CapTable m w) ≤ N.to_nat k ->
  embargo_entry m (k, q) w = Fail (Panic index_out_of_range) w.
Proof.
  intros Hk. unfold embargo_entry, bind, gets. simpl.
  by rewrite (lookup_ge_None_2 _ _ Hk).
Qed.

Lemma embargo_entries_fail m (l : list (N * list ecall)) : ∀ w,
  (∃ k q, (k, q) ∈ l ∧ length (CapTable m w) ≤ N.to_nat k) ->
  ∃ w', for_each l (embargo_entry m) w = Fail (Panic index_out_of_range) w' ∧
        fulfillers w' = fulfillers w ∧ settlers w' = settlers w ∧
        events w' = events w.
Proof.
  induction l as [|[k0 q0] l IH]; intros w (k & q & Hin & Hk).
  { by apply elem_of_nil in Hin. }
  rewrite for_each_cons.
  destruct (decide (N.to_nat k0 < length (CapTable m w))) as [Hlt|Hge].
  - destruct (lookup_lt_is_Some_2 _ _ Hlt) as [c Hc].
    rewrite (bind_Ok _ _ _ _ _ (embargo_entry_eq _ _ _ _ _ Hc)).
    apply elem_of_cons in Hin as [Heq|Hin].
    { injection Heq as -> ->. lia. }
    set (w1 := set_captables _ _).
    destruct (IH w1) as (w' & Hrun & Hf & Hs & He).
    { exists k, q. split; [done|]. unfold w1.
      rewrite CapTable_insert, length_insert. done. }
    exists w'. by rewrite Hrun.
  - assert (Hk0 : length (CapTable m w) ≤ N.to_nat k0) by lia.
    exists w.
    by rewrite (bind_Fail _ _ _ _ _
                  (embargo_entry_out_of_range m k0 q0 w Hk0)).
Qed.

(** What [Fulfill] has done when it starts on the capability table. *)
Lemma Fulfill_upto_embargo (w : World) (f : FulfillerId)
    (fl : list FulfillerId) (s : Struct) :
  tree_at w (Some f) fl ->
  ∃ w4 st c (qs : gmap CapabilityID (list ecall)),
    fulfillers w !! f = Some st ∧
    Fulfiller_Fulfill f s w
    = (for_each (range_order qs) (embargo_entry (Struct_Message s)) >>
       close_resolved f) w4 ∧
    (∀ k, qs !! k = grouped s k (f_queue st)) ∧
    same_rest w w4 ∧
    fulfillers w4 !! f
    = Some (MkFulfiller true (Some (MkChan c false))
              (Some (ImmediateAnswer s)) [] 0).
Proof.
  intros Ht.
  destruct (tree_at_children _ _ _ Ht)
    as (st & fps & Hf & Hp & -> & Hffps & Hnd & Hall).
  destruct (pending_inited (chan_next w) st Hp)
    as (Ha1 & Hq1 & Ho1 & _ & _ & c & Hr1 & _).
  set (w1 := init_World f st w).
  set (st1 := inited (chan_next w) st) in *.
  assert (Hf1 : fulfillers w1 !! f = Some st1) by by apply init_World_lookup.
  set (st2 := with_answer (ImmediateAnswer s) st1).
  set (w2 := upd f st2 w1).
  assert (Hflt : f < length (fulfillers w)) by by eapply lookup_lt_Some.
  assert (Hf2 : fulfillers w2 !! f = Some st2).
  { apply upd_lookup_eq. unfold w1. by rewrite init_World_length. }
  assert (Hq2 : f_queue st2 = f_queue st) by done.
  assert (Hw2 : ∀ x, x ≠ f -> fulfillers w2 !! x = fulfillers w !! x).
  { intros x Hx. unfold w2, w1.
    by rewrite upd_lookup_ne, init_World_lookup_ne. }
  assert (Hlen2 : length (fulfillers w2) = length (fulfillers w)).
  { unfold w2, w1. by rewrite upd_length, init_World_length. }
  assert (Hrest2 : same_rest w w2).
  { eapply same_rest_trans; [apply init_World_same_rest|apply upd_same_rest]. }
  assert (Hall2 : Forall2 (λ pc fli, tree_at w2 (e_f (pc_ecall pc)) fli)
                          (f_queue st2) fps).
  { rewrite Hq2. apply Forall2_same_length_lookup.
    split; [by eapply Forall2_length|]. intros i pc fli Hpc Hfli.
    eapply tree_at_agree.
    - by eapply (Forall2_lookup_lr _ _ _ _ _ _ Hall).
    - intros x Hx. apply Hw2. intros ->. apply Hffps.
      by eapply concat_lookup_elem_of. }
  destruct (emptyQueue_loop_spec w2 f s st2 fps Hf2 Hall2 Hnd Hffps
              (length (f_queue st2)) 0 w2 ∅)
    as (w3 & qs & Hloop & Hlen3 & Hout3 & Hch3 & Hqs & Hrest3);
    [done|done|done|intros; lia|intros k'; by rewrite lookup_empty|
     apply same_rest_refl|].
  assert (Hf3 : fulfillers w3 !! f = Some st2) by by rewrite Hout3.
  set (st4 := MkFulfiller (f_once st2) (f_resolved st2) (f_answer st2) [] 0).
  set (w4 := upd f st4 w3).
  assert (Hempty : Fulfiller_emptyQueue f s w2 = Ok qs w4).
  { unfold Fulfiller_emptyQueue.
    rewrite (bind_Ok _ _ _ _ _ (load_Some _ _ _ Hf2)).
    rewrite (bind_Ok _ _ _ _ _ Hloop).
    by rewrite (bind_Ok _ _ _ _ _ (load_Some _ _ _ Hf3)). }
  exists w4, st, c, qs. split; [done|]. split.
  { unfold Fulfiller_Fulfill.
    rewrite (bind_Ok _ _ _ _ _ (init_Some _ _ _ Hf)).
    rewrite (bind_Ok _ _ _ _ _ (load_Some _ _ _ Hf1)).
    rewrite Ha1.
    rewrite (bind_Ok _ _ _ _ _ (set_answer_Some _ _ _ _ Hf1)).
    fold st2 w2. by rewrite (bind_Ok _ _ _ _ _ Hempty). }
  split; [by rewrite <- Hq2|]. split.
  { eapply same_rest_trans; [done|].
    eapply same_rest_trans; [done|apply upd_same_rest]. }
  unfold w4. rewrite upd_lookup_eq by lia. unfold st4, st2. simpl.
  by rewrite Ho1, Hr1.
Qed.

(** X7.  [Fulfill] does not check the capability a queued call resolves to
    against the capability table of the struct's message.  When a queued
    call of a pending Fulfiller resolves to a capability that is not in the
    table, [Fulfill] panics with an index out of range; by then it has
    stored the answer and emptied the queue, and it never closes the
    channel that [Done] returns. *)
Theorem Fulfill_capability_out_of_range (w : World) (f : FulfillerId)
    (fl : list FulfillerId) (st : Fulfiller) (s : Struct) (pc : pcall)
    (k : CapabilityID) :
  tree_at w (Some f) fl ->
  fulfillers w !! f = Some st ->
  pc ∈ f_queue st -> resolve s pc = TargetCap k ->
  length (CapTable (Struct_Message s) w) ≤ N.to_nat k ->
  ∃ w' c,
    Fulfiller_Fulfill f s w = Fail (Panic index_out_of_range) w' ∧
    fulfillers w' !! f
    = Some (MkFulfiller true (Some (MkChan c false))
              (Some (ImmediateAnswer s)) [] 0) ∧
    settlers w' = settlers w ∧ events w' = events w.
Proof.
  intros Ht Hf Hpc Hres Hk.
  destruct (Fulfill_upto_embargo w f fl s Ht)
    as (w4 & st0 & c & qs & Hf0 & Hrun & Hqs & Hrest & Hf4).
  assert (st0 = st) as -> by congruence.
  destruct (embargo_entries_fail (Struct_Message s) (range_order qs) w4)
    as (w' & Hfail & Hfs & Hs & He).
  { exists k, (group s k (f_queue st)). split.
    - apply range_order_lookup. rewrite Hqs. apply grouped_Some.
      split; [done|]. intros Hnil.
      pose proof (group_elem_of s k (f_queue st) pc Hpc Hres) as Hg.
      rewrite Hnil in Hg. by apply elem_of_nil in Hg.
    - unfold CapTable in *. destruct Hrest as (_ & _ & -> & _). done. }
  exists w', c. split.
  { rewrite Hrun. by apply bind_Fail. }
  split; [by rewrite Hfs|].
  destruct Hrest as (_ & Hs4 & _ & He4). split; congruence.
Qed.

(** ** The goroutines that flushQueue starts *)

Lemma flushQueue_S n ec w e pc :
  embargoes w !! ec = Some (e, pc) -> pc ≠ FlushDone ->
  flushQueue (S n) ec w = (flush_step ec >> flushQueue n ec) w.
Proof.
  intros He Hpc. simpl.
  rewrite (bind_Ok _ _ _ _ _ (load_pc_Some _ _ _ He)). cbn [snd].
  by destruct pc.
Qed.

Lemma flushQueue_Done n ec w e :
  embargoes w !! ec = Some (e, FlushDone) -> flushQueue n ec w = Ok tt w.
Proof.
  intros He. destruct n; simpl;
    by rewrite (bind_Ok _ _ _ _ _ (load_pc_Some _ _ _ He)).
Qed.

(** From the loop test to the end of flushQueue. *)
Lemma flushQueue_from_test ec c : ∀ l q w n,
  embargoes w !! ec = Some (MkEmbargo c q, FlushTest (head_or_zero l)) ->
  Queue_wf q -> Queue_contents q = l ->
  Forall (λ e, is_Some (e_call e)) l ->
  2 * length l + 1 ≤ n ->
  ∃ w' q',
    flushQueue n ec w = Ok tt w' ∧
    embargoes w' = <[ec := (MkEmbargo c q', FlushDone)]> (embargoes w) ∧
    Queue_contents q' = [] ∧
    settlers w' = settlers w ++ omap (settler_of c) l ∧
    events w' = events w ++ (EvCall ec c <$> calls l) ∧
    fulfillers w' = fulfillers w ∧ captables w' = captables w.
Proof.
  induction l as [|x rest IH]; intros q w n He Hwf Hq Hcalls Hn.
  - destruct n as [|n]; [simpl in Hn; lia|].
    rewrite (flushQueue_S _ _ _ _ _ He) by done.
    assert (Hstep : flush_step ec w
                    = Ok tt (upd_ec ec (MkEmbargo c q, FlushDone) w)).
    { unfold flush_step.
      rewrite (bind_Ok _ _ _ _ _ (load_pc_Some _ _ _ He)). cbn [snd].
      rewrite head_or_zero_nil. simpl.
      by rewrite (store_pc_Some _ _ _ _ _ He). }
    rewrite (bind_Ok _ _ _ _ _ Hstep).
    assert (Hlt : ec < length (embargoes w)) by by eapply lookup_lt_Some.
    rewrite (flushQueue_Done _ _ _ _ (upd_ec_lookup _ _ _ Hlt)).
    exists (upd_ec ec (MkEmbargo c q, FlushDone) w), q.
    split; [done|]. split; [done|]. split; [done|].
    simpl. by rewrite !app_nil_r.
  - apply Forall_cons in Hcalls as [[cl Hcl] Hrest].
    destruct n as [|[|n]]; [simpl in Hn; lia..|].
    assert (Hlt : ec < length (embargoes w)) by by eapply lookup_lt_Some.
    (* the call, and the goroutine that waits for its answer *)
    rewrite (flushQueue_S _ _ _ _ _ He) by done.
    set (w1 := set_settlers (λ t, t ++ [(e_f x, CallAnswer c cl)])
                 (emit (EvCall ec c cl) w)).
    set (w2 := upd_ec ec (MkEmbargo c q, FlushPop) w1).
    assert (Hstep1 : flush_step ec w = Ok tt w2).
    { unfold flush_step.
      rewrite (bind_Ok _ _ _ _ _ (load_pc_Some _ _ _ He)). cbn [snd].
      change (head_or_zero (x :: rest)) with x. rewrite Hcl.
      rewrite (bind_Ok _ _ _ _ _ (load_ec_Some _ _ _ He)). cbn [fst].
      unfold Client_Call, bind, modify, ret. simpl ec_client. fold w1.
      assert (He1 : embargoes w1 !! ec
                    = Some (MkEmbargo c q, FlushTest (head_or_zero (x :: rest))))
        by done.
      by rewrite (store_pc_Some _ _ _ _ _ He1). }
    rewrite (bind_Ok _ _ _ _ _ Hstep1).
    assert (He2 : embargoes w2 !! ec = Some (MkEmbargo c q, FlushPop))
      by by apply upd_ec_lookup.
    (* pop, peek *)
    rewrite (flushQueue_S _ _ _ _ _ He2) by done.
    destruct (pop_eq _ _ _ _ _ _ He2 Hwf Hq)
      as (q' & Hpop & Hwf' & _ & _ & Hq').
    simpl ec_client in Hpop.
    set (w3 := upd_ec ec (MkEmbargo c q', FlushPop) w2) in *.
    assert (Hlt2 : ec < length (embargoes w2)) by by eapply lookup_lt_Some.
    assert (He3 : embargoes w3 !! ec = Some (MkEmbargo c q', FlushPop))
      by by apply upd_ec_lookup.
    set (w4 := upd_ec ec (MkEmbargo c q', FlushTest (head_or_zero rest)) w3).
    assert (Hstep2 : flush_step ec w2 = Ok tt w4).
    { unfold flush_step.
      rewrite (bind_Ok _ _ _ _ _ (load_pc_Some _ _ _ He2)). cbn [snd].
      rewrite (bind_Ok _ _ _ _ _ Hpop).
      rewrite (bind_Ok _ _ _ _ _ (peek_eq _ _ _ _ He3 Hwf')).
      rewrite (store_pc_Some _ _ _ _ _ He3). simpl ec_q. by rewrite Hq'. }
    rewrite (bind_Ok _ _ _ _ _ Hstep2).
    assert (Hlt3 : ec < length (embargoes w3)) by by eapply lookup_lt_Some.
    assert (He4 : embargoes w4 !! ec
                  = Some (MkEmbargo c q', FlushTest (head_or_zero rest)))
      by by apply upd_ec_lookup.
    destruct (IH q' w4 n He4 Hwf' Hq' Hrest) as
      (w' & q'' & Hrun & Hemb & Hnil & Hset & Hev & Hful & Hcap).
    { simpl in Hn. lia. }
    exists w', q''. split; [done|].
    split.
    { rewrite Hemb. simpl. by rewrite !list_insert_insert_eq. }
    split; [done|].
    split.
    { rewrite Hset. simpl. unfold settler_of at 2. rewrite Hcl.
      by rewrite <- app_assoc. }
    split.
    { rewrite Hev, (calls_cons _ _ _ Hcl). simpl.
      by rewrite <- app_assoc. }
    by rewrite Hful, Hcap.
Qed.

(** From the start of flushQueue to its end. *)
Lemma flushQueue_spec (w : World) (ec : EmbargoId) (c : Client)
    (q : Queue) :
  embargoes w !! ec = Some (MkEmbargo c q, FlushStart) ->
  Queue_wf q ->
  Forall (λ e, is_Some (e_call e)) (Queue_contents q) ->
  ∃ w' q',
    flushQueue (2 * length (Queue_contents q) + 2) ec w = Ok tt w' ∧
    embargoes w' = <[ec := (MkEmbargo c q', FlushDone)]> (embargoes w) ∧
    Queue_contents q' = [] ∧
    settlers w' = settlers w ++ omap (settler_of c) (Queue_contents q) ∧
    events w' = events w ++ (EvCall ec c <$> calls (Queue_contents q)) ∧
    fulfillers w' = fulfillers w ∧ captables w' = captables w.
Proof.
  intros He Hwf Hcalls.
  assert (Hlt : ec < length (embargoes w)) by by eapply lookup_lt_Some.
  replace (2 * length (Queue_contents q) + 2)
    with (S (2 * length (Queue_contents q) + 1)) by lia.
  rewrite (flushQueue_S _ _ _ _ _ He) by done.
  set (w1 := upd_ec ec (MkEmbargo c q,
                        FlushTest (head_or_zero (Queue_contents q))) w).
  assert (Hstep : flush_step ec w = Ok tt w1).
  { unfold flush_step.
    rewrite (bind_Ok _ _ _ _ _ (load_pc_Some _ _ _ He)). cbn [snd].
    rewrite (bind_Ok _ _ _ _ _ (peek_eq _ _ _ _ He Hwf)).
    by rewrite (store_pc_Some _ _ _ _ _ He). }
  rewrite (bind_Ok _ _ _ _ _ Hstep).
  destruct (flushQueue_from_test ec c (Queue_contents q) q w1
              (2 * length (Queue_contents q) + 1))
    as (w' & q' & Hrun & Hemb & Hnil & Hset & Hev & Hful & Hcap);
    [by apply upd_ec_lookup|done|done|done|lia|].
  exists w', q'. split; [done|].
  split; [rewrite Hemb; simpl; by rewrite list_insert_insert_eq|].
  split; [done|]. split; [done|]. done.
Qed.

(** X8.  Left alone, flushQueue on an embargo client whose queued calls are
    not nil ends within two steps for each queued call and two more.  For
    every queued call, in order, it has made the call into the wrapped
    client and started one goroutine that holds the Fulfiller queued with
    that call and the answer to that very call; it has resolved no
    Fulfiller itself, and it leaves the queue empty. *)
Theorem flushQueue_pairs_answers (w : World) (ec : EmbargoId) (c : Client)
    (q : Queue) :
  embargoes w !! ec = Some (MkEmbargo c q, FlushStart) ->
  Queue_wf q ->
  Forall (λ e, is_Some (e_call e)) (Queue_contents q) ->
  ∃ w' q',
    flushQueue (2 * length (Queue_contents q) + 2) ec w = Ok tt w' ∧
    embargoes w' = <[ec := (MkEmbargo c q', FlushDone)]> (embargoes w) ∧
    Queue_contents q' = [] ∧
    settlers w' = settlers w ++ omap (settler_of c) (Queue_contents q) ∧
    length (omap (settler_of c) (Queue_contents q))
    = length (Queue_contents q) ∧
    events w' = events w ++ (EvCall ec c <$> calls (Queue_contents q)) ∧
    fulfillers w' = fulfillers w ∧ captables w' = captables w.
Proof.
  intros He Hwf Hcalls.
  destruct (flushQueue_spec w ec c q He Hwf Hcalls)
    as (w' & q' & Hrun & Hemb & Hnil & Hset & Hrest).
  exists w', q'. split; [done|]. split; [done|]. split; [done|].
  split; [done|]. split; [|done].
  clear -Hcalls. induction Hcalls as [|x l [cl Hcl] _ IH]; [done|].
  cbn [omap list_omap]. unfold settler_of at 1. rewrite Hcl.
  cbn [length]. by rewrite IH.
Qed.

(** ** Handing over the result of a flushed call *)

(** X9.  The goroutine that flushQueue started for a queued call, once the
    answer to the call has given the result [r].  Two conditions: the
    Fulfiller queued with the call is still pending; and, when [r] is a
    struct, every call pipelined on that Fulfiller that resolves to a
    capability resolves inside the capability table of the struct's
    message.  Then the goroutine returns and the Fulfiller is resolved with
    that result, by [Fulfill] for a struct and by [Reject] for an error, so
    that [Struct] returns it.  The goroutine is gone, no call is made, and
    no Fulfiller outside that Fulfiller's tree changes. *)
Theorem settle_resolves_queued_call (w : World) (i : nat) (g : FulfillerId)
    (ans : Answer) (fl : list FulfillerId) (r : error + Struct) :
  settlers w !! i = Some (Some g, ans) ->
  tree_at w (Some g) fl ->
  (∀ s st pc k, r = inr s -> fulfillers w !! g = Some st ->
     pc ∈ f_queue st -> resolve s pc = TargetCap k ->
     N.to_nat k < length (CapTable (Struct_Message s) w)) ->
  ∃ w' st',
    settle i r w = Ok tt w' ∧
    settlers w' = delete i (settlers w) ∧
    fulfillers w' !! g = Some st' ∧ resolved_with (answer_of r) st' ∧
    Fulfiller_Struct g w' = Ok (answer_of r) w' ∧
    (∀ x, x ∉ fl -> fulfillers w' !! x = fulfillers w !! x) ∧
    events w' = events w.
Proof.
  intros Hi Ht Hrange.
  set (w0 := set_settlers (delete i) w).
  assert (Ht0 : tree_at w0 (Some g) fl) by by eapply tree_at_agree.
  assert (Hstart : settle i r w
                   = match r with
                     | inr s => (let* f := deref (Some g) in
                                 Fulfiller_Fulfill f s) w0
                     | inl err => Fulfiller_Reject (Some g) (Some err) w0
                     end).
  { unfold settle, bind, gets, modify. rewrite Hi. by destruct r. }
  destruct r as [e|s].
  - destruct (Fulfiller_Reject_tree w0 g fl e Ht0)
      as (w' & Hrun & Hlen & Hout & Hin & (_ & Hs & _ & He)).
    destruct (Hin g (tree_at_root _ _ _ Ht0)) as (st' & Hg' & Hres).
    exists w', st'. split; [by rewrite Hstart|].
    split; [done|]. split; [done|]. split; [done|].
    split; [by eapply Struct_resolved|]. split; [done|]. done.
  - destruct (Fulfill_spec w0 g fl s Ht0)
      as (w' & st & fps & l & Hrun & Hg & _ & _ & _ & (st' & Hg' & Hres & _)
          & _ & Hout & _ & Hs & He & _).
    { intros st pc k Hst Hpc Hk. by eapply (Hrange s st pc k). }
    exists w', st'. split.
    { rewrite Hstart. by rewrite (bind_Ok _ _ _ _ _ (deref_Some _ _ _ Hg)). }
    split; [done|]. split; [done|]. split; [done|].
    split; [by eapply Struct_resolved|]. split; [done|]. done.
Qed.

(** ** Resolving a Fulfiller on which nothing is queued *)

Lemma range_order_empty {V} : range_order (∅ : gmap N V) = [].
Proof.
  apply Permutation_nil_r. rewrite (range_order_perm V ∅).
  by rewrite map_to_list_empty.
Qed.

Lemma pending_leaf w f st :
  fulfillers w !! f = Some st -> pending st = true -> f_queue st = [] ->
  tree_at w (Some f) [f].
Proof.
  intros Hf Hp Hq. split.
  - exists 1. simpl. by rewrite Hf, Hp, Hq.
  - apply NoDup_singleton.
Qed.

(** X10.  [Fulfill] and [Reject] on an unresolved Fulfiller with nothing queued,
    the zero value among them: the call returns, the Fulfiller holds the
    answer, and nothing else changes: no other Fulfiller, no capability
    table (whatever the struct's message and its table are), no embargo
    client, and no call is made. *)
Theorem resolve_without_queue (r : error + Struct) (w : World)
    (f : FulfillerId) (st : Fulfiller) :
  fulfillers w !! f = Some st -> pending st = true -> f_queue st = [] ->
  ∃ w' st',
    invoke (resolve_by r) f w = Ok VUnit w' ∧
    fulfillers w' !! f = Some st' ∧ resolved_with (answer_of r) st' ∧
    length (fulfillers w') = length (fulfillers w) ∧
    (∀ x, x ≠ f -> fulfillers w' !! x = fulfillers w !! x) ∧
    same_rest w w'.
Proof.
  intros Hf Hp Hq.
  pose proof (pending_leaf _ _ _ Hf Hp Hq) as Ht.
  destruct r as [e|s]; cbn [resolve_by invoke answer_of].
  - destruct (Fulfiller_Reject_tree w f [f] e Ht)
      as (w' & Hrun & Hlen & Hout & Hin & Hrest).
    destruct (Hin f) as (st' & Hf' & Hres); [apply list_elem_of_here|].
    exists w', st'. split; [by rewrite (bind_Ok _ _ _ _ _ Hrun)|].
    split; [done|]. split; [done|]. split; [done|]. split; [|done].
    intros x Hx. apply Hout. apply not_elem_of_cons.
      split; [done|apply not_elem_of_nil].
  - destruct (Fulfill_spec w f [f] s Ht)
      as (w' & st0 & fps & l & Hrun & Hf0 & _ & _ & _ & (st' & Hf' & Hres & _)
          & Hlen & Hout & _).
    { intros st1 pc k Hf1 Hpc. assert (st1 = st) as -> by congruence.
      rewrite Hq in Hpc. by apply elem_of_nil in Hpc. }
    destruct (Fulfill_upto_embargo w f [f] s Ht)
      as (w4 & st1 & c & qs & Hf1 & Hrun4 & Hqs & Hrest4 & Hf4).
    assert (st1 = st) as -> by congruence.
    assert (qs = ∅) as ->.
    { apply map_eq. intros k. by rewrite Hqs, Hq, lookup_empty. }
    rewrite range_order_empty in Hrun4. simpl in Hrun4.
    unfold bind, ret in Hrun4.
    rewrite (close_resolved_Some _ _ _ _ Hf4 eq_refl), Hrun in Hrun4.
    injection Hrun4 as ->.
    exists (upd f (with_closed c
                     (MkFulfiller true (Some (MkChan c false))
                        (Some (ImmediateAnswer s)) [] 0)) w4), st'.
    split; [by rewrite (bind_Ok _ _ _ _ _ Hrun)|].
    split; [done|]. split; [done|]. split; [done|]. split.
    + intros x Hx. apply Hout. apply not_elem_of_cons.
      split; [done|apply not_elem_of_nil].
    + eapply same_rest_trans; [done|apply upd_same_rest].
Qed.

(** ** Closing an embargo client with no call in flight *)

(** X11.  When the Fulfillers of the queued calls are all pending (none of the
    calls has been made and answered), [Close] returns: every queued call's
    Fulfiller is rejected with the "queued call canceled" error, the queue
    is empty, the wrapped client has been closed once and has been handed
    no call, and afterwards [WrappedClient] returns the wrapped client. *)
Theorem Close_cancels_pending_calls (w : World) (ec : EmbargoId)
    (cl : Client) (pc : flushPC) (q : Queue) (fps : list (list FulfillerId)) :
  embargoes w !! ec = Some (MkEmbargo cl q, pc) ->
  Queue_wf q ->
  Forall2 (λ c fli, tree_at w (e_f c) fli) (Queue_contents q) fps ->
  NoDup (concat fps) ->
  ∃ w',
    embargoClient_Close ec w = Ok tt w' ∧
    (∀ c, c ∈ Queue_contents q ->
       ∃ g st', e_f c = Some g ∧ fulfillers w' !! g = Some st' ∧
                resolved_with (ErrorAnswer errQueueCallCancel) st') ∧
    (∀ x, x ∉ concat fps -> fulfillers w' !! x = fulfillers w !! x) ∧
    passthrough ec w' ∧
    embargoClient_WrappedClient ec w' = Ok (Some cl) w' ∧
    closes ec (events w') = closes ec (events w) ++ [cl] ∧
    dispatched ec (events w') = dispatched ec (events w).
Proof.
  intros He Hwf Hall Hnd.
  destruct (Close_spec ec cl pc w q fps He Hwf Hall Hnd)
    as (w' & q' & Hrun & Hemb & Hq' & Hin & Hout & Hev & Hcl).
  assert (Hlt : ec < length (embargoes w)) by by eapply lookup_lt_Some.
  assert (He' : embargoes w' !! ec = Some (MkEmbargo cl q', pc)).
  { rewrite Hemb. by apply list_lookup_insert_eq. }
  assert (Hn : q_n q' = 0) by by rewrite <- Queue_contents_length, Hq'.
  exists w'. split; [done|]. split; [done|]. split; [done|].
  split; [by exists (MkEmbargo cl q'), pc|].
  split.
  { rewrite (WrappedClient_Some _ _ _ He'). simpl.
    by rewrite decide_True by done. }
  split; [done|].
  rewrite Hev, dispatched_app. unfold dispatched at 2. simpl.
  by rewrite app_nil_r.
Qed.

(** ** A series of pipelined calls *)

Lemma pending_inited_pending c st :
  pending st = true -> pending (inited c st) = true.
Proof.
  intros Hp. unfold inited. destruct (f_once st) eqn:Ho; [done|].
  unfold pending in *. rewrite Ho in Hp.
  destruct (f_answer st); [done|]. simpl.
  destruct (f_queue st); [|done]. reflexivity.
Qed.

Lemma pending_with_queue Q st :
  pending st = true -> f_once st = true -> length Q ≤ callQueueSize ->
  pending (with_queue Q st) = true.
Proof.
  unfold pending. simpl. intros Hp Ho HQ. rewrite Ho in *.
  destruct (f_answer st); [done|].
  destruct (f_resolved st) as [ch|]; [|done].
  apply andb_true_iff in Hp as [Hp _].
  apply andb_true_iff in Hp as [Hopen Hcap].
  rewrite Hopen, Hcap. simpl. apply bool_decide_eq_true in Hcap.
  rewrite Hcap. by apply bool_decide_eq_true.
Qed.

Lemma enqueued_facts w f st tr cc :
  fulfillers w !! f = Some st ->
  let g := length (fulfillers w) in
  let w' := enqueued f tr cc w in
  fulfillers w' !! f
  = Some (with_queue (f_queue st ++ [Pcall tr (Ecall (Some cc) (Some g))]) st) ∧
  fulfillers w' !! g = Some zero_Fulfiller ∧
  length (fulfillers w') = S g ∧
  (∀ x, x < g -> x ≠ f -> fulfillers w' !! x = fulfillers w !! x) ∧
  same_rest w w'.
Proof.
  intros Hf g w'.
  assert (Hlt : f < g) by by eapply lookup_lt_Some.
  unfold w', enqueued. simpl. rewrite Hf. fold g.
  split; [apply list_lookup_insert_eq; rewrite length_app; simpl; lia|].
  split.
  { rewrite list_lookup_insert_ne by lia.
    by rewrite lookup_app_r, Nat.sub_diag by done. }
  split; [rewrite length_insert, length_app; simpl; lia|].
  split; [|done].
  intros x Hx Hne. rewrite list_lookup_insert_ne by done.
  by apply lookup_app_l.
Qed.

Lemma run_cons a sched w v w1 vs w2 :
  step a w = Ok v w1 -> run sched w1 = Ok vs w2 ->
  run (a :: sched) w = Ok (v :: vs) w2.
Proof.
  intros Hstep Hrun. simpl.
  rewrite (bind_Ok _ _ _ _ _ Hstep). by rewrite (bind_Ok _ _ _ _ _ Hrun).
Qed.

(** The induction behind the next theorem. *)
Lemma pipeline_all_spec (f : FulfillerId) : ∀ (reqs : list request)
    (w : World) (st : Fulfiller),
  fulfillers w !! f = Some st -> pending st = true ->
  Forall copies_to reqs ->
  let g0 := length (fulfillers w) in
  let n := min (callQueueSize - length (f_queue st)) (length reqs) in
  ∃ w' st',
    run (pipeline_all f reqs) w
    = Ok ((VAnswer ∘ FulfillerAnswer <$> seq g0 n) ++
          replicate (length reqs - n) (VAnswer (ErrorAnswer errCallQueueFull)))
         w' ∧
    fulfillers w' !! f = Some st' ∧ pending st' = true ∧
    f_queue st'
    = f_queue st ++ zip_with queued_request (take n reqs) (seq g0 n) ∧
    length (fulfillers w') = g0 + n ∧
    (∀ i, i < n -> fulfillers w' !! (g0 + i) = Some zero_Fulfiller) ∧
    (∀ x, x < g0 -> x ≠ f -> fulfillers w' !! x = fulfillers w !! x) ∧
    same_rest w w'.
Proof.
  induction reqs as [|[[tr cl] cc] rest IH]; intros w st Hf Hp Hcopy g0 n.
  { exists w, st. unfold n. rewrite Nat.min_0_r. simpl.
    split; [done|]. split; [done|]. split; [done|].
    split; [by rewrite app_nil_r|].
    split; [lia|]. split; [intros; lia|].
    split; [done|apply same_rest_refl]. }
  assert (Hflt : f < g0) by by eapply lookup_lt_Some.
  apply Forall_cons in Hcopy as [Hc Hcopy]. unfold copies_to in Hc.
  simpl in Hc.
  destruct (pending_inited (chan_next w) st Hp)
    as (Ha1 & Hq1 & Ho1 & Hcap1 & Hlen & _).
  set (w1 := init_World f st w).
  set (st1 := inited (chan_next w) st) in *.
  assert (Hf1 : fulfillers w1 !! f = Some st1) by by apply init_World_lookup.
  assert (Hp1 : pending st1 = true) by by apply pending_inited_pending.
  assert (Hlen1 : length (fulfillers w1) = g0) by apply init_World_length.
  assert (Hcall : Fulfiller_PipelineCall f tr cl w
                  = PipelineCall_locked f tr cl w1)
    by by apply PipelineCall_eq.
  rewrite (PipelineCall_locked_eq _ _ _ _ _ Hf1), Ha1, Hcap1, Hq1 in Hcall.
  cbn [pipeline_all fmap list_fmap fst snd].
  fold (pipeline_all f rest).
  case_decide as Hfull.
  - (* the queue is full *)
    assert (Hn : n = 0) by (unfold n; lia).
    pose proof (IH w1 st1 Hf1 Hp1 Hcopy) as IH1. cbv zeta in IH1.
    rewrite Hq1, Hlen1 in IH1.
    replace ((callQueueSize - length (f_queue st)) `min` length rest)
      with 0 in IH1 by lia.
    destruct IH1
      as (w' & st' & Hrun & Hf' & Hp' & Hq' & Hlen' & Hnew & Hold & Hrest).
    rewrite Nat.sub_0_r in Hrun.
    rewrite Hn. exists w', st'. split.
    { eapply run_cons; [|exact Hrun].
      simpl. by rewrite (bind_Ok _ _ _ _ _ Hcall). }
    split; [done|]. split; [done|]. split; [done|].
    split; [done|]. split; [intros; lia|]. split.
    + intros x Hx Hne. rewrite Hold by done.
      by apply init_World_lookup_ne.
    + eapply same_rest_trans; [apply init_World_same_rest|done].
  - (* there is room *)
    rewrite Hc, Hlen1 in Hcall.
    destruct (enqueued_facts w1 f st1 tr cc Hf1)
      as (Hf2 & Hg2 & Hlen2 & Hold2 & Hrest2).
    rewrite Hlen1 in Hf2, Hg2, Hlen2, Hold2. rewrite Hq1 in Hf2.
    set (w2 := enqueued f tr cc w1) in *.
    set (x := Pcall tr (Ecall (Some cc) (Some g0))) in *.
    set (st2 := with_queue (f_queue st ++ [x]) st1) in *.
    assert (Hq2 : f_queue st2 = f_queue st ++ [x]) by done.
    assert (Hp2 : pending st2 = true).
    { apply pending_with_queue; [done..|]. rewrite length_app. simpl. lia. }
    set (n' := (callQueueSize - S (length (f_queue st))) `min` length rest).
    assert (Hn : n = S n') by (unfold n, n'; cbn [length]; lia).
    pose proof (IH w2 st2 Hf2 Hp2 Hcopy) as IH2. cbv zeta in IH2.
    rewrite Hq2, Hlen2, length_app in IH2. cbn [length] in IH2.
    replace ((callQueueSize - (length (f_queue st) + 1)) `min` length rest)
      with n' in IH2 by (unfold n'; lia).
    destruct IH2
      as (w' & st' & Hrun & Hf' & Hp' & Hq' & Hlen' & Hnew & Hold & Hrest).
    rewrite Hn. exists w', st'. split.
    { eapply run_cons; [simpl; by rewrite (bind_Ok _ _ _ _ _ Hcall)|].
      exact Hrun. }
    split; [done|]. split; [done|]. split.
    { rewrite Hq', <- app_assoc. done. }
    split; [lia|]. split.
    + intros [|i] Hi.
      * rewrite Nat.add_0_r, Hold by lia. done.
      * replace (g0 + S i) with (S g0 + i) by lia. apply Hnew. lia.
    + split.
      * intros y Hy Hne. rewrite Hold by lia. rewrite Hold2 by done.
        by apply init_World_lookup_ne.
      * eapply same_rest_trans; [apply init_World_same_rest|].
        eapply same_rest_trans; [exact Hrest2|done].
Qed.

(** X12.  Requests made one after the other on a pending Fulfiller, each with a
    call that can be copied.  As many of them as the queue has room for,
    the first ones, are queued behind the calls already there, in the
    order they were made, each with the copy of its call and a new
    Fulfiller of its own, which is the answer to the request; the queue
    never holds more than [callQueueSize] calls, and every further request
    is answered with the queue-full error.  No call is made and nothing
    else changes. *)
Theorem PipelineCall_series (f : FulfillerId) : ∀ (reqs : list request)
    (w : World) (st : Fulfiller),
  fulfillers w !! f = Some st -> pending st = true ->
  Forall copies_to reqs ->
  let g0 := length (fulfillers w) in
  let n := min (callQueueSize - length (f_queue st)) (length reqs) in
  ∃ w' st',
    run (pipeline_all f reqs) w
    = Ok ((VAnswer ∘ FulfillerAnswer <$> seq g0 n) ++
          replicate (length reqs - n) (VAnswer (ErrorAnswer errCallQueueFull)))
         w' ∧
    fulfillers w' !! f = Some st' ∧ pending st' = true ∧
    f_queue st'
    = f_queue st ++ zip_with queued_request (take n reqs) (seq g0 n) ∧
    length (f_queue st') ≤ callQueueSize ∧
    length (fulfillers w') = g0 + n ∧
    (∀ i, i < n -> fulfillers w' !! (g0 + i) = Some zero_Fulfiller) ∧
    (∀ x, x < g0 -> x ≠ f -> fulfillers w' !! x = fulfillers w !! x) ∧
    same_rest w w'.
Proof.
  intros reqs w st Hf Hp Hcopy g0 n.
  destruct (pipeline_all_spec f reqs w st Hf Hp Hcopy)
    as (w' & st' & Hrun & Hf' & Hp' & Hq' & Hrest).
  exists w', st'. split; [done|]. split; [done|]. split; [done|].
  split; [done|]. split; [|done].
  by destruct (pending_inited 0 st' Hp') as (_ & <- & _ & _ & Hlen & _).
Qed.

(** ** No answer is ever replaced *)

Lemma load_ec_Ok_inv ec w e w' :
  load_ec ec w = Ok e w' -> w' = w ∧ ∃ pc, embargoes w !! ec = Some (e, pc).
Proof.
  unfold load_ec. destruct (embargoes w !! ec) as [[e0 pc]|] eqn:He; [|done].
  intros [= <- <-]. split; [done|]. by exists pc.
Qed.

Lemma load_pc_Ok_inv ec w pc w' :
  load_pc ec w = Ok pc w' -> w' = w ∧ ∃ e, embargoes w !! ec = Some (e, pc).
Proof.
  unfold load_pc. destruct (embargoes w !! ec) as [[e pc0]|] eqn:He; [|done].
  intros [= <- <-]. split; [done|]. by exists e.
Qed.

Lemma store_q_fulfillers ec q w w' :
  store_q ec q w = Ok tt w' -> fulfillers w' = fulfillers w.
Proof. by intros [= <-]. Qed.

Lemma store_pc_fulfillers ec pc w w' :
  store_pc ec pc w = Ok tt w' -> fulfillers w' = fulfillers w.
Proof. by intros [= <-]. Qed.

Lemma peek_fulfillers ec w c w' :
  embargoClient_peek ec w = Ok c w' -> fulfillers w' = fulfillers w.
Proof.
  unfold embargoClient_peek. intros Hrun.
  apply bind_Ok_inv in Hrun as (e & w1 & He & Hrun).
  apply load_ec_Ok_inv in He as [-> _].
  case_decide; [by injection Hrun as _ <-|].
  destruct (Queue_Peek (ec_q e)); [|done]. by injection Hrun as _ <-.
Qed.

Lemma pop_fulfillers ec w c w' :
  embargoClient_pop ec w = Ok c w' -> fulfillers w' = fulfillers w.
Proof.
  unfold embargoClient_pop. intros Hrun.
  apply bind_Ok_inv in Hrun as (e & w1 & He & Hrun).
  apply load_ec_Ok_inv in He as [-> _].
  case_decide; [by injection Hrun as _ <-|].
  destruct (Queue_Pop (ec_q e)) as [[q' x]|]; [|done].
  apply bind_Ok_inv in Hrun as ([] & w2 & Hst & Hret).
  injection Hret as _ <-. by eapply store_q_fulfillers.
Qed.

Lemma isPassthrough_Ok_inv ec w b w' :
  embargoClient_isPassthrough ec w = Ok b w' -> w' = w.
Proof.
  unfold embargoClient_isPassthrough. intros Hrun.
  apply bind_Ok_inv in Hrun as (e & w1 & He & Hrun).
  apply load_ec_Ok_inv in He as [-> _]. by injection Hrun as _ <-.
Qed.

Lemma Client_Call_fulfillers via c cl w a w' :
  Client_Call via c cl w = Ok a w' -> fulfillers w' = fulfillers w.
Proof. by intros [= _ <-]. Qed.

Lemma push_fulfillers ec cl w a w' :
  embargoClient_push ec cl w = Ok a w' ->
  fulfillers w' = fulfillers w ++ [zero_Fulfiller].
Proof.
  unfold embargoClient_push. intros Hrun.
  apply bind_Ok_inv in Hrun as (g & w1 & Hnew & Hrun).
  injection Hnew as <- <-.
  destruct (Call_Copy cl) as [err|cl']; [by injection Hrun as _ <-|].
  apply bind_Ok_inv in Hrun as (e & w2 & He & Hrun).
  apply load_ec_Ok_inv in He as [-> _].
  destruct (Queue_Push _ _) as [[q' ok]|]; [|done].
  apply bind_Ok_inv in Hrun as ([] & w3 & Hst & Hret).
  apply store_q_fulfillers in Hst.
  destruct ok; injection Hret as _ <-; by rewrite Hst.
Qed.

Lemma alloc_Evolves w w' :
  fulfillers w' = fulfillers w ++ [zero_Fulfiller] -> Evolves w w'.
Proof.
  intros Heq. split.
  - intros x st Hx. exists st. rewrite Heq.
    split; [by apply lookup_app_l_Some|apply evolves_refl].
  - intros x st' Hx Hnone. rewrite Heq in Hx.
    apply lookup_ge_None in Hnone. rewrite lookup_app_r in Hx by done.
    destruct (x - length (fulfillers w)) as [|n]; [|done].
    injection Hx as <-. apply coherent_zero.
Qed.

Lemma Call_Evolves ec cl w a w' :
  embargoClient_Call ec cl w = Ok a w' -> Evolves w w'.
Proof.
  unfold embargoClient_Call. intros Hrun.
  apply bind_Ok_inv in Hrun as (ok & w1 & Hp & Hrun).
  apply isPassthrough_Ok_inv in Hp as ->.
  destruct ok.
  { apply bind_Ok_inv in Hrun as (e & w1 & He & Hrun).
    apply load_ec_Ok_inv in He as [-> _].
    by eapply Evolves_same_fulfillers, Client_Call_fulfillers. }
  apply bind_Ok_inv in Hrun as (ok & w1 & Hp & Hrun).
  apply isPassthrough_Ok_inv in Hp as ->.
  destruct ok.
  { apply bind_Ok_inv in Hrun as (e & w1 & He & Hrun).
    apply load_ec_Ok_inv in He as [-> _].
    by eapply Evolves_same_fulfillers, Client_Call_fulfillers. }
  by eapply alloc_Evolves, push_fulfillers.
Qed.

Lemma WrappedClient_Ok_inv ec w c w' :
  embargoClient_WrappedClient ec w = Ok c w' -> w' = w.
Proof.
  unfold embargoClient_WrappedClient. intros Hrun.
  apply bind_Ok_inv in Hrun as (ok & w1 & Hp & Hrun).
  apply isPassthrough_Ok_inv in Hp as ->.
  destruct ok; simpl in Hrun.
  - apply bind_Ok_inv in Hrun as (e & w1 & He & Hrun).
    apply load_ec_Ok_inv in He as [-> _]. by injection Hrun as _ <-.
  - by injection Hrun as _ <-.
Qed.

Lemma Close_loop_Evolves ec : ∀ n w w',
  Close_loop n ec w = Ok tt w' -> Evolves w w'.
Proof.
  induction n as [|n IH]; intros w w' Hrun; simpl in Hrun;
    apply bind_Ok_inv in Hrun as (e & w1 & He & Hrun);
    apply load_ec_Ok_inv in He as [-> _];
    (case_decide; [injection Hrun as <-; apply Evolves_refl|]);
    [done|].
  apply bind_Ok_inv in Hrun as (c & w1 & Hpop & Hrun).
  apply bind_Ok_inv in Hrun as ([] & w2 & Hrej & Hrun).
  eapply Evolves_trans;
    [by eapply Evolves_same_fulfillers, pop_fulfillers|].
  eapply Evolves_trans; [|by eapply IH].
  by apply Fulfiller_Reject_Evolves in Hrej as [? _].
Qed.

Lemma Close_Evolves ec w w' :
  embargoClient_Close ec w = Ok tt w' -> Evolves w w'.
Proof.
  unfold embargoClient_Close. intros Hrun.
  apply bind_Ok_inv in Hrun as (e & w1 & He & Hrun).
  apply load_ec_Ok_inv in He as [-> _].
  apply bind_Ok_inv in Hrun as ([] & w1 & Hloop & Hrun).
  injection Hrun as <-.
  eapply Evolves_trans; [by eapply Close_loop_Evolves|].
  by apply Evolves_same_fulfillers.
Qed.

Lemma flush_step_fulfillers ec w w' :
  flush_step ec w = Ok tt w' -> fulfillers w' = fulfillers w.
Proof.
  unfold flush_step. intros Hrun.
  apply bind_Ok_inv in Hrun as (pc & w1 & Hpc & Hrun).
  apply load_pc_Ok_inv in Hpc as [-> _].
  destruct pc as [|c| |].
  - apply bind_Ok_inv in Hrun as (c & w1 & Hpeek & Hst).
    apply store_pc_fulfillers in Hst. apply peek_fulfillers in Hpeek.
    congruence.
  - destruct (e_call c) as [cl|]; [|by eapply store_pc_fulfillers].
    apply bind_Ok_inv in Hrun as (e & w1 & He & Hrun).
    apply load_ec_Ok_inv in He as [-> _].
    apply bind_Ok_inv in Hrun as (ans & w1 & Hcall & Hrun).
    apply Client_Call_fulfillers in Hcall.
    apply bind_Ok_inv in Hrun as ([] & w2 & Hset & Hst).
    injection Hset as <-. apply store_pc_fulfillers in Hst.
    by rewrite Hst.
  - apply bind_Ok_inv in Hrun as (c & w1 & Hpop & Hrun).
    apply bind_Ok_inv in Hrun as (c' & w2 & Hpeek & Hst).
    apply store_pc_fulfillers in Hst. apply peek_fulfillers in Hpeek.
    apply pop_fulfillers in Hpop. congruence.
  - by injection Hrun as <-.
Qed.

Lemma settle_Evolves i r w w' : settle i r w = Ok tt w' -> Evolves w w'.
Proof.
  unfold settle, bind, gets, modify.
  destruct (settlers w !! i) as [[fp ans]|];
    [|intros [= <-]; apply Evolves_refl].
  destruct r as [err|s]; intros Hrun.
  - apply Fulfiller_Reject_Evolves in Hrun as [Hev _].
    eapply Evolves_trans; [|exact Hev]. by apply Evolves_same_fulfillers.
  - destruct (deref fp _) as [f w1|] eqn:Hd; [|done].
    apply deref_Ok_inv in Hd as (_ & -> & _).
    apply Fulfill_Evolves in Hrun as [Hev _].
    eapply Evolves_trans; [|exact Hev]. by apply Evolves_same_fulfillers.
Qed.

Lemma step_Evolves a w v w' : step a w = Ok v w' -> Evolves w w'.
Proof.
  destruct a as [f m|ec cl|ec|ec|ec|i r]; simpl; intros Hrun.
  - by eapply invoke_Evolves.
  - apply bind_Ok_inv in Hrun as (a & w1 & Hrun & Hret).
    injection Hret as _ <-. by eapply Call_Evolves.
  - apply bind_Ok_inv in Hrun as (a & w1 & Hrun & Hret).
    injection Hret as _ <-. apply WrappedClient_Ok_inv in Hrun as ->.
    apply Evolves_refl.
  - apply bind_Ok_inv in Hrun as ([] & w1 & Hrun & Hret).
    injection Hret as _ <-. by eapply Close_Evolves.
  - apply bind_Ok_inv in Hrun as ([] & w1 & Hrun & Hret).
    injection Hret as _ <-.
    by eapply Evolves_same_fulfillers, flush_step_fulfillers.
  - apply bind_Ok_inv in Hrun as ([] & w1 & Hrun & Hret).
    injection Hret as _ <-. by eapply settle_Evolves.
Qed.

Lemma run_Evolves : ∀ sched w vs w',
  run sched w = Ok vs w' -> Evolves w w'.
Proof.
  induction sched as [|a sched IH]; intros w vs w' Hrun; simpl in Hrun.
  - injection Hrun as _ <-. apply Evolves_refl.
  - apply bind_Ok_inv in Hrun as (v & w1 & Hstep & Hrun).
    apply bind_Ok_inv in Hrun as (vs1 & w2 & Hrun & Hret).
    injection Hret as _ <-.
    eapply Evolves_trans; [by eapply step_Evolves|by eapply IH].
Qed.

(** X13.  Along any sequence of calls to the operations of this package
    and of steps of its goroutines, in whatever order, none of which panics
    or blocks: a Fulfiller that holds an answer keeps that answer, an
    initialised Fulfiller keeps the channel that [Done] returns, and when
    every Fulfiller had its channel closed exactly if it held an answer,
    the same is true at the end, of the Fulfillers made on the way too. *)
Theorem answers_are_final (sched : list Action) (w w' : World)
    (vs : list Value) :
  run sched w = Ok vs w' ->
  (∀ x st a, fulfillers w !! x = Some st -> f_answer st = Some a ->
     ∃ st', fulfillers w' !! x = Some st' ∧ f_answer st' = Some a) ∧
  (∀ x st, fulfillers w !! x = Some st -> f_once st = true ->
     ∃ st', fulfillers w' !! x = Some st' ∧ f_once st' = true ∧
            ch_id <$> f_resolved st' = ch_id <$> f_resolved st) ∧
  ((∀ x st, fulfillers w !! x = Some st -> coherent st) ->
   ∀ x st', fulfillers w' !! x = Some st' -> coherent st').
Proof.
  intros Hrun. destruct (run_Evolves _ _ _ _ Hrun) as [Hold Hnew].
  split; [|split].
  - intros x st a Hx Ha.
    destruct (Hold x st Hx) as (st' & Hx' & [[_ Hans] _]).
    exists st'. split; [done|]. rewrite Hans by by rewrite Ha. done.
  - intros x st Hx Ho.
    destruct (Hold x st Hx) as (st' & Hx' & [[Hch _] _]).
    exists st'. split; [done|]. by apply Hch.
  - intros Hco x st' Hx'.
    destruct (fulfillers w !! x) as [st|] eqn:Hx.
    + destruct (Hold x st Hx) as (st2 & Hx2 & [_ Hc]).
      assert (st2 = st') as -> by congruence. by apply Hc, (Hco x).
    + by apply (Hnew x).
Qed.

(** ** The queue of an embargo client stays bounded *)

(** X14.  An embargo client made with at most [callQueueSize] calls that are not
    nil, and used without being closed.  Whatever the interleaving of its
    flush goroutine with [Call] and [WrappedClient], no step panics, the
    client keeps wrapping the same client, and its queue never holds more
    than [callQueueSize] calls, nor a call that is nil. *)
Theorem embargo_queue_stays_bounded (w0 : World) (c : Client)
    (q0 : list ecall) (sched : list Action) :
  length q0 ≤ callQueueSize ->
  Forall (λ e, is_Some (e_call e)) q0 ->
  let ec := length (embargoes w0) in
  let w1 :=
    set_embargoes (λ l, l ++ [(MkEmbargo c (new_queue q0), FlushStart)]) w0 in
  Forall (on_embargo ec) sched ->
  ∃ vs w2 q pc,
    run sched w1 = Ok vs w2 ∧ length vs = length sched ∧
    embargoes w2 !! ec = Some (MkEmbargo c q, pc) ∧
    length (Queue_contents q) ≤ callQueueSize ∧
    Forall (λ e, is_Some (e_call e)) (Queue_contents q).
Proof.
  intros Hlen Hcalls ec w1 Hon.
  pose proof (newEmbargoClient_inv w0 c q0 Hlen Hcalls) as Hinv.
  fold ec w1 in Hinv.
  destruct (run_inv _ _ _ sched _ _ Hon Hinv)
    as (vs & w2 & Hrun & Hvs & (q & pc & D & He & [Hwf Hcap] & Hall & _) & _).
  exists vs, w2, q, pc. split; [done|]. split; [done|]. split; [done|].
  split; [|done]. rewrite Queue_contents_length.
  destruct Hwf as (_ & Hn & _). simpl in *. lia.
Qed.

(** ** Pipelined calls reach the capability in the order they were made *)

Lemma resolve_ext s pc pc' :
  pc_transform pc = pc_transform pc' -> resolve s pc = resolve s pc'.
Proof. unfold resolve. by intros ->. Qed.

Lemma group_all s k Q :
  Forall (λ pc, resolve s pc = TargetCap k) Q -> group s k Q = pc_ecall <$> Q.
Proof.
  intros HQ. unfold group. f_equal.
  induction HQ as [|pc Q Hpc _ IH]; [done|].
  rewrite filter_cons_True; [by rewrite IH|].
  by apply Is_true_true, targets_TargetCap.
Qed.

Lemma group_other s k k' Q :
  Forall (λ pc, resolve s pc = TargetCap k) Q -> k' ≠ k -> group s k' Q = [].
Proof.
  intros HQ Hne. unfold group.
  induction HQ as [|pc Q Hpc _ IH]; [done|].
  rewrite filter_cons_False; [done|].
  intros Ht. apply Is_true_true, targets_TargetCap in Ht. congruence.
Qed.

Lemma single_entry {A B} (l : list (A * B)) (a : A * B) :
  NoDup l.*1 -> a ∈ l -> (∀ x, x ∈ l -> x = a) -> l = [a].
Proof.
  intros Hnd Ha Hall. destruct l as [|x l]; [by apply elem_of_nil in Ha|].
  assert (x = a) as -> by (apply Hall, list_elem_of_here).
  destruct l as [|y l]; [done|].
  assert (y = a) as -> by (apply Hall, list_elem_of_further, list_elem_of_here).
  simpl in Hnd. apply NoDup_cons in Hnd as [Hnin _].
  exfalso. apply Hnin, list_elem_of_here.
Qed.

Lemma zip_queued_lookup (reqs : list request) g0 i pc :
  zip_with queued_request reqs (seq g0 (length reqs)) !! i = Some pc ->
  ∃ r, reqs !! i = Some r ∧ pc = queued_request r (g0 + i).
Proof.
  intros Hi. apply lookup_zip_with_Some in Hi as (r & g & -> & Hr & Hg).
  apply lookup_seq in Hg as [-> _]. by exists r.
Qed.

Lemma zip_queued_length (reqs : list request) g0 :
  length (zip_with queued_request reqs (seq g0 (length reqs))) = length reqs.
Proof. rewrite length_zip_with, length_seq. lia. Qed.

Lemma zip_queued_tree w f st (reqs : list request) g0 :
  fulfillers w !! f = Some st -> pending st = true -> f < g0 ->
  f_queue st = zip_with queued_request reqs (seq g0 (length reqs)) ->
  (∀ i, i < length reqs -> fulfillers w !! (g0 + i) = Some zero_Fulfiller) ->
  tree_at w (Some f) (f :: seq g0 (length reqs)).
Proof.
  intros Hf Hp Hlt Hq Hnew.
  assert (Hcat : concat ((λ g, [g]) <$> seq g0 (length reqs))
                 = seq g0 (length reqs)).
  { generalize (seq g0 (length reqs)). induction l as [|x l IH]; [done|].
    rewrite fmap_cons. cbn [concat app]. by rewrite IH. }
  split.
  - exists 2. rewrite <- Hcat.
    apply (footprint_S_intro _ _ _ st); [done..|].
    rewrite Hq. apply Forall2_same_length_lookup.
    split; [by rewrite zip_queued_length, length_fmap, length_seq|].
    intros i pc fli Hpc Hfli.
    apply zip_queued_lookup in Hpc as (r & Hr & ->).
    rewrite list_lookup_fmap in Hfli.
    assert (Hi : i < length reqs) by by eapply lookup_lt_Some.
    rewrite lookup_seq_lt in Hfli by done. injection Hfli as <-.
    simpl. by rewrite (Hnew i Hi).
  - apply NoDup_cons. split; [|apply NoDup_seq].
    intros Hin. apply elem_of_seq in Hin. lia.
Qed.

(** X15.  Requests are made on an unresolved Fulfiller with nothing queued, no
    more of them than the queue has room for, each with a call that can
    be copied; the Fulfiller is then fulfilled with a struct on which all
    of them resolve to the same capability of the message's table; and the
    flush goroutine of the embargo client that [Fulfill] puts there runs.
    Every step returns, the capability is replaced by the embargo client
    around it, and the calls made into the capability are the copies of
    the requests' calls, each once, in the order the requests were made.
    For each of them a goroutine waits with the Fulfiller that answered
    the request and the answer to its call. *)
Theorem pipelined_calls_arrive_in_order (w : World) (f : FulfillerId)
    (st : Fulfiller) (reqs : list request) (s : Struct) (k : CapabilityID)
    (c : Client) :
  fulfillers w !! f = Some st -> pending st = true -> f_queue st = [] ->
  reqs ≠ [] -> length reqs ≤ callQueueSize ->
  Forall copies_to reqs -> Forall (resolves_to s k) reqs ->
  CapTable (Struct_Message s) w !! N.to_nat k = Some c ->
  let g0 := length (fulfillers w) in
  let id := length (embargoes w) in
  ∃ w1 w2 w3,
    run (pipeline_all f reqs) w
    = Ok (VAnswer ∘ FulfillerAnswer <$> seq g0 (length reqs)) w1 ∧
    Fulfiller_Fulfill f s w1 = Ok tt w2 ∧
    CapTable (Struct_Message s) w2 !! N.to_nat k = Some (embargoRef id) ∧
    flushQueue (2 * length reqs + 2) id w2 = Ok tt w3 ∧
    events w3 = events w ++ (EvCall id c <$> reqs.*2) ∧
    settlers w3
    = settlers w ++
      zip_with (λ (r : request) g, (Some g, CallAnswer c r.2))
        reqs (seq g0 (length reqs)) ∧
    embargoClient_WrappedClient id w3 = Ok (Some c) w3.
Proof.
  intros Hf Hp Hq Hne Hlen Hcopy Hres Hc g0 id.
  set (m := Struct_Message s) in *.
  assert (Hflt : f < g0) by by eapply lookup_lt_Some.
  (* the requests *)
  pose proof (pipeline_all_spec f reqs w st Hf Hp Hcopy) as H1.
  cbv zeta in H1. rewrite Hq in H1. cbn [length] in H1.
  rewrite Nat.sub_0_r, (Nat.min_r _ _ Hlen), Nat.sub_diag, take_ge in H1
    by done.
  cbn [replicate] in H1. rewrite app_nil_r in H1. fold g0 in H1.
  destruct H1
    as (w1 & st1 & Hrun1 & Hf1 & Hp1 & Hq1 & Hlen1 & Hnew1 & _ & Hrest1).
  simpl in Hq1.
  set (Q := zip_with queued_request reqs (seq g0 (length reqs))) in *.
  assert (HQ : Forall (λ pc, resolve s pc = TargetCap k) Q).
  { apply Forall_lookup. intros i pc Hpc.
    apply zip_queued_lookup in Hpc as (r & Hr & ->).
    rewrite Forall_lookup in Hres. rewrite <- (Hres i r Hr).
    by apply resolve_ext. }
  assert (HQne : Q ≠ []).
  { intros HQ0. apply (f_equal length) in HQ0.
    unfold Q in HQ0. rewrite zip_queued_length in HQ0.
    destruct reqs; [done|simpl in HQ0; lia]. }
  assert (Htab1 : CapTable m w1 = CapTable m w).
  { unfold CapTable. by destruct Hrest1 as (_ & _ & -> & _). }
  (* Fulfill *)
  pose proof (zip_queued_tree w1 f st1 reqs g0 Hf1 Hp1 Hflt Hq1 Hnew1) as Ht.
  destruct (Fulfill_spec w1 f _ s Ht)
    as (w2 & st0 & fps & l & Hrun2 & Hf0 & _ & _ & _ & _ & _ & _ & _
        & Hs2 & He2 & _ & _ & Hnd & Hl & _ & Hhit & _ & _).
  { intros st' pc k' Hst' Hpc Hk'. fold m. rewrite Htab1.
    assert (st' = st1) as -> by congruence. rewrite Hq1 in Hpc.
    rewrite Forall_forall in HQ. rewrite (HQ pc Hpc) in Hk'.
    injection Hk' as <-. by eapply lookup_lt_Some. }
  assert (st0 = st1) as -> by congruence. rewrite Hq1 in Hl.
  set (E := pc_ecall <$> Q) in *.
  assert (Hg : grouped s k Q = Some E).
  { apply grouped_Some. rewrite (group_all _ _ _ HQ). split; [done|].
    unfold E. intros HE. apply fmap_nil_inv in HE. done. }
  assert (Hl1 : l = [(k, E)]).
  { apply single_entry; [done|by apply Hl|].
    intros [k' q'] Hin. apply Hl in Hin.
    destruct (decide (k' = k)) as [->|Hk'].
    - rewrite Hg in Hin. by injection Hin as <-.
    - apply grouped_Some in Hin as [_ Hin].
      by rewrite (group_other _ _ _ _ HQ Hk') in Hin. }
  destruct (Hhit 0 k E) as (c' & Hc' & Htab2 & Hemb2); [by rewrite Hl1|].
  fold m in Hc', Htab2. rewrite Htab1, Hc in Hc'. injection Hc' as <-.
  assert (Hid : length (embargoes w1) + 0 = id).
  { unfold id. destruct Hrest1 as (-> & _). lia. }
  rewrite Hid in Htab2, Hemb2.
  (* the flush goroutine *)
  assert (HlenE : length E = length reqs).
  { unfold E, Q. by rewrite length_fmap, zip_queued_length. }
  destruct (new_queue_spec E) as (Hwf & _ & _).
  pose proof (new_queue_contents E ltac:(lia)) as HcE.
  assert (HallE : Forall (λ e, is_Some (e_call e))
                    (Queue_contents (new_queue E))).
  { rewrite HcE. unfold E. apply Forall_fmap, Forall_lookup.
    intros i pc Hpc. apply zip_queued_lookup in Hpc as (r & _ & ->).
    by eexists. }
  destruct (flushQueue_spec w2 id c (new_queue E) Hemb2 Hwf HallE)
    as (w3 & q3 & Hrun3 & Hemb3 & Hq3 & Hset3 & Hev3 & _).
  rewrite HcE, HlenE in Hrun3. rewrite HcE in Hset3, Hev3.
  exists w1, w2, w3. split; [done|]. split; [done|]. split; [done|].
  split; [done|].
  assert (Hcalls : calls E = reqs.*2 ∧
                   omap (settler_of c) E
                   = zip_with (λ (r : request) g, (Some g, CallAnswer c r.2))
                       reqs (seq g0 (length reqs))).
  { unfold E, Q. clear. generalize g0.
    induction reqs as [|[[tr cl] cc] rest IH]; intros g; [done|].
    destruct (IH (S g)) as [IH1 IH2]. cbn [length seq zip_with fmap list_fmap].
    split.
    - unfold calls in *. cbn [omap list_omap]. simpl. by rewrite IH1.
    - cbn [omap list_omap]. unfold settler_of at 1. simpl. by rewrite IH2. }
  destruct Hcalls as [Hcalls Hsett].
  split.
  { rewrite Hev3, He2, Hcalls. by destruct Hrest1 as (_ & _ & _ & ->). }
  split.
  { rewrite Hset3, Hs2, Hsett. by destruct Hrest1 as (_ & -> & _). }
  assert (He3 : embargoes w3 !! id = Some (MkEmbargo c q3, FlushDone)).
  { rewrite Hemb3. apply list_lookup_insert_eq. by eapply lookup_lt_Some. }
  rewrite (WrappedClient_Some _ _ _ He3). simpl.
  rewrite decide_True; [done|]. by rewrite <- Queue_contents_length, Hq3.
Qed.

(** X16.  Requests are made on an unresolved Fulfiller with nothing queued,
    no more of them than the queue has room for, each with a call that can
    be copied; the Fulfiller is then rejected with an error.  Every step
    returns; [Struct] on the Fulfiller and on the answer to every one of
    the requests returns that error; and no call has been made, no embargo
    client made and no capability table changed. *)
Theorem pipelined_calls_fail_on_reject (w : World) (f : FulfillerId)
    (st : Fulfiller) (reqs : list request) (e : error) :
  fulfillers w !! f = Some st -> pending st = true -> f_queue st = [] ->
  length reqs ≤ callQueueSize -> Forall copies_to reqs ->
  let g0 := length (fulfillers w) in
  ∃ w1 w2,
    run (pipeline_all f reqs) w
    = Ok (VAnswer ∘ FulfillerAnswer <$> seq g0 (length reqs)) w1 ∧
    Fulfiller_Reject (Some f) (Some e) w1 = Ok tt w2 ∧
    Fulfiller_Struct f w2 = Ok (ErrorAnswer e) w2 ∧
    (∀ i, i < length reqs ->
       Fulfiller_Struct (g0 + i) w2 = Ok (ErrorAnswer e) w2) ∧
    same_rest w w2.
Proof.
  intros Hf Hp Hq Hlen Hcopy g0.
  assert (Hflt : f < g0) by by eapply lookup_lt_Some.
  pose proof (pipeline_all_spec f reqs w st Hf Hp Hcopy) as H1.
  cbv zeta in H1. rewrite Hq in H1. cbn [length] in H1.
  rewrite Nat.sub_0_r, (Nat.min_r _ _ Hlen), Nat.sub_diag, take_ge in H1
    by done.
  cbn [replicate] in H1. rewrite app_nil_r in H1. fold g0 in H1.
  destruct H1
    as (w1 & st1 & Hrun1 & Hf1 & Hp1 & Hq1 & Hlen1 & Hnew1 & _ & Hrest1).
  simpl in Hq1.
  pose proof (zip_queued_tree w1 f st1 reqs g0 Hf1 Hp1 Hflt Hq1 Hnew1) as Ht.
  destruct (Fulfiller_Reject_tree w1 f _ e Ht)
    as (w2 & Hrun2 & _ & _ & Hin & Hrest2).
  exists w1, w2. split; [done|]. split; [done|]. split.
  { destruct (Hin f) as (st' & Hf' & Hres'); [apply list_elem_of_here|].
    by eapply Struct_resolved. }
  split; [|by eapply same_rest_trans].
  intros i Hi. destruct (Hin (g0 + i)) as (st' & Hf' & Hres').
  { apply list_elem_of_further, elem_of_seq. lia. }
  by eapply Struct_resolved.
Qed.
End Proofs.

(** * The theorems at work *)

Import Demo Example.

Lemma pipelined_tree : tree_at pipelined (Some 0) [0; 1; 6; 2; 3; 4; 5].
Proof.
  split; [by exists 3|]. apply (bool_decide_unpack _). by vm_compute.
Qed.

Lemma pipelined_root :
  fulfillers pipelined !! 0
  = Some (MkFulfiller true (Some (MkChan 0 false)) None
            queue0 64).
Proof. by vm_compute. Qed.

Lemma pipelined_in_table (pc : pcall) (k : N) :
  pc ∈ queue0 ->
  resolve result pc = TargetCap k ->
  N.to_nat k < length (CapTable (Struct_Message result) pipelined).
Proof.
  intros Hpc Hr.
  assert (k = 0%N ∨ k = 1%N) as [-> | ->]; [|vm_compute; lia..].
  repeat (apply elem_of_cons in Hpc as [-> | Hpc]);
    try (by apply elem_of_nil in Hpc);
    vm_compute in Hr; try discriminate; injection Hr as <-; auto.
Qed.

Lemma fulfilled_embargo :
  embargoes fulfilled !! 0
  = Some (MkEmbargo (extClient 11)
            (new_queue calls13), FlushStart).
Proof. by vm_compute. Qed.

Lemma fulfilled_embargo_ok :
  embargo_ok (MkEmbargo (extClient 11)
                (new_queue calls13)).
Proof.
  destruct (new_queue_spec calls13) as (? & ? & _).
  by split.
Qed.

Lemma rejected_root :
  fulfillers rejected !! 0
  = Some (MkFulfiller true (Some (MkChan 0 true))
            (Some (ErrorAnswer (ErrOther 3))) (replicate 5 zero_pcall) 64).
Proof. vm_compute. reflexivity. Qed.

(** C3 at a Fulfiller that was rejected. *)
Lemma second_resolution_panics_witness :
  fulfillers rejected !! 0
  = Some (MkFulfiller true (Some (MkChan 0 true))
            (Some (ErrorAnswer (ErrOther 3))) (replicate 5 zero_pcall) 64) ∧
  (∃ w', Fulfiller_Fulfill 0 result rejected =
           Fail (Panic "Fulfiller.Fulfill called more than once") w' ∧
         Fulfiller_Peek 0 w' = Ok (Some (ErrorAnswer (ErrOther 3))) w' ∧
         w' = rejected).
Proof.
  split; [exact rejected_root|].
  destruct (second_resolution_panics rejected 0 _ (ErrorAnswer (ErrOther 3))
              rejected_root eq_refl) as [Hf _].
  destruct (Hf result) as (w' & Hrun & Hpeek & Hsame).
  exists w'. split; [exact Hrun|]. split; [exact Hpeek|].
  exact (Hsame eq_refl).
Defined.

(** C4 as stated fails when the copy fails: the Fulfiller is unresolved
    and its queue is empty, yet the answer is the error of the copy, not a
    child Fulfiller, and nothing is queued. *)
Lemma PipelineCall_copy_failure :
  fulfillers start !! 0 = Some zero_Fulfiller ∧
  Call_Copy 100 = inl (ErrOther 100) ∧
  Fulfiller_PipelineCall 0 [0] 100 start
  = Ok (ErrorAnswer (ErrOther 100)) (init_World 0 zero_Fulfiller start) ∧
  f_queue <$> fulfillers (init_World 0 zero_Fulfiller start) !! 0 = Some [] ∧
  ¬ ∃ g w', Fulfiller_PipelineCall 0 [0] 100 start
            = Ok (FulfillerAnswer g) w'.
Proof.
  assert (Hrun : Fulfiller_PipelineCall 0 [0] 100 start
                 = Ok (ErrorAnswer (ErrOther 100))
                      (init_World 0 zero_Fulfiller start)) by by vm_compute.
  split; [done|]. split; [done|]. split; [done|]. split; [done|].
  intros (g & w' & Hg). rewrite Hrun in Hg. discriminate.
Qed.

Lemma fulfilled_root :
  fulfillers fulfilled !! 0
  = Some (MkFulfiller true (Some (MkChan 0 true))
            (Some (ImmediateAnswer result)) [] 0).
Proof. vm_compute. reflexivity. Qed.

(** C4, amended: a sixth call pipelined on the initialised root of the
    example, whose queue has the capacity [init] gave it, and a call on the
    same root once it has been fulfilled, whose queue is nil. *)
Lemma PipelineCall_cases_witness :
  (fulfillers pipelined !! 0
   = Some (MkFulfiller true (Some (MkChan 0 false)) None queue0 64) ∧
   Call_Copy 7 = inr 1007 ∧
   Fulfiller_PipelineCall 0 [0] 7 pipelined
   = Ok (FulfillerAnswer 7) (enqueued 0 [0] 1007 pipelined)) ∧
  (fulfillers fulfilled !! 0
   = Some (MkFulfiller true (Some (MkChan 0 true))
             (Some (ImmediateAnswer result)) [] 0) ∧
   Fulfiller_PipelineCall 0 [0] 7 fulfilled
   = Ok (PipelineAnswer (ImmediateAnswer result) [0] 7)
        (emit (EvPipelineCall (ImmediateAnswer result) [0] 7) fulfilled)).
Proof.
  split.
  - split; [exact pipelined_root|]. split; [reflexivity|].
    destruct (PipelineCall_cases pipelined 0 _ [0] 7 pipelined_root)
      as (_ & _ & _ & Hq); [intros _ _; reflexivity|].
    destruct (Hq eq_refl) as (_ & _ & Hroom).
    destruct (Hroom ltac:(vm_compute; lia) 1007 eq_refl) as [Hrun _].
    rewrite (init_World_once pipelined 0
               (MkFulfiller true (Some (MkChan 0 false)) None queue0 64)
               eq_refl) in Hrun.
    exact Hrun.
  - split; [exact fulfilled_root|].
    destruct (PipelineCall_cases fulfilled 0 _ [0] 7 fulfilled_root)
      as (_ & _ & Hres & _); [intros _ Hnone; discriminate Hnone|].
    destruct (Hres _ eq_refl) as [Hrun _].
    rewrite (init_World_once fulfilled 0
               (MkFulfiller true (Some (MkChan 0 true))
                  (Some (ImmediateAnswer result)) [] 0)
               eq_refl) in Hrun.
    exact Hrun.
Defined.

(** C8 as stated fails when the copy fails: the queue holds two calls of
    sixty-four, yet the answer is the error of the copy, and no call is
    queued. *)
Lemma embargo_Call_copy_failure :
  Queue_contents (new_queue calls13)
  = calls13 ∧
  Call_Copy 100 = inl (ErrOther 100) ∧
  embargoClient_Call 0 100 fulfilled
  = Ok (ErrorAnswer (ErrOther 100)) (alloc_Fulfiller fulfilled) ∧
  embargoes (alloc_Fulfiller fulfilled) = embargoes fulfilled ∧
  ¬ (∃ g w', embargoClient_Call 0 100 fulfilled = Ok (FulfillerAnswer g) w') ∧
  ¬ (∃ w', embargoClient_Call 0 100 fulfilled
           = Ok (ErrorAnswer errCallQueueFull) w').
Proof.
  assert (Hrun : embargoClient_Call 0 100 fulfilled
                 = Ok (ErrorAnswer (ErrOther 100)) (alloc_Fulfiller fulfilled))
    by by vm_compute.
  split; [by apply new_queue_contents; vm_compute; lia|].
  split; [done|]. split; [done|]. split; [done|]. split.
  - intros (g & w' & Hg). rewrite Hrun in Hg. discriminate.
  - intros (w' & Hg). rewrite Hrun in Hg. discriminate.
Qed.

(** C8, amended, at a call that is queued behind two. *)
Lemma embargo_Call_cases_witness :
  embargoes fulfilled !! 0
  = Some (MkEmbargo (extClient 11)
            (new_queue calls13), FlushStart) ∧
  embargo_ok (MkEmbargo (extClient 11)
                (new_queue calls13)) ∧
  ∃ q', embargoClient_Call 0 9 fulfilled
        = Ok (FulfillerAnswer 7)
             (set_embargoes
                (λ l, <[0 := (MkEmbargo (extClient 11) q', FlushStart)]> l)
                (alloc_Fulfiller fulfilled)) ∧
        Queue_contents q'
        = [Ecall (Some 1001) (Some 1); Ecall (Some 1003) (Some 3);
           Ecall (Some 1009) (Some 7)].
Proof.
  split; [apply fulfilled_embargo|]. split; [apply fulfilled_embargo_ok|].
  destruct (embargo_Call_cases fulfilled 0 _ _ 9 fulfilled_embargo
              fulfilled_embargo_ok) as [_ Hq].
  assert (Hc : Queue_contents
                 (new_queue calls13)
               = calls13)
    by by apply new_queue_contents; vm_compute; lia.
  destruct Hq as [_ Hcopy]; [cbn [ec_q]; by rewrite Hc|].
  destruct (Hcopy 1009 eq_refl) as [_ Hroom].
  destruct Hroom as (q' & Hrun & _ & Hq');
    [cbn [ec_q]; rewrite Hc; vm_compute; lia|].
  exists q'. split; [exact Hrun|]. cbn [ec_q] in Hq'.
  rewrite Hq', Hc. reflexivity.
Defined.


(** C6 at the Fulfiller with five calls queued, one of which has a call
    queued on its own answer. *)
Lemma Reject_rejects_queue_witness :
  tree_at pipelined (Some 0) [0; 1; 6; 2; 3; 4; 5] ∧
  ∃ w', Fulfiller_Reject (Some 0) (Some (ErrOther 3)) pipelined = Ok tt w' ∧
        Fulfiller_Peek 0 w' = Ok (Some (ErrorAnswer (ErrOther 3))) w' ∧
        rejected_in (ErrOther 3) [0; 1; 6; 2; 3; 4; 5] pipelined w'.
Proof.
  split; [apply pipelined_tree|].
  destruct (Reject_rejects_queue pipelined 0 _ (ErrOther 3) pipelined_tree)
    as (w' & Hrun & Hpeek & _ & Hrej).
  exists w'. split; [exact Hrun|]. split; [exact Hpeek|exact Hrej].
Defined.

(** C1 at the same Fulfiller: capability 1 gets calls 1 and 3, capability
    0 gets call 2. *)
Lemma Fulfill_embargoes_groups_witness :
  tree_at pipelined (Some 0) [0; 1; 6; 2; 3; 4; 5] ∧
  group result 1 queue0
  = calls13 ∧
  ∃ w' id q,
    Fulfiller_Fulfill 0 result pipelined = Ok tt w' ∧
    CapTable 7 w' !! 1 = Some (embargoRef id) ∧
    embargoes w' !! id = Some (MkEmbargo (extClient 11) q, FlushStart) ∧
    Queue_contents q
    = calls13.
Proof.
  split; [apply pipelined_tree|]. split; [by vm_compute|].
  destruct (Fulfill_embargoes_groups pipelined 0 _ _ result pipelined_tree
              pipelined_root pipelined_in_table)
    as (w' & Hrun & _ & _ & _ & _ & Hhit & _).
  destruct (Hhit 1%N) as (id & c & q & Hc & Ht & _ & He & _ & Hq);
    [by vm_compute|].
  exists w', id, q. split; [done|]. split; [done|].
  assert (c = extClient 11) as -> by (vm_compute in Hc; congruence).
  split; [done|]. rewrite Hq. by vm_compute.
Defined.



(** Fulfilling the root of the example. *)
Lemma Fulfill_pipelined :
  invoke (MFulfill result) 0 pipelined = Ok VUnit fulfilled.
Proof. vm_compute. reflexivity. Qed.

(** C9 as stated fails at [Reject] of a nil error: it panics before [init]
    runs, and leaves the zero Fulfiller as it was, where [init] followed by
    the same call leaves it initialised. *)
Lemma Reject_nil_before_init :
  invoke (MReject None) 0 start
  = Fail (Panic "Fulfiller.Reject called with nil") start ∧
  f_once <$> fulfillers start !! 0 = Some false ∧
  (Fulfiller_init 0 >> invoke (MReject None) 0) start
  = Fail (Panic "Fulfiller.Reject called with nil")
         (init_World 0 zero_Fulfiller start) ∧
  f_once <$> fulfillers (init_World 0 zero_Fulfiller start) !! 0 = Some true ∧
  invoke (MReject None) 0 start
  ≠ (Fulfiller_init 0 >> invoke (MReject None) 0) start.
Proof.
  split; [vm_compute; reflexivity|]. split; [vm_compute; reflexivity|].
  split; [vm_compute; reflexivity|]. split; [vm_compute; reflexivity|].
  vm_compute. discriminate.
Qed.

(** C9, amended, at the root of the example, fulfilled. *)
Lemma Fulfiller_resolution_coherent_witness :
  fulfillers pipelined !! 0
  = Some (MkFulfiller true (Some (MkChan 0 false)) None queue0 64) ∧
  coherent (MkFulfiller true (Some (MkChan 0 false)) None queue0 64) ∧
  MFulfill result ≠ MReject None ∧
  invoke (MFulfill result) 0 pipelined = Ok VUnit fulfilled ∧
  Evolves pipelined fulfilled ∧
  ∃ c, Fulfiller_Done 0 pipelined = Ok (Some c) pipelined ∧
       Fulfiller_Peek 0 pipelined = Ok None pipelined ∧
       Fulfiller_Done 0 fulfilled = Ok (Some c) fulfilled ∧
       Fulfiller_Peek 0 fulfilled
       = Ok (Some (ImmediateAnswer result)) fulfilled.
Proof.
  assert (Hc : coherent (MkFulfiller true (Some (MkChan 0 false)) None
                           queue0 64)).
  { exists (MkChan 0 false). split; [reflexivity|]. simpl.
    split; [discriminate|]. intros [a Ha]. discriminate. }
  assert (Hm : MFulfill result ≠ MReject None) by discriminate.
  split; [exact pipelined_root|]. split; [exact Hc|]. split; [exact Hm|].
  split; [exact Fulfill_pipelined|].
  destruct (Fulfiller_resolution_coherent (MFulfill result) 0 pipelined _
              pipelined_root Hc Hm)
    as (_ & _ & _ & ch & HD & HP & _ & _ & Hafter).
  destruct (Hafter _ _ Fulfill_pipelined)
    as (Hev & st' & ch' & _ & _ & Hid & HD' & HP' & _ & Ha).
  split; [exact Hev|].
  exists (ch_id ch).
  rewrite (init_World_once pipelined 0
             (MkFulfiller true (Some (MkChan 0 false)) None queue0 64)
             eq_refl) in HD, HP.
  cbn [f_answer] in HP.
  rewrite Hid in HD'. rewrite Ha in HP'.
  split; [exact HD|]. split; [exact HP|]. split; [exact HD'|exact HP'].
Defined.

(** C7 fails on the code when a queued call is in flight.  The embargo
    client holds two calls.  The flushing goroutine makes the first call
    and, before it pops it, the call's answer arrives and fulfils the
    call's Fulfiller.  [Close] then pops that call, rejects its Fulfiller
    and panics: the second call stays queued with its Fulfiller
    unresolved, and the wrapped client is never closed. *)
Theorem Close_after_settled_call_panics :
  embargoes fulfilled !! 0
  = Some (MkEmbargo (extClient 11) (new_queue calls13), FlushStart) ∧
  run [AFlush 0; AFlush 0; ASettle 0 (inr (Str 7 []))] fulfilled
  = Ok [VUnit; VUnit; VUnit] in_flight ∧
  (Queue_contents ∘ ec_q ∘ fst) <$> embargoes in_flight !! 0 = Some calls13 ∧
  snd <$> embargoes in_flight !! 0 = Some FlushPop ∧
  f_answer <$> fulfillers in_flight !! 1
  = Some (Some (ImmediateAnswer (Str 7 []))) ∧
  embargoClient_Close 0 in_flight
  = Fail (Panic "Fulfiller.Reject called more than once") half_closed ∧
  (Queue_contents ∘ ec_q ∘ fst) <$> embargoes half_closed !! 0
  = Some [Ecall (Some 1003) (Some 3)] ∧
  f_answer <$> fulfillers half_closed !! 3 = Some None ∧
  dispatched 0 (events half_closed) = [1001] ∧
  closes 0 (events half_closed) = [].
Proof.
  split; [vm_compute; reflexivity|]. split; [vm_compute; reflexivity|].
  split; [vm_compute; reflexivity|]. split; [vm_compute; reflexivity|].
  split; [vm_compute; reflexivity|]. split; [vm_compute; reflexivity|].
  split; [vm_compute; reflexivity|]. split; [vm_compute; reflexivity|].
  split; vm_compute; reflexivity.
Qed.

(** ** Further properties at work *)

Lemma rejected_coherent :
  coherent (MkFulfiller true (Some (MkChan 0 true))
              (Some (ErrorAnswer (ErrOther 3))) (replicate 5 zero_pcall) 64).
Proof.
  exists (MkChan 0 true). split; [reflexivity|]. split; [by eexists|done].
Qed.

(** [Struct] on the rejected root of the example, and on a new Fulfiller. *)
Lemma Struct_waits_for_answer_witness :
  fulfillers rejected !! 0
  = Some (MkFulfiller true (Some (MkChan 0 true))
            (Some (ErrorAnswer (ErrOther 3))) (replicate 5 zero_pcall) 64) ∧
  Fulfiller_Struct 0 rejected = Ok (ErrorAnswer (ErrOther 3)) rejected ∧
  Fulfiller_Struct 0 start
  = Fail Blocked (init_World 0 zero_Fulfiller start).
Proof.
  split; [exact rejected_root|]. split.
  - exact (Struct_waits_for_answer rejected 0 _ rejected_root
             rejected_coherent).
  - exact (Struct_waits_for_answer start 0 zero_Fulfiller eq_refl
             coherent_zero).
Defined.

(** [PipelineClose] on the same two Fulfillers. *)
Lemma PipelineClose_waits_for_answer_witness :
  fulfillers rejected !! 0
  = Some (MkFulfiller true (Some (MkChan 0 true))
            (Some (ErrorAnswer (ErrOther 3))) (replicate 5 zero_pcall) 64) ∧
  Fulfiller_PipelineClose 0 [0] rejected
  = Ok tt (emit (EvPipelineClose (ErrorAnswer (ErrOther 3)) [0]) rejected) ∧
  Fulfiller_PipelineClose 0 [0] start
  = Fail Blocked (init_World 0 zero_Fulfiller start).
Proof.
  split; [exact rejected_root|]. split.
  - exact (PipelineClose_waits_for_answer rejected 0 _ [0] rejected_root
             rejected_coherent).
  - exact (PipelineClose_waits_for_answer start 0 zero_Fulfiller [0] eq_refl
             coherent_zero).
Defined.

(** The fulfilled root of the example hands on to its struct. *)
Lemma resolved_delegates_witness :
  invoke (resolve_by (inr result)) 0 pipelined = Ok VUnit fulfilled ∧
  Fulfiller_Struct 0 fulfilled = Ok (ImmediateAnswer result) fulfilled ∧
  Fulfiller_PipelineCall 0 [1] 8 fulfilled
  = Ok (PipelineAnswer (ImmediateAnswer result) [1] 8)
       (emit (EvPipelineCall (ImmediateAnswer result) [1] 8) fulfilled).
Proof.
  split; [exact Fulfill_pipelined|].
  destruct (resolved_delegates (inr result) 0 pipelined fulfilled VUnit [1] 8
              Fulfill_pipelined) as (_ & HS & HP & _).
  split; [exact HS|exact HP].
Defined.

(** [peek] and [pop] on the embargo client that holds calls 1 and 3. *)
Lemma peek_and_pop_head_witness :
  embargoes fulfilled !! 0
  = Some (MkEmbargo (extClient 11) (new_queue calls13), FlushStart) ∧
  Queue_wf (new_queue calls13) ∧
  embargoClient_peek 0 fulfilled
  = Ok (Ecall (Some 1001) (Some 1)) fulfilled ∧
  ∃ q' w',
    embargoClient_pop 0 fulfilled = Ok (Ecall (Some 1001) (Some 1)) w' ∧
    embargoes w' !! 0 = Some (MkEmbargo (extClient 11) q', FlushStart) ∧
    Queue_contents q' = [Ecall (Some 1003) (Some 3)].
Proof.
  assert (Hc : Queue_contents (new_queue calls13) = calls13)
    by (apply new_queue_contents; vm_compute; lia).
  destruct fulfilled_embargo_ok as [Hwf _]. cbn [ec_q] in Hwf.
  split; [exact fulfilled_embargo|]. split; [exact Hwf|].
  destruct (peek_and_pop_head fulfilled 0 _ _ fulfilled_embargo Hwf)
    as (Hpeek & q' & Hpop & _ & _ & Hq').
  cbn [ec_q ec_client] in Hpeek, Hpop, Hq'. rewrite Hc in Hpeek, Hpop, Hq'.
  split; [exact Hpeek|].
  rewrite decide_False in Hpop by discriminate.
  eexists q', _. split; [exact Hpop|]. split; [|exact Hq'].
  apply upd_ec_lookup. vm_compute. lia.
Defined.

Lemma overflowing_target : resolve overflowing pcall1 = TargetCap 5.
Proof. vm_compute. reflexivity. Qed.

(** [Fulfill] with a struct whose pointer 0 is a capability that the table
    of its message does not hold. *)
Lemma Fulfill_capability_out_of_range_witness :
  tree_at pipelined (Some 0) [0; 1; 6; 2; 3; 4; 5] ∧
  pcall1 ∈ queue0 ∧
  resolve overflowing pcall1 = TargetCap 5 ∧
  length (CapTable (Struct_Message overflowing) pipelined) ≤ N.to_nat 5 ∧
  ∃ w' c,
    Fulfiller_Fulfill 0 overflowing pipelined
    = Fail (Panic index_out_of_range) w' ∧
    fulfillers w' !! 0
    = Some (MkFulfiller true (Some (MkChan c false))
              (Some (ImmediateAnswer overflowing)) [] 0).
Proof.
  assert (Hin : pcall1 ∈ queue0) by apply list_elem_of_here.
  assert (Hlen : length (CapTable (Struct_Message overflowing) pipelined)
                 ≤ N.to_nat 5) by (vm_compute; lia).
  split; [exact pipelined_tree|]. split; [exact Hin|].
  split; [exact overflowing_target|]. split; [exact Hlen|].
  destruct (Fulfill_capability_out_of_range pipelined 0 _ _ overflowing
              pcall1 5%N pipelined_tree pipelined_root Hin
              overflowing_target Hlen)
    as (w' & c & Hrun & Hf & _).
  exists w', c. split; [exact Hrun|exact Hf].
Defined.

Lemma calls13_calls : Forall (λ e : ecall, is_Some (e_call e)) calls13.
Proof. repeat constructor; by eexists. Qed.

(** flushQueue on the embargo client that holds calls 1 and 3. *)
Lemma flushQueue_pairs_answers_witness :
  embargoes fulfilled !! 0
  = Some (MkEmbargo (extClient 11) (new_queue calls13), FlushStart) ∧
  Queue_wf (new_queue calls13) ∧
  Forall (λ e : ecall, is_Some (e_call e))
    (Queue_contents (new_queue calls13)) ∧
  ∃ w',
    flushQueue 6 0 fulfilled = Ok tt w' ∧
    settlers w'
    = [(Some 1, CallAnswer (extClient 11) 1001);
       (Some 3, CallAnswer (extClient 11) 1003)] ∧
    events w'
    = [EvCall 0 (extClient 11) 1001; EvCall 0 (extClient 11) 1003] ∧
    fulfillers w' = fulfillers fulfilled.
Proof.
  assert (Hc : Queue_contents (new_queue calls13) = calls13)
    by (apply new_queue_contents; vm_compute; lia).
  destruct fulfilled_embargo_ok as [Hwf _]. cbn [ec_q] in Hwf.
  assert (Hall : Forall (λ e : ecall, is_Some (e_call e))
                   (Queue_contents (new_queue calls13))).
  { rewrite Hc. exact calls13_calls. }
  split; [exact fulfilled_embargo|]. split; [exact Hwf|].
  split; [exact Hall|].
  destruct (flushQueue_pairs_answers fulfilled 0 _ _ fulfilled_embargo Hwf
              Hall)
    as (w' & q' & Hrun & _ & _ & Hset & _ & Hev & Hful & _).
  rewrite Hc in Hrun, Hset, Hev.
  exists w'. split; [exact Hrun|]. split; [|split; [|exact Hful]].
  - rewrite Hset. vm_compute. reflexivity.
  - rewrite Hev. vm_compute. reflexivity.
Defined.

Lemma awaiting_settler :
  settlers awaiting !! 0 = Some (Some 1, CallAnswer (extClient 11) 1001).
Proof. vm_compute. reflexivity. Qed.

Lemma awaiting_tree : tree_at awaiting (Some 1) [1; 6].
Proof.
  split; [by exists 2|]. apply (bool_decide_unpack _). by vm_compute.
Qed.

Lemma awaiting_call1 :
  fulfillers awaiting !! 1
  = Some (MkFulfiller true (Some (MkChan 1 false)) None [pcall6] 64).
Proof. vm_compute. reflexivity. Qed.

(** Call 6 resolves, on the struct of the example, to capability 1, which
    the table of message 7 holds. *)
Lemma awaiting_in_table (s : Struct) (st : Fulfiller) (pc : pcall) (k : N) :
  @inr error Struct result = inr s ->
  fulfillers awaiting !! 1 = Some st ->
  pc ∈ f_queue st -> resolve s pc = TargetCap k ->
  N.to_nat k < length (CapTable (Struct_Message s) awaiting).
Proof.
  intros Hs Hst Hpc Hk. injection Hs as <-.
  rewrite awaiting_call1 in Hst. injection Hst as <-.
  apply elem_of_cons in Hpc as [->|Hpc]; [|by apply elem_of_nil in Hpc].
  vm_compute in Hk. injection Hk as <-. vm_compute. lia.
Qed.

(** The goroutine that waits for the answer to call 1, with call 6
    pipelined on the Fulfiller of call 1.  When the answer is an error, the
    goroutine rejects that Fulfiller, and with it the Fulfiller of call 6.
    When it is the struct of the example, on which call 6 resolves to a
    capability of the table, it fulfils that Fulfiller. *)
Lemma settle_resolves_queued_call_witness :
  settlers awaiting !! 0 = Some (Some 1, CallAnswer (extClient 11) 1001) ∧
  tree_at awaiting (Some 1) [1; 6] ∧
  (∃ w',
     settle 0 (inl (ErrOther 9)) awaiting = Ok tt w' ∧
     settlers w' = [] ∧
     Fulfiller_Struct 1 w' = Ok (ErrorAnswer (ErrOther 9)) w' ∧
     fulfillers w' !! 3 = fulfillers awaiting !! 3) ∧
  resolve result pcall6 = TargetCap 1 ∧
  N.to_nat 1 < length (CapTable (Struct_Message result) awaiting) ∧
  (∃ w',
     settle 0 (inr result) awaiting = Ok tt w' ∧
     settlers w' = [] ∧
     Fulfiller_Struct 1 w' = Ok (ImmediateAnswer result) w' ∧
     fulfillers w' !! 3 = fulfillers awaiting !! 3).
Proof.
  assert (Hout : 3 ∉ [1; 6]).
  { intros Hin. apply elem_of_cons in Hin as [Hin|Hin]; [discriminate|].
    apply elem_of_cons in Hin as [Hin|Hin]; [discriminate|].
    by apply elem_of_nil in Hin. }
  split; [exact awaiting_settler|]. split; [exact awaiting_tree|].
  split.
  { destruct (settle_resolves_queued_call awaiting 0 1 _ [1; 6]
                (inl (ErrOther 9)) awaiting_settler awaiting_tree)
      as (w' & st' & Hrun & Hset & _ & _ & HS & Hsame & _).
    { intros s st pc k Hr. discriminate Hr. }
    exists w'. split; [exact Hrun|]. split.
    { rewrite Hset. vm_compute. reflexivity. }
    split; [exact HS|exact (Hsame 3 Hout)]. }
  split; [vm_compute; reflexivity|]. split; [vm_compute; lia|].
  destruct (settle_resolves_queued_call awaiting 0 1 _ [1; 6]
              (inr result) awaiting_settler awaiting_tree awaiting_in_table)
    as (w' & st' & Hrun & Hset & _ & _ & HS & Hsame & _).
  exists w'. split; [exact Hrun|]. split.
  { rewrite Hset. vm_compute. reflexivity. }
  split; [exact HS|exact (Hsame 3 Hout)].
Defined.

(** Fulfilling a new Fulfiller. *)
Lemma resolve_without_queue_witness :
  fulfillers start !! 0 = Some zero_Fulfiller ∧
  pending zero_Fulfiller = true ∧
  ∃ w',
    invoke (MFulfill result) 0 start = Ok VUnit w' ∧
    Fulfiller_Struct 0 w' = Ok (ImmediateAnswer result) w' ∧
    captables w' = captables start ∧ embargoes w' = [].
Proof.
  split; [reflexivity|]. split; [reflexivity|].
  destruct (resolve_without_queue (inr result) start 0 zero_Fulfiller
              eq_refl eq_refl eq_refl)
    as (w' & st' & Hrun & Hf' & Hres & _ & _ & Hemb & _ & Hcap & _).
  exists w'. split; [exact Hrun|].
  split; [exact (Struct_resolved _ _ _ _ Hf' Hres)|].
  split; [exact Hcap|exact Hemb].
Defined.

Lemma fulfilled_trees :
  Forall2 (λ (c : ecall) fli, tree_at fulfilled (e_f c) fli)
    (Queue_contents (new_queue calls13)) [[1; 6]; [3]].
Proof.
  assert (Hc : Queue_contents (new_queue calls13) = calls13)
    by (apply new_queue_contents; vm_compute; lia).
  rewrite Hc. apply Forall2_cons. split.
  { split; [by exists 2|]. apply (bool_decide_unpack _). by vm_compute. }
  apply Forall2_cons. split; [|apply Forall2_nil_2].
  split; [by exists 1|]. apply (bool_decide_unpack _). by vm_compute.
Qed.

(** Closing the embargo client that holds calls 1 and 3 before its flush
    goroutine has taken a step. *)
Lemma Close_cancels_pending_calls_witness :
  embargoes fulfilled !! 0
  = Some (MkEmbargo (extClient 11) (new_queue calls13), FlushStart) ∧
  Queue_wf (new_queue calls13) ∧
  Forall2 (λ (c : ecall) fli, tree_at fulfilled (e_f c) fli)
    (Queue_contents (new_queue calls13)) [[1; 6]; [3]] ∧
  NoDup (concat [[1; 6]; [3]]) ∧
  ∃ w',
    embargoClient_Close 0 fulfilled = Ok tt w' ∧
    Fulfiller_Struct 1 w' = Ok (ErrorAnswer errQueueCallCancel) w' ∧
    Fulfiller_Struct 3 w' = Ok (ErrorAnswer errQueueCallCancel) w' ∧
    embargoClient_WrappedClient 0 w' = Ok (Some (extClient 11)) w' ∧
    closes 0 (events w') = [extClient 11] ∧
    dispatched 0 (events w') = [].
Proof.
  assert (Hc : Queue_contents (new_queue calls13) = calls13)
    by (apply new_queue_contents; vm_compute; lia).
  destruct fulfilled_embargo_ok as [Hwf _]. cbn [ec_q] in Hwf.
  assert (Hnd : NoDup (concat [[1; 6]; [3]]))
    by (apply (bool_decide_unpack _); by vm_compute).
  split; [exact fulfilled_embargo|]. split; [exact Hwf|].
  split; [exact fulfilled_trees|]. split; [exact Hnd|].
  destruct (Close_cancels_pending_calls fulfilled 0 _ _ _ _ fulfilled_embargo
              Hwf fulfilled_trees Hnd)
    as (w' & Hrun & Hin & _ & _ & Hw & Hcl & Hd).
  rewrite Hc in Hin.
  destruct (Hin (pc_ecall pcall1)) as (g1 & st1 & Hg1 & Hf1 & Hr1);
    [apply list_elem_of_here|].
  destruct (Hin (pc_ecall pcall3)) as (g3 & st3 & Hg3 & Hf3 & Hr3);
    [apply list_elem_of_further, list_elem_of_here|].
  injection Hg1 as <-. injection Hg3 as <-.
  exists w'. split; [exact Hrun|].
  split; [exact (Struct_resolved _ _ _ _ Hf1 Hr1)|].
  split; [exact (Struct_resolved _ _ _ _ Hf3 Hr3)|].
  split; [exact Hw|]. split.
  - rewrite Hcl. vm_compute. reflexivity.
  - rewrite Hd. vm_compute. reflexivity.
Defined.

Lemma requests2_copy : Forall copies_to requests2.
Proof. repeat constructor. Qed.

(** Two requests on a new Fulfiller. *)
Lemma PipelineCall_series_witness :
  fulfillers start !! 0 = Some zero_Fulfiller ∧
  pending zero_Fulfiller = true ∧
  Forall copies_to requests2 ∧
  ∃ w' st',
    run (pipeline_all 0 requests2) start
    = Ok [VAnswer (FulfillerAnswer 1); VAnswer (FulfillerAnswer 2)] w' ∧
    fulfillers w' !! 0 = Some st' ∧
    f_queue st'
    = [Pcall [0] (Ecall (Some 1001) (Some 1));
       Pcall [1] (Ecall (Some 1002) (Some 2))].
Proof.
  split; [reflexivity|]. split; [reflexivity|].
  split; [exact requests2_copy|].
  destruct (PipelineCall_series 0 requests2 start zero_Fulfiller eq_refl
              eq_refl requests2_copy)
    as (w' & st' & Hrun & Hf' & _ & Hq' & _).
  exists w', st'. split; [exact Hrun|]. split; [exact Hf'|exact Hq'].
Defined.

Lemma in_flight_run :
  run [AFlush 0; AFlush 0; ASettle 0 (inr (Str 7 []))] fulfilled
  = Ok [VUnit; VUnit; VUnit] in_flight.
Proof. vm_compute. reflexivity. Qed.

Lemma fulfilled_root_answer :
  ∃ st, fulfillers fulfilled !! 0 = Some st ∧
        f_answer st = Some (ImmediateAnswer result).
Proof. eexists. split; vm_compute; reflexivity. Qed.

(** The fulfilled root of the example keeps its answer while the first
    queued call is made and answered. *)
Lemma answers_are_final_witness :
  run [AFlush 0; AFlush 0; ASettle 0 (inr (Str 7 []))] fulfilled
  = Ok [VUnit; VUnit; VUnit] in_flight ∧
  ∃ st', fulfillers in_flight !! 0 = Some st' ∧
         f_answer st' = Some (ImmediateAnswer result).
Proof.
  split; [exact in_flight_run|].
  destruct (answers_are_final _ _ _ _ in_flight_run) as [Hans _].
  destruct fulfilled_root_answer as (st & Hst & Ha).
  exact (Hans 0 st _ Hst Ha).
Defined.

Lemma calls123_calls : Forall (λ e : ecall, is_Some (e_call e)) calls123.
Proof. repeat constructor; by eexists. Qed.

Lemma calls123_length : length calls123 ≤ callQueueSize.
Proof. vm_compute. lia. Qed.

Lemma busy_on_embargo : Forall (on_embargo 0) busy.
Proof. repeat constructor. Qed.

(** An embargo client made with three calls, called while it flushes. *)
Lemma embargo_queue_stays_bounded_witness :
  length calls123 ≤ callQueueSize ∧
  Forall (λ e : ecall, is_Some (e_call e)) calls123 ∧
  Forall (on_embargo 0) busy ∧
  ∃ vs w2 q pc,
    run busy
      (set_embargoes
         (λ l, l ++ [(MkEmbargo (extClient 10) (new_queue calls123),
                      FlushStart)]) start)
    = Ok vs w2 ∧
    embargoes w2 !! 0 = Some (MkEmbargo (extClient 10) q, pc) ∧
    length (Queue_contents q) ≤ callQueueSize.
Proof.
  split; [exact calls123_length|]. split; [exact calls123_calls|].
  split; [exact busy_on_embargo|].
  destruct (embargo_queue_stays_bounded start (extClient 10) calls123 busy
              calls123_length calls123_calls busy_on_embargo)
    as (vs & w2 & q & pc & Hrun & _ & He & Hlen & _).
  exists vs, w2, q, pc. split; [exact Hrun|]. split; [exact He|exact Hlen].
Defined.

Lemma requests13_copy : Forall copies_to requests13.
Proof. repeat constructor. Qed.

Lemma requests13_target : Forall (resolves_to result 1) requests13.
Proof. repeat constructor. Qed.

Lemma requests13_length : length requests13 ≤ callQueueSize.
Proof. vm_compute. lia. Qed.

(** Calls 1 and 3, pipelined on pointer 0 of a promised struct, reach
    client 11, which the struct has there, in that order. *)
Lemma pipelined_calls_arrive_in_order_witness :
  fulfillers start !! 0 = Some zero_Fulfiller ∧
  Forall copies_to requests13 ∧
  Forall (resolves_to result 1) requests13 ∧
  CapTable (Struct_Message result) start !! N.to_nat 1 = Some (extClient 11) ∧
  ∃ w1 w2 w3,
    run (pipeline_all 0 requests13) start
    = Ok [VAnswer (FulfillerAnswer 1); VAnswer (FulfillerAnswer 2)] w1 ∧
    Fulfiller_Fulfill 0 result w1 = Ok tt w2 ∧
    CapTable (Struct_Message result) w2 !! N.to_nat 1 = Some (embargoRef 0) ∧
    flushQueue 6 0 w2 = Ok tt w3 ∧
    events w3
    = [EvCall 0 (extClient 11) 1001; EvCall 0 (extClient 11) 1003] ∧
    settlers w3
    = [(Some 1, CallAnswer (extClient 11) 1001);
       (Some 2, CallAnswer (extClient 11) 1003)].
Proof.
  assert (Hc : CapTable (Struct_Message result) start !! N.to_nat 1
               = Some (extClient 11)) by (vm_compute; reflexivity).
  split; [reflexivity|]. split; [exact requests13_copy|].
  split; [exact requests13_target|]. split; [exact Hc|].
  destruct (pipelined_calls_arrive_in_order start 0 zero_Fulfiller requests13
              result 1%N (extClient 11) eq_refl eq_refl eq_refl)
    as (w1 & w2 & w3 & Hrun1 & Hrun2 & Htab & Hrun3 & Hev & Hset & _);
    [discriminate|exact requests13_length|exact requests13_copy|
     exact requests13_target|exact Hc|].
  exists w1, w2, w3. split; [exact Hrun1|]. split; [exact Hrun2|].
  split; [exact Htab|]. split; [exact Hrun3|]. split; [exact Hev|exact Hset].
Defined.

(** Calls 1 and 3, pipelined on a promise that is then rejected. *)
Lemma pipelined_calls_fail_on_reject_witness :
  fulfillers start !! 0 = Some zero_Fulfiller ∧
  Forall copies_to requests13 ∧
  ∃ w1 w2,
    run (pipeline_all 0 requests13) start
    = Ok [VAnswer (FulfillerAnswer 1); VAnswer (FulfillerAnswer 2)] w1 ∧
    Fulfiller_Reject (Some 0) (Some (ErrOther 3)) w1 = Ok tt w2 ∧
    Fulfiller_Struct 1 w2 = Ok (ErrorAnswer (ErrOther 3)) w2 ∧
    Fulfiller_Struct 2 w2 = Ok (ErrorAnswer (ErrOther 3)) w2.
Proof.
  split; [reflexivity|]. split; [exact requests13_copy|].
  destruct (pipelined_calls_fail_on_reject start 0 zero_Fulfiller requests13
              (ErrOther 3) eq_refl eq_refl eq_refl requests13_length
              requests13_copy)
    as (w1 & w2 & Hrun1 & Hrun2 & _ & Hall & _).
  exists w1, w2. split; [exact Hrun1|]. split; [exact Hrun2|].
  split; [exact (Hall 0 ltac:(vm_compute; lia))|
          exact (Hall 1 ltac:(vm_compute; lia))].
Defined.
